(** * AddressKit: ingestion pipeline, resumable fetcher and lookup helpers

    A shallow embedding of the parts of the AddressKit sources that the
    specification makes checkable statements about, and of the functions
    around them (the callers and callees in the same files, the read side
    of the service, the JSON writer), followed by the statements themselves.

    Conventions of the embedding
    - JavaScript numbers that hold byte counts, page numbers, millisecond
      delays and timestamps are integers in every execution the statements
      consider; they are modelled as [Z].
    - [undefined] is [None]; a thrown exception and a rejected promise are
      the error branch of a sum type.
    - Side effects (timers, requests to the search backend, the destination
      file, the persistent cache, the error logger) are made explicit, either
      as a state that is threaded through or as a trace of events. *)

From Stdlib Require Import ZArith QArith Qminmax Qround Qpower Lia Lqa Ascii String List DecimalString.
From stdpp Require Import base option strings list gmap.

Local Open Scope string_scope.
Local Open Scope Z_scope.

(* ===================================================================== *)
(** * Part I: the embedding *)
(* ===================================================================== *)

(** ** JavaScript built-ins used by the sources *)
Module Js.

(** [String.prototype.split] with a one-character separator: the string is
    cut at every occurrence of the separator, empty pieces are kept, and the
    empty string yields the one-element list [[""]]. *)
Fixpoint split (sep : ascii) (s : string) : list string :=
  match s with
  | EmptyString => [EmptyString]
  | String c rest =>
      if Ascii.eqb c sep then EmptyString :: split sep rest
      else match split sep rest with
           | [] => [String c EmptyString]
           | w :: ws => String c w :: ws
           end
  end.

(** [Array.prototype.includes] on an array of strings. *)
Definition includes (xs : list string) (x : string) : bool :=
  existsb (String.eqb x) xs.

(** [Array.prototype.some]. *)
Definition some {A} (p : A → bool) (xs : list A) : bool := existsb p xs.

(** [Array.prototype.find]: the first element satisfying the predicate,
    [undefined] when there is none. *)
Fixpoint find {A} (p : A → bool) (xs : list A) : option A :=
  match xs with
  | [] => None
  | x :: rest => if p x then Some x else find p rest
  end.

(** [`${n}`] for an integer [n]. *)
Definition show (n : Z) : string := NilZero.string_of_int (Z.to_int n).

Definition is_digit (c : ascii) : bool :=
  let n := nat_of_ascii c in (48 <=? n)%nat && (n <=? 57)%nat.

Fixpoint digits_prefix (acc : option Z) (s : string) : option Z :=
  match s with
  | EmptyString => acc
  | String c rest =>
      if is_digit c
      then digits_prefix
             (Some (10 * default 0 acc + (Z.of_nat (nat_of_ascii c) - 48))) rest
      else acc
  end.

(** The white space that [Number.parseInt] skips, among the characters
    below 256: tab, line feed, vertical tab, form feed, carriage return,
    space and no-break space. *)
Definition is_space (c : ascii) : bool :=
  let n := nat_of_ascii c in
  ((9 <=? n)%nat && (n <=? 13)%nat) || (n =? 32)%nat || (n =? 160)%nat.

Fixpoint trim_start (s : string) : string :=
  match s with
  | String c rest => if is_space c then trim_start rest else s
  | EmptyString => s
  end.

(** [Number.parseInt(s, 10)]: leading white space is skipped, then an
    optional sign is followed by the longest prefix of decimal digits;
    [None] stands for [NaN].  The value is an exact integer; the source
    holds it in a double, which is exact below [2 ^ 53]. *)
Definition parseInt (s : string) : option Z :=
  match trim_start s with
  | String "-" rest => Z.opp <$> digits_prefix None rest
  | String "+" rest => digits_prefix None rest
  | rest => digits_prefix None rest
  end.

Definition hex_value (c : ascii) : option Z :=
  let n := nat_of_ascii c in
  if (48 <=? n)%nat && (n <=? 57)%nat then Some (Z.of_nat n - 48)
  else if (97 <=? n)%nat && (n <=? 102)%nat then Some (Z.of_nat n - 87)
  else if (65 <=? n)%nat && (n <=? 70)%nat then Some (Z.of_nat n - 55)
  else None.

Fixpoint hex_prefix (acc : option Z) (s : string) : option Z :=
  match s with
  | EmptyString => acc
  | String c rest =>
      match hex_value c with
      | Some v => hex_prefix (Some (16 * default 0 acc + v)) rest
      | None => acc
      end
  end.

(** The digits of [Number.parseInt(s)], after the sign: with [0x] or [0X]
    in front they are hexadecimal, decimal otherwise. *)
Definition digits_any_radix (s : string) : option Z :=
  match s with
  | String "0" (String "x" hex) => hex_prefix None hex
  | String "0" (String "X" hex) => hex_prefix None hex
  | _ => digits_prefix None s
  end.

(** [Number.parseInt(s)], without a radix. *)
Definition parseInt_no_radix (s : string) : option Z :=
  match trim_start s with
  | String "-" rest => Z.opp <$> digits_any_radix rest
  | String "+" rest => digits_any_radix rest
  | rest => digits_any_radix rest
  end.

(** [String.prototype.toLowerCase] on ASCII letters. *)
Definition lower (c : ascii) : ascii :=
  let n := nat_of_ascii c in
  if (65 <=? n)%nat && (n <=? 90)%nat then ascii_of_nat (n + 32) else c.

Fixpoint toLowerCase (s : string) : string :=
  match s with
  | EmptyString => EmptyString
  | String c rest => String (lower c) (toLowerCase rest)
  end.

(** [String.prototype.includes]. *)
Definition str_includes (s part : string) : bool :=
  bool_decide (is_Some (String.index 0 part s)).

(** A JavaScript number that is an integer or [NaN] ([None]).  Sums and
    minima are computed on exact integers; the doubles of the source give
    the same values as long as these stay below [2 ^ 53] in magnitude. *)
Definition num := option Z.

(** The integers a double holds exactly: [Number.isSafeInteger]. *)
Definition safe (n : Z) : Prop := - 2 ^ 53 < n < 2 ^ 53.

(** [a + b], which is [NaN] as soon as one argument is. *)
Definition num_add (a b : num) : num :=
  match a, b with Some x, Some y => Some (x + y) | _, _ => None end.

(** [Math.min], which is [NaN] as soon as one argument is. *)
Definition num_min (a b : num) : num :=
  match a, b with Some x, Some y => Some (Z.min x y) | _, _ => None end.

(** [a || b] on strings: the empty string and [undefined] are falsy. *)
Definition or_str (a : option string) (b : string) : string :=
  match a with
  | Some s => if String.eqb s "" then b else s
  | None => b
  end.

End Js.

(** ** Covered regions: [service/helpers/isSupportedState.ts] and
       [service/helpers/getCoveredStates.ts] *)
Module CoveredStates.

(** The regions the README documents as valid state codes, and that the
    specification calls the closed region set. *)
Definition documented_states : list string :=
  ["ACT"; "NSW"; "NT"; "OT"; "QLD"; "SA"; "TAS"; "VIC"; "WA"].

(** [isSupportedState]: membership in the literal array of the source. *)
Definition isSupportedState (state : string) : bool :=
  Js.includes ["ACT"; "NSW"; "NT"; "QLD"; "SA"; "TAS"; "VIC"; "WA"] state.

(** [getCoveredStates], as a function of the value of the environment
    variable [COVERED_STATES] ([None] when it is not set). *)
Definition getCoveredStates (COVERED_STATES : option string) : list string :=
  let covered := Js.or_str COVERED_STATES "" in
  if String.eqb covered "" then []
  else
    let states := Js.split "," covered in
    if Js.some (λ state, negb (isSupportedState state)) states then []
    else states.

End CoveredStates.

(** ** Pagination of the search query: [dist/service/index.js] *)
Module Pagination.

(** The constants of [service/conf], which is not among the sources: they
    are taken as a parameter of the functions that read them. *)
Record Conf := {
  PAGE_SIZE : Z;
  MAX_PAGE_NUMBER : Z;
  MAX_PAGE_SIZE : Z;
}.

(** Modelled from the spec: [service/conf] is not among the sources; the
    specification (section 6.3) and the README give 8 as the value of
    [PAGE_SIZE] when the environment does not set it. *)
Definition default_PAGE_SIZE : Z := 8.

(** One [multi_match] clause of the query. *)
Record MultiMatch := {
  mm_fields : list string;
  mm_query : string;
  mm_fuzziness : option string;
  mm_type : string;
  mm_lenient : bool;
  mm_auto_generate_synonyms_phrase_query : bool;
  mm_operator : string;
}.

(** The body of the search request handed to the backend client. *)
Record SearchBody := {
  from : Z;
  size : Z;
  should : option (list MultiMatch);
}.

(** [validatePaginationParams]. *)
Definition validatePaginationParams (conf : Conf) (page size : Z) : Z * Z :=
  let validPage := Z.max 1 (Z.min page (MAX_PAGE_NUMBER conf)) in
  let validSize := Z.max 1 (Z.min size (MAX_PAGE_SIZE conf)) in
  (validPage, validSize).

(** The [should] clauses, present when the search string is not empty. *)
Definition should_clauses (searchString : string) : option (list MultiMatch) :=
  if String.eqb searchString "" then None
  else Some
    [ {| mm_fields := ["sla"; "ssla"]; mm_query := searchString;
         mm_fuzziness := Some "AUTO"; mm_type := "bool_prefix";
         mm_lenient := true;
         mm_auto_generate_synonyms_phrase_query := false;
         mm_operator := "AND" |};
      {| mm_fields := ["sla"; "ssla"]; mm_query := searchString;
         mm_fuzziness := None; mm_type := "phrase_prefix";
         mm_lenient := true;
         mm_auto_generate_synonyms_phrase_query := false;
         mm_operator := "AND" |} ].

(** [searchForAddress] of the compiled service, up to the request it sends:
    [pageSize] is [None] when the caller omits the argument. *)
Definition searchForAddress (conf : Conf) (searchString : string) (p : Z)
    (pageSize : option Z) : SearchBody :=
  let pageSize := default (PAGE_SIZE conf) pageSize in
  let '(validPage, validSize) := validatePaginationParams conf p pageSize in
  let from := (validPage - 1) * validSize in
  {| from := from; size := validSize; should := should_clauses searchString |}.

(** The specification's wording: a value clamped to the interval
    [[lo, hi]]. *)
Definition clamped (lo hi x : Z) : Z :=
  if x <? lo then lo else if hi <? x then hi else x.

(** The [searchForAddress] of [service/DefaultService.ts], which does not
    validate its arguments: [(p - 1 || 0) * pageSize] and [pageSize] are sent
    as they are. *)
Definition legacy_searchForAddress (conf : Conf) (searchString : string)
    (p : Z) (pageSize : option Z) : SearchBody :=
  let pageSize := default (PAGE_SIZE conf) pageSize in
  {| from := (if p - 1 =? 0 then 0 else p - 1) * pageSize;
     size := pageSize;
     should := should_clauses searchString |}.

(** *** Notions and sample data used by the statements *)

Definition sample_conf : Conf :=
  {| PAGE_SIZE := 8; MAX_PAGE_NUMBER := 1000; MAX_PAGE_SIZE := 100 |}.

End Pagination.

(** ** The bulk-indexing driver: [sendIndexRequest] in
       [service/DefaultService.ts] *)
Module BulkIndex.

(** The environment variables the driver reads. *)
Record Env := {
  ADDRESSR_INDEX_BACKOFF : option string;
  ADDRESSR_INDEX_BACKOFF_INCREMENT : option string;
  ADDRESSR_INDEX_BACKOFF_MAX : option string;
  ADDRESSR_INDEX_TIMEOUT : option string;
}.

(** The default configuration: none of the variables is set. *)
Definition default_env : Env :=
  {| ADDRESSR_INDEX_BACKOFF := None;
     ADDRESSR_INDEX_BACKOFF_INCREMENT := None;
     ADDRESSR_INDEX_BACKOFF_MAX := None;
     ADDRESSR_INDEX_TIMEOUT := None |}.

(** What the backend client does with one bulk request: the call rejects, or
    it resolves with a response whose [errors] and [body.errors] are truthy
    or not. *)
Inductive BulkReply :=
| Rejects
| Resolves (errors : bool) (body_errors : bool).

(** The condition under which the [try] block throws. *)
Definition failed (r : BulkReply) : bool :=
  match r with
  | Rejects => true
  | Resolves errors body_errors => errors || body_errors
  end.

Section Driver.
(** The type of the bulk body (alternating directives and documents). *)
Context {Body : Type}.

(** What the driver does to the outside world. *)
Inductive Event :=
| Bulk (refresh : bool) (body : Body) (timeout : string)
| SetTimeout (ms : Js.num).

(** Where a run stands once the replies known so far are consumed: it has
    returned, or it is waiting for the reply to the request it sent last.
    There is no third case: the loop has no exit that throws. *)
Inductive Status :=
| Returned
| Awaiting (backoff : Js.num) (count : Z).

(** The [for (let count = 0; true; count++)] loop, run against the replies
    of the backend to the successive requests. *)
Fixpoint sendIndexRequest_loop (env : Env) (indexingBody : Body)
    (refresh : bool) (replies : list BulkReply) (backoff : Js.num) (count : Z)
    : list Event * Status :=
  let request :=
    Bulk refresh indexingBody (Js.or_str (ADDRESSR_INDEX_TIMEOUT env) "300s") in
  match replies with
  | [] => ([request], Awaiting backoff count)
  | reply :: replies =>
      if failed reply then
        let backoff1 :=
          Js.num_add backoff
            (Js.parseInt_no_radix (Js.or_str (ADDRESSR_INDEX_BACKOFF_INCREMENT env) "30000")) in
        let backoff2 :=
          Js.num_min (Js.parseInt_no_radix (Js.or_str (ADDRESSR_INDEX_BACKOFF_MAX env) "600000"))
                  backoff1 in
        let '(events, status) :=
          sendIndexRequest_loop env indexingBody refresh replies backoff2 (count + 1) in
        (request :: SetTimeout backoff :: events, status)
      else ([request], Returned)
  end.

(** [sendIndexRequest]: [initialBackoff] and [refresh] are [None] when the
    caller leaves them out. *)
Definition sendIndexRequest (env : Env) (indexingBody : Body)
    (initialBackoff : option Js.num) (refresh : option bool)
    (replies : list BulkReply) : list Event * Status :=
  let initialBackoff :=
    default (Js.parseInt_no_radix (Js.or_str (ADDRESSR_INDEX_BACKOFF env) "30000"))
            initialBackoff in
  sendIndexRequest_loop env indexingBody (default false refresh) replies
                        initialBackoff 0.

(** The delays of the timers of a trace, in order. *)
Definition delays (events : list Event) : list Js.num :=
  omap (λ e, match e with SetTimeout ms => Some ms | _ => None end) events.

(** The bulk requests of a trace, in order. *)
Definition requests (events : list Event) : list (bool * Body * string) :=
  omap (λ e, match e with Bulk r b t => Some (r, b, t) | _ => None end) events.

End Driver.

(** *** Notions and sample data used by the statements *)


End BulkIndex.

(** ** The package metadata cache: [fetchGNAFPackageData] in
       [service/DefaultService.ts] *)
Module PackageCache.

(** Modelled from the spec: [service/conf], which defines [ONE_DAY_MS] and
    [THIRTY_DAYS_MS], is not among the sources; the specification
    (sections 3.1 and 4.7) fixes the two tiers at one day and thirty days,
    here in milliseconds as the names say. *)
Definition ONE_DAY_MS : Z := 24 * 60 * 60 * 1000.
Definition THIRTY_DAYS_MS : Z := 30 * ONE_DAY_MS.

(** Response headers, by name. *)
Abbreviation Headers := (gmap string string).

(** The value kept in the cache under the package URL. *)
Record CacheEntry := {
  body : string;
  headers : Headers;
  cachedAt : option Z;
}.

(** A response of the HTTP client. *)
Record Response := {
  resp_body : string;
  resp_headers : Headers;
  fromCache : bool;
}.

(** The outcome of the network request: a response, or a thrown error. *)
Inductive Fetched (E : Type) :=
| FetchOk (response : Response)
| FetchError (error : E).
Arguments FetchOk {E} response.
Arguments FetchError {E} error.

(** What [fetchGNAFPackageData] hands to its caller. *)
Inductive Outcome (E : Type) :=
| ReturnCached (entry : CacheEntry)
| ReturnFresh (response : Response)
| Throw (error : E).
Arguments ReturnCached {E} entry.
Arguments ReturnFresh {E} response.
Arguments Throw {E} error.

(** The effects of one call: what is returned or thrown, the content of the
    cache afterwards, and whether the network was asked. *)
Record Effects (E : Type) := {
  outcome : Outcome E;
  store : option CacheEntry;
  requested : bool;
}.
Arguments outcome {E} _.
Arguments store {E} _.
Arguments requested {E} _.

Section Fetch.
(** The type of network errors. *)
Context {E : Type}.
(** [new Date(s).getTime()] for a header value; [None] is [NaN]. *)
Variable parseDate : option string → option Z.

(** The time the entry was created: [cachedAt] when it is defined, the
    [date] header otherwise. *)
Definition created (entry : CacheEntry) : option Z :=
  match cachedAt entry with
  | Some t => Some t
  | None => parseDate (headers entry !! "date")
  end.

(** [age = Date.now() - created.getTime()]; [None] is [NaN]. *)
Definition age_of (entry : CacheEntry) (now : Z) : option Z :=
  (λ t, now - t) <$> created entry.

(** [age <= bound] and [age < bound], both false on [NaN]. *)
Definition age_le (age : option Z) (bound : Z) : bool :=
  match age with Some a => a <=? bound | None => false end.
Definition age_lt (age : option Z) (bound : Z) : bool :=
  match age with Some a => a <? bound | None => false end.

Definition set_header (name value : string) (entry : CacheEntry) : CacheEntry :=
  {| body := body entry;
     headers := <[name := value]> (headers entry);
     cachedAt := cachedAt entry |}.

(** The value of the [warning] header: [110], a tab, [custom/1.0] and the
    quoted text. *)
Definition stale_warning : string :=
  "110" ++ String (ascii_of_nat 9) "custom/1.0 "
        ++ String (ascii_of_nat 34) "Response is Stale"
        ++ String (ascii_of_nat 34) "".

(** [fetchGNAFPackageData]: [cached] is the content of the cache under the
    package URL, [now] the clock when the age is computed, [net] what the
    network request does if it is made, and [now'] the clock when the cache
    is written. *)
Definition fetchGNAFPackageData (cached : option CacheEntry) (now : Z)
    (net : Fetched E) (now' : Z) : Effects E :=
  let fetch (cachedResponse : option CacheEntry) (age : option Z) : Effects E :=
    match net with
    | FetchOk response =>
        {| outcome :=
             ReturnFresh
               {| resp_body := resp_body response;
                  resp_headers :=
                    <["x-cache" := if fromCache response then "HIT" else "MISS"]>
                      (resp_headers response);
                  fromCache := fromCache response |};
           store :=
             Some {| body := resp_body response;
                     headers := resp_headers response;
                     cachedAt := Some now' |};
           requested := true |}
    | FetchError error_ =>
        match cachedResponse with
        | Some cachedResponse =>
            if age_lt age THIRTY_DAYS_MS then
              {| outcome :=
                   ReturnCached (set_header "warning" stale_warning cachedResponse);
                 store := cached; requested := true |}
            else {| outcome := Throw error_; store := cached; requested := true |}
        | None => {| outcome := Throw error_; store := cached; requested := true |}
        end
    end in
  match cached with
  | Some cachedResponse =>
      let cachedResponse := set_header "x-cache" "HIT" cachedResponse in
      let age := age_of cachedResponse now in
      if age_le age ONE_DAY_MS then
        {| outcome := ReturnCached cachedResponse; store := cached;
           requested := false |}
      else fetch (Some cachedResponse) age
  | None => fetch None (Some 0)
  end.

End Fetch.

(** *** Notions and sample data used by the statements *)

(** The entry handed back from the cache carries the marker [x-cache: HIT]
    and is otherwise the cached one. *)
Definition hit (entry : CacheEntry) : CacheEntry := set_header "x-cache" "HIT" entry.


Definition sample_response : Response :=
  {| resp_body := "{new}"; resp_headers := {[ "etag" := "def" ]};
     fromCache := false |}.

Definition no_date (_ : option string) : option Z := None.

End PackageCache.

(** ** The resumable fetcher: [packages/core/utils/stream-down.ts] *)
Module StreamDown.

(** The fields of an error object that the control flow reads. *)
Record JsError := {
  code : option string;
  message : string;
  requiresRestart : bool;
}.

(** An error raised by the network stack: it has no [requiresRestart]
    property, which only [attemptDownload] sets. *)
Definition node_error (code : option string) (message : string) : JsError :=
  {| code := code; message := message; requiresRestart := false |}.

(** The fields of a [DownloadError]. *)
Record DownloadError := {
  de_message : string;
  de_code : option string;
  de_attempts : Z;
  de_isRetryable : bool;
  de_bytesDownloaded : Z;
}.

Record RetryConfig := {
  maxRetries : option Z;
  initialBackoff : option Z;
  maxBackoff : option Z;
  backoffMultiplier : option Z;
}.

Record TimeoutConfig := {
  socketTimeout : option Z;
  connectTimeout : option Z;
}.

(** The options of [streamDown].  The callbacks ([onProgress], [onRetry],
    [onIncompleteDetected], [onCorruptFileDeleted]) only notify the caller
    and are left out. *)
Record StreamDownOptions := {
  url : string;
  expectedSize : option Z;
  enableResume : option bool;
  retry : option RetryConfig;
  timeout : option TimeoutConfig;
}.

Definition RETRYABLE_ERROR_CODES : gset string :=
  list_to_set
    [ "ECONNRESET"; "ECONNREFUSED"; "ETIMEDOUT"; "ENOTFOUND"; "ENETUNREACH";
      "EHOSTUNREACH"; "EPIPE"; "EAI_AGAIN"; "EPROTO"; "SOCKET_TIMEOUT";
      "CONNECT_TIMEOUT"; "DATA_OVERFLOW"; "SIZE_MISMATCH" ].

Definition RETRYABLE_HTTP_STATUS_CODES : gset Z :=
  list_to_set [408; 429; 500; 502; 503; 504].

Definition CORRUPT_FILE_HTTP_STATUS_CODES : gset Z := list_to_set [416].

(** [isRetryableError]. *)
Definition isRetryableError (error : JsError) : bool :=
  if match code error with
     | Some c => negb (String.eqb c "") && bool_decide (c ∈ RETRYABLE_ERROR_CODES)
     | None => false
     end
  then true
  else
    let message := Js.toLowerCase (message error) in
    if Js.str_includes message "econnreset"
       || Js.str_includes message "socket hang up"
       || Js.str_includes message "connection reset"
       || Js.str_includes message "network"
       || Js.str_includes message "timeout"
       || Js.str_includes message "aborted"
    then true
    else false.

(** The destination file: absent, or present with a size in bytes. *)
Definition Disk := option Z.

(** [getExistingFileSize]: [statSync] throws when the file is absent. *)
Definition getExistingFileSize (disk : Disk) : Z :=
  match disk with Some size => size | None => 0 end.

(** [safeDeleteFile]: the disk afterwards, and whether a file was deleted. *)
Definition safeDeleteFile (disk : Disk) : Disk * bool :=
  match disk with Some _ => (None, true) | None => (None, false) end.

Record Validation := {
  resumeFromBytes : Z;
  wasDeleted : bool;
}.

(** [validatePartialFile], with the disk it leaves. *)
Definition validatePartialFile (disk : Disk) (expectedSize : Z)
    : Validation * Disk :=
  let existingSize := getExistingFileSize disk in
  if existingSize =? 0 then
    ({| resumeFromBytes := 0; wasDeleted := false |}, disk)
  else if expectedSize <=? 0 then
    ({| resumeFromBytes := existingSize; wasDeleted := false |}, disk)
  else if expectedSize <=? existingSize then
    ({| resumeFromBytes := 0; wasDeleted := true |}, fst (safeDeleteFile disk))
  else ({| resumeFromBytes := existingSize; wasDeleted := false |}, disk).

(** What the response stream and the file stream report while a body is
    received: a chunk of the given length, the end of the response, the
    callback of [file.end] (all data flushed), a response error, the close of
    the response, and the firing of the socket-inactivity timer. *)
Inductive BodyEvent :=
| Data (length : Z)
| EndOfStream
| Flushed
| ResponseError (code : option string) (message : string)
| Close
| SocketTimeout.

(** The [Location] header of a response, as the call of [attemptDownload]
    that follows a redirect reads its text: [new URL] accepts an absolute
    address only and throws a [TypeError] on any other text, and [get] of
    [node:https] throws [ERR_INVALID_PROTOCOL] for an address whose protocol
    is not [https:]. *)
Inductive Location :=
| Https (href : string)
| OtherProtocol (protocol href : string)
| NotAbsolute (text : string).

(** The text of the header. *)
Definition header_text (location : Location) : string :=
  match location with
  | Https href => href
  | OtherProtocol _ href => href
  | NotAbsolute text => text
  end.

(** What happens to one HTTPS request. *)
Inductive Exchange :=
| RequestError (code : option string) (message : string)
| ConnectTimeout
| RequestTimeout
| Respond (statusCode : Z) (statusMessage : string)
          (location : option Location) (contentLength : option string)
          (events : list BodyEvent).

(** The promise of an attempt is settled once; later calls of [resolve] and
    [reject] have no effect. *)
Inductive Settlement :=
| Resolve
| Reject (error : JsError).

(** What one call of [attemptDownload] opens and asks for. *)
Record Issued := {
  file_flags : string;
  req_url : string;
  req_Range : option string;
}.

(** The state of the transfer of one response body.  [settled_on] is the
    destination file as it was at the moment the promise was settled: the
    continuation of [await attemptDownload] in [streamDown] runs right after
    the handler that settles the promise, before any callback that is still
    to come.  A chunk handed to [file.write] is taken to reach the file at
    once. *)
Record Transfer := {
  disk : Disk;
  closed : bool;
  ended : bool;
  aborted : bool;
  settled : option Settlement;
  settled_on : Disk;
  bytesWrittenThisSession : Z;
  bytesDownloaded : Z;
}.

Definition settle (s : Settlement) (t : Transfer) : Transfer :=
  {| disk := disk t; closed := closed t; ended := ended t;
     aborted := aborted t;
     settled := match settled t with None => Some s | Some s0 => Some s0 end;
     settled_on := match settled t with None => disk t | Some _ => settled_on t end;
     bytesWrittenThisSession := bytesWrittenThisSession t;
     bytesDownloaded := bytesDownloaded t |}.

Definition set_disk (d : Disk) (t : Transfer) : Transfer :=
  {| disk := d; closed := closed t; ended := ended t; aborted := aborted t;
     settled := settled t; settled_on := settled_on t;
     bytesWrittenThisSession := bytesWrittenThisSession t;
     bytesDownloaded := bytesDownloaded t |}.

Definition close_file (t : Transfer) : Transfer :=
  {| disk := disk t; closed := true; ended := ended t; aborted := aborted t;
     settled := settled t; settled_on := settled_on t;
     bytesWrittenThisSession := bytesWrittenThisSession t;
     bytesDownloaded := bytesDownloaded t |}.

(** [abortWithError]: nothing happens when the request is already aborted;
    otherwise the file is closed and the promise rejected. *)
Definition abortWithError (error : JsError) (t : Transfer) : Transfer :=
  if aborted t then t
  else
    settle (Reject error)
      {| disk := disk t; closed := true; ended := ended t; aborted := true;
         settled := settled t; settled_on := settled_on t;
         bytesWrittenThisSession := bytesWrittenThisSession t;
         bytesDownloaded := bytesDownloaded t |}.

(** [Math.max(expectedBytesThisSession * 1.01, expectedBytesThisSession + 1024)].
    The source computes it on IEEE doubles; the exact rational is used here. *)
Definition overflowThreshold (expectedBytesThisSession : Z) : Q :=
  Qmax (inject_Z expectedBytesThisSession * 1.01)
       (inject_Z expectedBytesThisSession + 1024).

(** [n > q] for an integer [n]. *)
Definition exceeds (n : Z) (q : Q) : bool := negb (Qle_bool (inject_Z n) q).

Definition overflow_error (received expected : Z) : JsError :=
  {| code := Some "DATA_OVERFLOW";
     message := "Data overflow detected: received " ++ Js.show received
                ++ " bytes but expected ~" ++ Js.show expected;
     requiresRestart := false |}.

Definition size_mismatch_error (totalBytes finalSize : Z) : JsError :=
  {| code := Some "SIZE_MISMATCH";
     message := "File size mismatch: expected " ++ Js.show totalBytes
                ++ " bytes but got " ++ Js.show finalSize;
     requiresRestart := false |}.

Definition premature_close_error (bytesDownloaded totalBytes : Z) : JsError :=
  {| code := Some "ECONNRESET";
     message := "Connection closed prematurely: downloaded "
                ++ Js.show bytesDownloaded ++ " of "
                ++ Js.show totalBytes ++ " bytes";
     requiresRestart := false |}.

(** What the handlers of one response share: the total computed from the
    headers, whether the server answered 206, the size resumed from and the
    socket timeout. *)
Record Session := {
  totalBytes : Js.num;
  serverSupportsResume : bool;
  resumedFrom : Z;
  sessionSocketTimeout : Z;
}.

Definition expectedBytesThisSession (c : Session) : Js.num :=
  if serverSupportsResume c then (λ t, t - resumedFrom c) <$> totalBytes c
  else totalBytes c.

(** The ['data'] handler.  On an overflow the handler asks for the file
    to be closed, with a callback that deletes it, and rejects the promise
    through [abortWithError]: the promise is settled while the file is still
    there, and the file is deleted once it is closed, before the next
    event. *)
Definition onData (c : Session) (t : Transfer) (len : Z) : Transfer :=
  let received := bytesWrittenThisSession t + len in
  let overflow :=
    match totalBytes c, expectedBytesThisSession c with
    | Some total, Some expected =>
        (0 <? total) && exceeds received (overflowThreshold expected)
    | _, _ => false
    end in
  if overflow then
    let rejected :=
      abortWithError
        (overflow_error received (default 0 (expectedBytesThisSession c)))
        t in
    (* the callback of file.close *)
    close_file (set_disk (fst (safeDeleteFile (disk rejected))) rejected)
  else
    {| disk := if closed t then disk t else (λ size, size + len) <$> disk t;
       closed := closed t; ended := ended t; aborted := aborted t;
       settled := settled t; settled_on := settled_on t;
       bytesWrittenThisSession := bytesWrittenThisSession t + len;
       bytesDownloaded := bytesDownloaded t + len |}.

(** The ['end'] handler: the file stream is ended; its callback is the
    [Flushed] event. *)
Definition onEnd (t : Transfer) : Transfer :=
  {| disk := disk t; closed := true; ended := true; aborted := aborted t;
     settled := settled t; settled_on := settled_on t;
     bytesWrittenThisSession := bytesWrittenThisSession t;
     bytesDownloaded := bytesDownloaded t |}.

(** The callback of [file.end]: the size check at the end of the stream. *)
Definition onFlushed (c : Session) (t : Transfer) : Transfer :=
  if ended t then
    match totalBytes c with
    | Some total =>
        if 0 <? total then
          let finalSize := getExistingFileSize (disk t) in
          if negb (finalSize =? total) then
            settle (Reject (size_mismatch_error total finalSize))
                   (set_disk (fst (safeDeleteFile (disk t))) t)
          else settle Resolve t
        else settle Resolve t
    | None => settle Resolve t
    end
  else t.

(** The ['close'] handler. *)
Definition onClose (c : Session) (t : Transfer) : Transfer :=
  match totalBytes c with
  | Some total =>
      if negb (aborted t) && (bytesDownloaded t <? total) && (0 <? total) then
        abortWithError (premature_close_error (bytesDownloaded t) total) t
      else t
  | None => t
  end.

Definition onSocketTimeout (c : Session) (t : Transfer) : Transfer :=
  abortWithError
    {| code := Some "SOCKET_TIMEOUT";
       message := "Socket timeout: no data received for "
                  ++ Js.show (sessionSocketTimeout c) ++ "ms";
       requiresRestart := false |} t.

Definition handle (c : Session) (t : Transfer) (e : BodyEvent) : Transfer :=
  match e with
  | Data len => onData c t len
  | EndOfStream => onEnd t
  | Flushed => onFlushed c t
  | ResponseError code message => abortWithError (node_error code message) t
  | Close => onClose c t
  | SocketTimeout => onSocketTimeout c t
  end.

(** The handlers run on the events in the order in which they occur. *)
Definition receive (c : Session) (t : Transfer) (events : list BodyEvent)
    : Transfer :=
  fold_left (handle c) events t.

(** What one call of [attemptDownload] leaves behind: the settlement of its
    promise ([None] while it is pending), the destination file at the moment
    of the settlement, the destination file once the callbacks of the attempt
    have run, and the requests made, redirects and the restart without resume
    included. *)
Record Attempt := {
  settlement : option Settlement;
  disk_at_settlement : Disk;
  disk_after : Disk;
  issued : list Issued;
}.

Definition with_issued (i : Issued) (a : Attempt) : Attempt :=
  {| settlement := settlement a; disk_at_settlement := disk_at_settlement a;
     disk_after := disk_after a; issued := i :: issued a |}.

Definition http_error (statusCode : Z) (statusMessage : string) : JsError :=
  {| code := Some ("HTTP_" ++ Js.show statusCode);
     message := "HTTP " ++ Js.show statusCode ++ ": " ++ statusMessage;
     requiresRestart := false |}.

Definition restart_error : JsError :=
  {| code := Some "HTTP_416_RESTART";
     message := "HTTP 416: Range Not Satisfiable - partial file was corrupt, deleted and will restart";
     requiresRestart := true |}.

(** The error [get] of [node:https] throws for an address with another
    protocol: [Protocol "http:" not supported. Expected "https:"]. *)
Definition quoted (text : string) : string :=
  String (ascii_of_nat 34) text ++ String (ascii_of_nat 34) "".

Definition invalid_protocol_error (protocol : string) : JsError :=
  {| code := Some "ERR_INVALID_PROTOCOL";
     message := "Protocol " ++ quoted protocol ++ " not supported. Expected "
                ++ quoted "https:";
     requiresRestart := false |}.

Definition truthy (s : option string) : bool :=
  match s with Some s => negb (String.eqb s "") | None => false end.

Definition with_url (opts : StreamDownOptions) (u : string) : StreamDownOptions :=
  {| url := u; expectedSize := expectedSize opts;
     enableResume := enableResume opts; retry := retry opts;
     timeout := timeout opts |}.

Definition without_resume (opts : StreamDownOptions) : StreamDownOptions :=
  {| url := url opts; expectedSize := expectedSize opts;
     enableResume := Some false; retry := retry opts;
     timeout := timeout opts |}.

(** [attemptDownload], run against what happens to its requests: one
    exchange for the request itself and one more for each redirect followed
    and for the restart after a 200 answer to a range request.  The [url] of
    the options is an address that [new URL] and [get] accept ([streamDown]
    parses it before the loop); the address of a redirect is one only when
    the [Location] header is an absolute [https:] address.  For any other
    text the call that follows the redirect throws: inside the response
    callback when [new URL] rejects the text, so that the promise is never
    settled, and inside the executor of its own promise, after the file has
    been opened, when [get] rejects the protocol, so that the promise is
    rejected with that error. *)
Fixpoint attemptDownload (opts : StreamDownOptions) (existingSize : Z)
    (retryAttempt : Z) (disk : Disk) (script : list Exchange) : Attempt :=
  let socketTimeout := default 300000 (timeout opts ≫= socketTimeout) in
  let connectTimeout := default 300000 (timeout opts ≫= connectTimeout) in
  let isResuming := 0 <? existingSize in
  (* fs.createWriteStream(resolvedDestination, { flags }) *)
  let disk : Disk :=
    if isResuming then Some (getExistingFileSize disk) else Some 0 in
  let request :=
    {| file_flags := if isResuming then "a" else "w";
       req_url := url opts;
       req_Range :=
         if isResuming then Some ("bytes=" ++ Js.show existingSize ++ "-")
         else None |} in
  let rejected (error : JsError) (disk : Disk) :=
    {| settlement := Some (Reject error); disk_at_settlement := disk;
       disk_after := disk; issued := [request] |} in
  let pending (disk : Disk) :=
    {| settlement := None; disk_at_settlement := disk; disk_after := disk;
       issued := [request] |} in
  match script with
  | [] => pending disk
  | RequestError code message :: _ => rejected (node_error code message) disk
  | ConnectTimeout :: _ =>
      rejected {| code := Some "CONNECT_TIMEOUT";
                  message := "Connection timeout after "
                             ++ Js.show connectTimeout ++ "ms";
                  requiresRestart := false |} disk
  | RequestTimeout :: _ =>
      rejected {| code := Some "ETIMEDOUT";
                  message := "Request timeout after "
                             ++ Js.show connectTimeout ++ "ms";
                  requiresRestart := false |} disk
  | Respond statusCode statusMessage location contentLength events :: script =>
      if negb (statusCode =? 0) && (300 <=? statusCode) && (statusCode <? 400)
         && truthy (header_text <$> location)
      then
        (* file.close(), and unlinkSync unless resuming *)
        let disk : Disk := if isResuming then disk else None in
        match location with
        | Some (Https href) =>
            with_issued request
              (attemptDownload (with_url opts href) existingSize retryAttempt
                               disk script)
        | Some (OtherProtocol protocol _) =>
            rejected (invalid_protocol_error protocol)
                     (if isResuming then Some (getExistingFileSize disk)
                      else Some 0)
        | Some (NotAbsolute _) | None => pending disk
        end
      else if (statusCode =? 416)
              && bool_decide (statusCode ∈ CORRUPT_FILE_HTTP_STATUS_CODES)
      then rejected restart_error (fst (safeDeleteFile disk))
      else if negb (statusCode =? 0)
              && bool_decide (statusCode ∈ RETRYABLE_HTTP_STATUS_CODES)
      then rejected (http_error statusCode statusMessage) disk
      else if negb (statusCode =? 0) && (400 <=? statusCode)
      then rejected (http_error statusCode statusMessage) disk
      else
        let serverSupportsResume := statusCode =? 206 in
        if isResuming && negb serverSupportsResume && (statusCode =? 200)
        then
          with_issued request
            (attemptDownload (without_resume opts) 0 retryAttempt None script)
        else
          let totalBytes : Js.num :=
            match contentLength with
            | Some header =>
                if serverSupportsResume
                then Js.num_add (Some existingSize) (Js.parseInt header)
                else Js.parseInt header
            | None => Some (default 0 (expectedSize opts))
            end in
          let session :=
            {| totalBytes := totalBytes;
               serverSupportsResume := serverSupportsResume;
               resumedFrom := existingSize;
               sessionSocketTimeout := socketTimeout |} in
          let start :=
            {| disk := disk; closed := false; ended := false;
               aborted := false; settled := None; settled_on := disk;
               bytesWrittenThisSession := 0;
               bytesDownloaded :=
                 if serverSupportsResume then existingSize else 0 |} in
          let finish := receive session start events in
          {| settlement := settled finish;
             disk_at_settlement := settled_on finish;
             disk_after := StreamDown.disk finish;
             issued := [request] |}
  end.

(** What a run of [streamDown] does, attempt by attempt. *)
Inductive LoopEvent :=
| CorruptFileDeleted (existingBytes expectedBytes : Z)
| Attempted (attempt : Z) (existingSize : Z) (requests : list Issued)
| Restarted (restartCount : Z)
| Slept (ms : Z).

Inductive Result :=
| Succeeded
| Failed (error : DownloadError).

(** The outcome of a run: [result] is [None] while the run is waiting for
    the network. *)
Record Run := {
  trace : list LoopEvent;
  result : option Result;
  final_disk : Disk;
}.

Definition with_events (events : list LoopEvent) (r : Run) : Run :=
  {| trace := (events ++ trace r)%list; result := result r;
     final_disk := final_disk r |}.

(** [const maxRestarts = 3]. *)
Definition maxRestarts : Z := 3.

Section Loop.
(** [calculateBackoff attempt initialBackoff maxBackoff multiplier]: the
    source adds a jitter drawn with [Math.random]; the delay it returns is
    taken as given. *)
Variable calculateBackoff : Z → Z → Z → Z → Z.

(** The retry loop of [streamDown], from the start of the iteration for
    [attempt]; [scripts] holds, for each call of [attemptDownload] in turn,
    what happens to its requests.  The catch block measures the file as it
    is when the promise of the attempt settles; the events that are left of
    the attempt at that moment (the callbacks of [file.close] and of
    [file.end]) take place during the pause that follows, so that the next
    iteration finds the file as the attempt leaves it. *)
Fixpoint streamDown_loop (opts : StreamDownOptions)
    (scripts : list (list Exchange)) (attempt restartCount : Z)
    (lastError : option JsError) (disk : Disk) : Run :=
  let maxRetries := default 5 (retry opts ≫= maxRetries) in
  let initialBackoff := default 5000 (retry opts ≫= initialBackoff) in
  let maxBackoff := default 60000 (retry opts ≫= maxBackoff) in
  let backoffMultiplier := default 2 (retry opts ≫= backoffMultiplier) in
  let enableResume := negb (bool_decide (enableResume opts = Some false)) in
  if attempt <=? maxRetries then
    match scripts with
    | [] => {| trace := []; result := None; final_disk := disk |}
    | script :: scripts =>
        let existingSizeBeforeValidation := getExistingFileSize disk in
        let '(validation, disk) :=
          if enableResume
          then validatePartialFile disk (default 0 (expectedSize opts))
          else ({| resumeFromBytes := 0; wasDeleted := false |}, disk) in
        let existingSize := resumeFromBytes validation in
        let notified :=
          if wasDeleted validation
          then [CorruptFileDeleted existingSizeBeforeValidation
                                   (default 0 (expectedSize opts))]
          else [] in
        let tried := attemptDownload opts existingSize attempt disk script in
        (* what getExistingFileSize finds in the catch block *)
        let downloadedBytes := getExistingFileSize (disk_at_settlement tried) in
        let disk := disk_after tried in
        let events :=
          (notified ++ [Attempted attempt existingSize (issued tried)])%list in
        match settlement tried with
        | None => {| trace := events; result := None; final_disk := disk |}
        | Some Resolve =>
            {| trace := events; result := Some Succeeded; final_disk := disk |}
        | Some (Reject error) =>
            if requiresRestart error then
              let restartCount := restartCount + 1 in
              if maxRestarts <? restartCount then
                {| trace := events;
                   result := Some (Failed
                     {| de_message := "Download failed: file corruption detected "
                                      ++ Js.show restartCount ++ " times";
                        de_code := Some "CORRUPT_FILE_LOOP";
                        de_attempts := attempt + 1;
                        de_isRetryable := false;
                        de_bytesDownloaded := 0 |});
                   final_disk := disk |}
              else
                (* attempt--; await sleep(1000); continue *)
                with_events (events ++ [Restarted restartCount; Slept 1000])%list
                  (streamDown_loop opts scripts (attempt - 1 + 1) restartCount
                                   (Some error) disk)
            else
              let retryable := isRetryableError error in
              if negb retryable || (maxRetries <=? attempt) then
                {| trace := events;
                   result := Some (Failed
                     {| de_message := "Download failed after "
                                      ++ Js.show (attempt + 1)
                                      ++ " attempt(s): " ++ message error;
                        de_code := code error;
                        de_attempts := attempt + 1;
                        de_isRetryable := retryable;
                        de_bytesDownloaded := downloadedBytes |});
                   final_disk := disk |}
              else
                let delayMs :=
                  calculateBackoff attempt initialBackoff maxBackoff
                                   backoffMultiplier in
                with_events (events ++ [Slept delayMs])%list
                  (streamDown_loop opts scripts (attempt + 1) restartCount
                                   (Some error) disk)
        end
    end
  else
    {| trace := [];
       result := Some (Failed
         {| de_message := "Download failed after " ++ Js.show (maxRetries + 1)
                          ++ " attempts";
            de_code := message <$> lastError;
            de_attempts := maxRetries + 1;
            de_isRetryable := false;
            de_bytesDownloaded := getExistingFileSize disk |});
       final_disk := disk |}.

(** [streamDown]. *)
Definition streamDown (opts : StreamDownOptions) (disk : Disk)
    (scripts : list (list Exchange)) : Run :=
  streamDown_loop opts scripts 0 0 None disk.

End Loop.

(** The number of restarts from scratch in a trace. *)
Definition is_restart (e : LoopEvent) : bool :=
  match e with Restarted _ => true | _ => false end.

Definition restarts (events : list LoopEvent) : nat :=
  length (List.filter is_restart events).

(** *** Notions and sample data used by the statements *)

(** The file a call of [attemptDownload] writes to: appended to when
    resuming, created or truncated otherwise. *)
Definition fresh_start (opts : StreamDownOptions) : Issued :=
  {| file_flags := "w"; req_url := url opts; req_Range := None |}.

Definition resume_from (opts : StreamDownOptions) (size : Z) : Issued :=
  {| file_flags := "a"; req_url := url opts;
     req_Range := Some ("bytes=" ++ Js.show size ++ "-") |}.

(** The validation at the start of an iteration. *)
Definition prepare (opts : StreamDownOptions) (disk : Disk)
    : Validation * Disk :=
  if negb (bool_decide (enableResume opts = Some false))
  then validatePartialFile disk (default 0 (expectedSize opts))
  else ({| resumeFromBytes := 0; wasDeleted := false |}, disk).

(** The attempt of an iteration. *)
Definition attempt_of (opts : StreamDownOptions) (attempt : Z) (disk : Disk)
    (script : list Exchange) : Attempt :=
  attemptDownload opts (resumeFromBytes (prepare opts disk).1) attempt
                  (prepare opts disk).2 script.

(** What an iteration reports before the attempt settles. *)
Definition reported (opts : StreamDownOptions) (attempt : Z) (disk : Disk)
    (script : list Exchange) : list LoopEvent :=
  ((if wasDeleted (prepare opts disk).1
    then [CorruptFileDeleted (getExistingFileSize disk)
                             (default 0 (expectedSize opts))]
    else [])
   ++ [Attempted attempt (resumeFromBytes (prepare opts disk).1)
                 (issued (attempt_of opts attempt disk script))])%list.

(** The handlers of a response body never reject with an error that asks for
    a restart. *)
Definition plain (t : Transfer) : Prop :=
  ∀ error, settled t = Some (Reject error) → requiresRestart error = false.

(** A file that is closed and deleted stays so. *)
Definition gone (t : Transfer) : Prop := disk t = None ∧ closed t = true.

(** The state in which [attemptDownload] starts to receive a body. *)
Definition started (d : Disk) (downloaded : Z) : Transfer :=
  {| disk := d; closed := false; ended := false; aborted := false;
     settled := None; settled_on := d; bytesWrittenThisSession := 0;
     bytesDownloaded := downloaded |}.

(** An aborted transfer has a settled promise. *)
Definition abort_settles (t : Transfer) : Prop :=
  aborted t = true → is_Some (settled t).

Definition steady_backoff (attempt initial cap multiplier : Z) : Z :=
  Z.min cap (initial * multiplier ^ attempt).

Definition sample_opts : StreamDownOptions :=
  {| url := "https://data.gov.au/g-naf.zip"; expectedSize := Some 1000;
     enableResume := None; retry := None; timeout := None |}.

Definition sample_opts_unknown_size : StreamDownOptions :=
  {| url := "https://data.gov.au/g-naf.zip"; expectedSize := None;
     enableResume := None; retry := None; timeout := None |}.

Definition answer_416 : list Exchange :=
  [Respond 416 "Range Not Satisfiable" None None []].

(** A fresh download of a file announced with 1000000 bytes. *)
Definition sample_session : Session :=
  {| totalBytes := Some 1000000; serverSupportsResume := false;
     resumedFrom := 0; sessionSocketTimeout := 300000 |}.

Definition sample_big : StreamDownOptions :=
  {| url := "https://data.gov.au/g-naf.zip"; expectedSize := Some 1000000;
     enableResume := None; retry := None; timeout := None |}.

(** The same download without retries. *)
Definition sample_big_once : StreamDownOptions :=
  {| url := "https://data.gov.au/g-naf.zip"; expectedSize := Some 1000000;
     enableResume := None;
     retry := Some {| maxRetries := Some 0; initialBackoff := None;
                      maxBackoff := None; backoffMultiplier := None |};
     timeout := None |}.

End StreamDown.

(** ** Authority-code lookups: [service/helpers/propertyCodeToName.ts] and
       the compiled [dist/service/helpers/propertyCodeToName.js] *)
Module PropertyCodeToName.

Record AuthorityCodeEntry := {
  CODE : string;
  NAME : string;
}.

Record PropertyCodeToNameContext := {
  Authority_Code_LEVEL_TYPE_AUT_psv : list AuthorityCodeEntry;
  Authority_Code_FLAT_TYPE_AUT_psv : list AuthorityCodeEntry;
  Authority_Code_STREET_TYPE_AUT_psv : list AuthorityCodeEntry;
  Authority_Code_STREET_CLASS_AUT_psv : list AuthorityCodeEntry;
  Authority_Code_LOCALITY_CLASS_AUT_psv : list AuthorityCodeEntry;
  Authority_Code_STREET_SUFFIX_AUT_psv : list AuthorityCodeEntry;
  Authority_Code_GEOCODE_RELIABILITY_AUT_psv : list AuthorityCodeEntry;
  Authority_Code_GEOCODE_TYPE_AUT_psv : list AuthorityCodeEntry;
  Authority_Code_GEOCODED_LEVEL_TYPE_AUT_psv : list AuthorityCodeEntry;
}.

(** What is handed to the [error] logger: a text, the address being mapped,
    or a text followed by the pretty-printed table. *)
Inductive Logged (A : Type) :=
| LogText (text : string)
| LogAddress (address : A)
| LogTextAndTable (text : string) (table : list AuthorityCodeEntry).
Arguments LogText {A} text.
Arguments LogAddress {A} address.
Arguments LogTextAndTable {A} text table.

Definition unknown (what code : string) : string :=
  "Unknown " ++ what ++ " Code: '" ++ code ++ "'".

(** *** The TypeScript source: a scan of the table with [Array.find] *)
Module Ts.
Section Helpers.
Context {A : Type}.

(** The shape shared by the nine helpers: find the first entry with the
    code and return its name, or log and return [undefined]. *)
Definition byFind (table : list AuthorityCodeEntry) (code : string)
    (diagnostic : list (Logged A)) : option string * list (Logged A) :=
  match Js.find (λ entry, String.eqb (CODE entry) code) table with
  | Some found => (Some (NAME found), [])
  | None => (None, diagnostic)
  end.

Definition levelTypeCodeToName (code : string)
    (context : PropertyCodeToNameContext) (address : A) :=
  byFind (Authority_Code_LEVEL_TYPE_AUT_psv context) code
    [LogText (unknown "Level Type" code); LogAddress address].

Definition flatTypeCodeToName (code : string)
    (context : PropertyCodeToNameContext) (address : A) :=
  byFind (Authority_Code_FLAT_TYPE_AUT_psv context) code
    [LogText (unknown "Flat Type" code); LogAddress address].

Definition streetTypeCodeToName (code : string)
    (context : PropertyCodeToNameContext) (address : A) :=
  byFind (Authority_Code_STREET_TYPE_AUT_psv context) code
    [LogText (unknown "Street Type" code)].

Definition streetClassCodeToName (code : string)
    (context : PropertyCodeToNameContext) (address : A) :=
  byFind (Authority_Code_STREET_CLASS_AUT_psv context) code
    [LogText (unknown "Street Class" code)].

Definition localityClassCodeToName (code : string)
    (context : PropertyCodeToNameContext) :=
  byFind (Authority_Code_LOCALITY_CLASS_AUT_psv context) code
    [LogText (unknown "Locality Class" code)].

Definition streetSuffixCodeToName (code : string)
    (context : PropertyCodeToNameContext) :=
  byFind (Authority_Code_STREET_SUFFIX_AUT_psv context) code
    [LogText (unknown "Street Suffix" code)].

Definition geocodeReliabilityCodeToName (code : string)
    (context : PropertyCodeToNameContext) :=
  byFind (Authority_Code_GEOCODE_RELIABILITY_AUT_psv context) code
    [LogText (unknown "Geocode Reliability" code)].

Definition geocodeTypeCodeToName (code : string)
    (context : PropertyCodeToNameContext) :=
  byFind (Authority_Code_GEOCODE_TYPE_AUT_psv context) code
    [LogText (unknown "Geocode Type" code)].

Definition levelGeocodedCodeToName (code : string)
    (context : PropertyCodeToNameContext) :=
  byFind (Authority_Code_GEOCODED_LEVEL_TYPE_AUT_psv context) code
    [LogTextAndTable (unknown "Geocoded Level Type" code ++ " in:")
       (Authority_Code_GEOCODED_LEVEL_TYPE_AUT_psv context)].

End Helpers.
End Ts.

(** *** The compiled module: lazily built, module-scoped [Map]s *)
Module Dist.

Abbreviation CodeMap := (gmap string string).

(** The nine module-scoped variables; [None] is [undefined]. *)
Record Maps := {
  levelTypeMap : option CodeMap;
  flatTypeMap : option CodeMap;
  streetTypeMap : option CodeMap;
  streetClassMap : option CodeMap;
  localityClassMap : option CodeMap;
  streetSuffixMap : option CodeMap;
  geocodeReliabilityMap : option CodeMap;
  geocodeTypeMap : option CodeMap;
  geocodedLevelTypeMap : option CodeMap;
}.

(** [buildCodeMap]: [map.set] for each entry in turn, so that a later entry
    with the same code replaces an earlier one. *)
Definition buildCodeMap (entries : list AuthorityCodeEntry) : CodeMap :=
  fold_left (λ map entry, <[CODE entry := NAME entry]> map) entries ∅.

(** [clearAuthorityCodeMaps]. *)
Definition clearAuthorityCodeMaps (_ : Maps) : Maps :=
  {| levelTypeMap := None; flatTypeMap := None; streetTypeMap := None;
     streetClassMap := None; localityClassMap := None;
     streetSuffixMap := None; geocodeReliabilityMap := None;
     geocodeTypeMap := None; geocodedLevelTypeMap := None |}.

(** The state in which the module is loaded. *)
Definition cleared : Maps :=
  {| levelTypeMap := None; flatTypeMap := None; streetTypeMap := None;
     streetClassMap := None; localityClassMap := None;
     streetSuffixMap := None; geocodeReliabilityMap := None;
     geocodeTypeMap := None; geocodedLevelTypeMap := None |}.

(** The shape shared by the nine getters: build on first access. *)
Definition lazily (current : option CodeMap)
    (table : list AuthorityCodeEntry) (store : CodeMap → Maps) (st : Maps)
    : CodeMap * Maps :=
  match current with
  | None => let built := buildCodeMap table in (built, store built)
  | Some map => (map, st)
  end.

Definition getLevelTypeMap (context : PropertyCodeToNameContext) (st : Maps) :=
  lazily (levelTypeMap st) (Authority_Code_LEVEL_TYPE_AUT_psv context)
    (λ m, {| levelTypeMap := Some m; flatTypeMap := flatTypeMap st;
             streetTypeMap := streetTypeMap st;
             streetClassMap := streetClassMap st;
             localityClassMap := localityClassMap st;
             streetSuffixMap := streetSuffixMap st;
             geocodeReliabilityMap := geocodeReliabilityMap st;
             geocodeTypeMap := geocodeTypeMap st;
             geocodedLevelTypeMap := geocodedLevelTypeMap st |}) st.

Definition getFlatTypeMap (context : PropertyCodeToNameContext) (st : Maps) :=
  lazily (flatTypeMap st) (Authority_Code_FLAT_TYPE_AUT_psv context)
    (λ m, {| levelTypeMap := levelTypeMap st; flatTypeMap := Some m;
             streetTypeMap := streetTypeMap st;
             streetClassMap := streetClassMap st;
             localityClassMap := localityClassMap st;
             streetSuffixMap := streetSuffixMap st;
             geocodeReliabilityMap := geocodeReliabilityMap st;
             geocodeTypeMap := geocodeTypeMap st;
             geocodedLevelTypeMap := geocodedLevelTypeMap st |}) st.

Definition getStreetTypeMap (context : PropertyCodeToNameContext) (st : Maps) :=
  lazily (streetTypeMap st) (Authority_Code_STREET_TYPE_AUT_psv context)
    (λ m, {| levelTypeMap := levelTypeMap st; flatTypeMap := flatTypeMap st;
             streetTypeMap := Some m;
             streetClassMap := streetClassMap st;
             localityClassMap := localityClassMap st;
             streetSuffixMap := streetSuffixMap st;
             geocodeReliabilityMap := geocodeReliabilityMap st;
             geocodeTypeMap := geocodeTypeMap st;
             geocodedLevelTypeMap := geocodedLevelTypeMap st |}) st.

Definition getStreetClassMap (context : PropertyCodeToNameContext) (st : Maps) :=
  lazily (streetClassMap st) (Authority_Code_STREET_CLASS_AUT_psv context)
    (λ m, {| levelTypeMap := levelTypeMap st; flatTypeMap := flatTypeMap st;
             streetTypeMap := streetTypeMap st;
             streetClassMap := Some m;
             localityClassMap := localityClassMap st;
             streetSuffixMap := streetSuffixMap st;
             geocodeReliabilityMap := geocodeReliabilityMap st;
             geocodeTypeMap := geocodeTypeMap st;
             geocodedLevelTypeMap := geocodedLevelTypeMap st |}) st.

Definition getLocalityClassMap (context : PropertyCodeToNameContext) (st : Maps) :=
  lazily (localityClassMap st) (Authority_Code_LOCALITY_CLASS_AUT_psv context)
    (λ m, {| levelTypeMap := levelTypeMap st; flatTypeMap := flatTypeMap st;
             streetTypeMap := streetTypeMap st;
             streetClassMap := streetClassMap st;
             localityClassMap := Some m;
             streetSuffixMap := streetSuffixMap st;
             geocodeReliabilityMap := geocodeReliabilityMap st;
             geocodeTypeMap := geocodeTypeMap st;
             geocodedLevelTypeMap := geocodedLevelTypeMap st |}) st.

Definition getStreetSuffixMap (context : PropertyCodeToNameContext) (st : Maps) :=
  lazily (streetSuffixMap st) (Authority_Code_STREET_SUFFIX_AUT_psv context)
    (λ m, {| levelTypeMap := levelTypeMap st; flatTypeMap := flatTypeMap st;
             streetTypeMap := streetTypeMap st;
             streetClassMap := streetClassMap st;
             localityClassMap := localityClassMap st;
             streetSuffixMap := Some m;
             geocodeReliabilityMap := geocodeReliabilityMap st;
             geocodeTypeMap := geocodeTypeMap st;
             geocodedLevelTypeMap := geocodedLevelTypeMap st |}) st.

Definition getGeocodeReliabilityMap (context : PropertyCodeToNameContext)
    (st : Maps) :=
  lazily (geocodeReliabilityMap st)
    (Authority_Code_GEOCODE_RELIABILITY_AUT_psv context)
    (λ m, {| levelTypeMap := levelTypeMap st; flatTypeMap := flatTypeMap st;
             streetTypeMap := streetTypeMap st;
             streetClassMap := streetClassMap st;
             localityClassMap := localityClassMap st;
             streetSuffixMap := streetSuffixMap st;
             geocodeReliabilityMap := Some m;
             geocodeTypeMap := geocodeTypeMap st;
             geocodedLevelTypeMap := geocodedLevelTypeMap st |}) st.

Definition getGeocodeTypeMap (context : PropertyCodeToNameContext) (st : Maps) :=
  lazily (geocodeTypeMap st) (Authority_Code_GEOCODE_TYPE_AUT_psv context)
    (λ m, {| levelTypeMap := levelTypeMap st; flatTypeMap := flatTypeMap st;
             streetTypeMap := streetTypeMap st;
             streetClassMap := streetClassMap st;
             localityClassMap := localityClassMap st;
             streetSuffixMap := streetSuffixMap st;
             geocodeReliabilityMap := geocodeReliabilityMap st;
             geocodeTypeMap := Some m;
             geocodedLevelTypeMap := geocodedLevelTypeMap st |}) st.

Definition getGeocodedLevelTypeMap (context : PropertyCodeToNameContext)
    (st : Maps) :=
  lazily (geocodedLevelTypeMap st)
    (Authority_Code_GEOCODED_LEVEL_TYPE_AUT_psv context)
    (λ m, {| levelTypeMap := levelTypeMap st; flatTypeMap := flatTypeMap st;
             streetTypeMap := streetTypeMap st;
             streetClassMap := streetClassMap st;
             localityClassMap := localityClassMap st;
             streetSuffixMap := streetSuffixMap st;
             geocodeReliabilityMap := geocodeReliabilityMap st;
             geocodeTypeMap := geocodeTypeMap st;
             geocodedLevelTypeMap := Some m |}) st.

Section Helpers.
Context {A : Type}.

(** The result of a lookup: the name, what was logged, and the
    module-scoped maps afterwards. *)
Definition Lookup : Type := option string * list (Logged A) * Maps.

(** The shape shared by the nine helpers: [get(code)] on the map, the name
    if it is defined, a diagnostic and [undefined] otherwise. *)
Definition byMap (got : CodeMap * Maps) (code : string)
    (diagnostic : list (Logged A)) : Lookup :=
  let '(map, st) := got in
  match map !! code with
  | Some name => (Some name, [], st)
  | None => (None, diagnostic, st)
  end.

Definition levelTypeCodeToName (code : string)
    (context : PropertyCodeToNameContext) (address : A) (st : Maps) : Lookup :=
  byMap (getLevelTypeMap context st) code
    [LogText (unknown "Level Type" code); LogAddress address].

Definition flatTypeCodeToName (code : string)
    (context : PropertyCodeToNameContext) (address : A) (st : Maps) : Lookup :=
  byMap (getFlatTypeMap context st) code
    [LogText (unknown "Flat Type" code); LogAddress address].

Definition streetTypeCodeToName (code : string)
    (context : PropertyCodeToNameContext) (address : A) (st : Maps) : Lookup :=
  byMap (getStreetTypeMap context st) code
    [LogText (unknown "Street Type" code)].

Definition streetClassCodeToName (code : string)
    (context : PropertyCodeToNameContext) (address : A) (st : Maps) : Lookup :=
  byMap (getStreetClassMap context st) code
    [LogText (unknown "Street Class" code)].

Definition localityClassCodeToName (code : string)
    (context : PropertyCodeToNameContext) (st : Maps) : Lookup :=
  byMap (getLocalityClassMap context st) code
    [LogText (unknown "Locality Class" code)].

Definition streetSuffixCodeToName (code : string)
    (context : PropertyCodeToNameContext) (st : Maps) : Lookup :=
  byMap (getStreetSuffixMap context st) code
    [LogText (unknown "Street Suffix" code)].

Definition geocodeReliabilityCodeToName (code : string)
    (context : PropertyCodeToNameContext) (st : Maps) : Lookup :=
  byMap (getGeocodeReliabilityMap context st) code
    [LogText (unknown "Geocode Reliability" code)].

Definition geocodeTypeCodeToName (code : string)
    (context : PropertyCodeToNameContext) (st : Maps) : Lookup :=
  byMap (getGeocodeTypeMap context st) code
    [LogText (unknown "Geocode Type" code)].

Definition levelGeocodedCodeToName (code : string)
    (context : PropertyCodeToNameContext) (st : Maps) : Lookup :=
  byMap (getGeocodedLevelTypeMap context st) code
    [LogTextAndTable (unknown "Geocoded Level Type" code ++ " in:")
       (Authority_Code_GEOCODED_LEVEL_TYPE_AUT_psv context)].

End Helpers.
End Dist.

(** *** The nine helpers, side by side *)

(** A helper in its two versions, with the table it reads.  The helpers
    that take no [address] ignore the one given here. *)
Record Helper (A : Type) := {
  table : PropertyCodeToNameContext → list AuthorityCodeEntry;
  current : Dist.Maps → option (gmap string string);
  ts : string → PropertyCodeToNameContext → A → option string * list (Logged A);
  dist : string → PropertyCodeToNameContext → A → Dist.Maps
         → option string * list (Logged A) * Dist.Maps;
}.
Arguments table {A} h context.
Arguments current {A} h st.
Arguments ts {A} h code context address.
Arguments dist {A} h code context address st.

Definition helpers {A : Type} : list (Helper A) :=
  [ {| table := Authority_Code_LEVEL_TYPE_AUT_psv;
       current := Dist.levelTypeMap;
       ts := Ts.levelTypeCodeToName;
       dist := Dist.levelTypeCodeToName |};
    {| table := Authority_Code_FLAT_TYPE_AUT_psv;
       current := Dist.flatTypeMap;
       ts := Ts.flatTypeCodeToName;
       dist := Dist.flatTypeCodeToName |};
    {| table := Authority_Code_STREET_TYPE_AUT_psv;
       current := Dist.streetTypeMap;
       ts := Ts.streetTypeCodeToName;
       dist := Dist.streetTypeCodeToName |};
    {| table := Authority_Code_STREET_CLASS_AUT_psv;
       current := Dist.streetClassMap;
       ts := Ts.streetClassCodeToName;
       dist := Dist.streetClassCodeToName |};
    {| table := Authority_Code_LOCALITY_CLASS_AUT_psv;
       current := Dist.localityClassMap;
       ts := λ code context _, Ts.localityClassCodeToName code context;
       dist := λ code context _, Dist.localityClassCodeToName code context |};
    {| table := Authority_Code_STREET_SUFFIX_AUT_psv;
       current := Dist.streetSuffixMap;
       ts := λ code context _, Ts.streetSuffixCodeToName code context;
       dist := λ code context _, Dist.streetSuffixCodeToName code context |};
    {| table := Authority_Code_GEOCODE_RELIABILITY_AUT_psv;
       current := Dist.geocodeReliabilityMap;
       ts := λ code context _, Ts.geocodeReliabilityCodeToName code context;
       dist := λ code context _, Dist.geocodeReliabilityCodeToName code context |};
    {| table := Authority_Code_GEOCODE_TYPE_AUT_psv;
       current := Dist.geocodeTypeMap;
       ts := λ code context _, Ts.geocodeTypeCodeToName code context;
       dist := λ code context _, Dist.geocodeTypeCodeToName code context |};
    {| table := Authority_Code_GEOCODED_LEVEL_TYPE_AUT_psv;
       current := Dist.geocodedLevelTypeMap;
       ts := λ code context _, Ts.levelGeocodedCodeToName code context;
       dist := λ code context _, Dist.levelGeocodedCodeToName code context |} ].

(** The entries of a table that carry a code. *)
Definition defines (table : list AuthorityCodeEntry) (code : string)
    (entry : AuthorityCodeEntry) : Prop :=
  In entry table ∧ CODE entry = code.

(** Entries of a table that share a code share their name; in particular a
    table in which no code occurs twice. *)
Definition coherent (table : list AuthorityCodeEntry) : Prop :=
  ∀ e1 e2, In e1 table → In e2 table → CODE e1 = CODE e2 → NAME e1 = NAME e2.

(** The memoised map of a helper, if built, was built from the table of the
    context at hand. *)
Definition in_step {A} (h : Helper A) (context : PropertyCodeToNameContext)
    (st : Dist.Maps) : Prop :=
  current h st = None ∨ current h st = Some (Dist.buildCodeMap (table h context)).

(** *** Notions and sample data used by the statements *)

(** The first and the last entry of a table that carry a code. *)
Definition first_with (table : list AuthorityCodeEntry) (code : string) :=
  Js.find (λ entry, String.eqb (CODE entry) code) table.
Definition last_with (table : list AuthorityCodeEntry) (code : string) :=
  Js.find (λ entry, String.eqb (CODE entry) code) (rev table).

(** What the two versions of a helper compute, in terms of the table. *)
Definition shaped {A : Type} (h : Helper A) : Prop :=
  current h Dist.cleared = None
  ∧ ∀ code context address, ∃ diagnostic : list (Logged A),
      diagnostic ≠ []
      ∧ ts h code context address
        = Ts.byFind (table h context) code diagnostic
      ∧ ∀ st, ∃ store,
          (∀ m, current h (store m) = Some m)
          ∧ dist h code context address st
            = Dist.byMap
                (Dist.lazily (current h st) (table h context) store st)
                code diagnostic.

(** The level types of G-NAF, and a context in which every table is that
    one. *)
Definition level_types : list AuthorityCodeEntry :=
  [ {| CODE := "B"; NAME := "BASEMENT" |};
    {| CODE := "G"; NAME := "GROUND" |};
    {| CODE := "L"; NAME := "LEVEL" |} ].

Definition uniform (table : list AuthorityCodeEntry) : PropertyCodeToNameContext :=
  {| Authority_Code_LEVEL_TYPE_AUT_psv := table;
     Authority_Code_FLAT_TYPE_AUT_psv := table;
     Authority_Code_STREET_TYPE_AUT_psv := table;
     Authority_Code_STREET_CLASS_AUT_psv := table;
     Authority_Code_LOCALITY_CLASS_AUT_psv := table;
     Authority_Code_STREET_SUFFIX_AUT_psv := table;
     Authority_Code_GEOCODE_RELIABILITY_AUT_psv := table;
     Authority_Code_GEOCODE_TYPE_AUT_psv := table;
     Authority_Code_GEOCODED_LEVEL_TYPE_AUT_psv := table |}.

(** A table in which the code [L] occurs twice, with two names. *)
Definition duplicated : list AuthorityCodeEntry :=
  [ {| CODE := "L"; NAME := "LEVEL" |};
    {| CODE := "G"; NAME := "GROUND" |};
    {| CODE := "L"; NAME := "LOWER" |} ].

(** The level types of a later release, with one more entry. *)
Definition later_level_types : list AuthorityCodeEntry :=
  (level_types ++ [ {| CODE := "M"; NAME := "MEZZANINE" |} ])%list.

(** What the diagnostics call the nine tables, in the order of
    [helpers]. *)
Definition labels : list string :=
  [ "Level Type"; "Flat Type"; "Street Type"; "Street Class"; "Locality Class";
    "Street Suffix"; "Geocode Reliability"; "Geocode Type";
    "Geocoded Level Type" ].

(** A log that opens with the diagnostic for an unknown code of the table
    called [what]: the text alone, or the text followed by the table. *)
Definition reports_unknown {A : Type} (what code : string)
    (log : list (Logged A)) : Prop :=
  match log with
  | LogText text :: _ => text = "Unknown " ++ what ++ " Code: '" ++ code ++ "'"
  | LogTextAndTable text _ :: _ =>
      text = "Unknown " ++ what ++ " Code: '" ++ code ++ "' in:"
  | _ => False
  end.

(** What the two versions of a helper compute and log, in terms of the
    table and of the name the diagnostics give it. *)
Definition labelled {A : Type} (what : string) (h : Helper A) : Prop :=
  ∀ code context address, ∃ diagnostic : list (Logged A),
    reports_unknown what code diagnostic
    ∧ ts h code context address
      = Ts.byFind (table h context) code diagnostic
    ∧ ∀ st, ∃ store,
        (∀ m, current h (store m) = Some m)
        ∧ dist h code context address st
          = Dist.byMap
              (Dist.lazily (current h st) (table h context) store st)
              code diagnostic.

End PropertyCodeToName.

(** ** The multi-line rendering of the row mapper *)
Module Mla.

(** Modelled from the spec: the nine regions of the closed region set
    (section 4.8); the type of the structured address is not among the
    sources. *)
Inductive Region := ACT | NSW | NT | OT | QLD | SA | TAS | VIC | WA.

Definition region_code (r : Region) : string :=
  match r with
  | ACT => "ACT" | NSW => "NSW" | NT => "NT" | OT => "OT" | QLD => "QLD"
  | SA => "SA" | TAS => "TAS" | VIC => "VIC" | WA => "WA"
  end.

(** Modelled from the spec: the structured address of section 3.1 (flat
    and level share one shape). *)
Record Unit_ := {
  type_code : option string;
  type_name : option string;
  prefix : option string;
  number : option string;
  suffix : option string;
}.

Record NumberRange := {
  first : option Unit_;
  last : option Unit_;
}.

Record Street := {
  street_name : string;
  street_type_code : option string;
  street_type_name : option string;
  street_suffix_code : option string;
  street_suffix_name : option string;
}.

Record StructuredAddress := {
  buildingName : option string;
  flat : option Unit_;
  level : option Unit_;
  number_range : NumberRange;
  lot : option string;
  street : Street;
  locality : string;
  state : Region;
  postcode : option string;
}.

Definition nonempty (line : string) : bool := negb (String.eqb line "").

(** The fatal mapping error of section 3.2. *)
Inductive MappingError := TooManyLines (count : nat).

(** Modelled from the spec: components joined by single spaces, empty
    components omitted along with their separator (section 4.4). *)
Definition join_words (words : list string) : string :=
  String.concat " " (List.filter nonempty words).

Section Mapper.
(** The lines of the level-and-flat grouping and of the number-and-street
    grouping, in the long and in the short form: the specification names the
    groupings without fixing their text, nor the number of lines that the
    grouping of a malformed row takes. *)
Variable level_and_flat : option Unit_ → option Unit_ → list string.
Variable number_and_street : NumberRange → option string → Street → list string.
Variable short_level_and_flat : option Unit_ → option Unit_ → list string.
Variable short_number_and_street :
  NumberRange → option string → Street → list string.

(** Modelled from the spec: the grouping of locality, state and postcode,
    as in "BARANGAROO NSW 2000" (section 8, scenario 1). *)
Definition locality_line (s : StructuredAddress) : string :=
  join_words [locality s; region_code (state s); default "" (postcode s)].

(** Modelled from the spec: the lines of the four logical groupings of
    section 4.4, in the order in which it lists them. *)
Definition groupings (s : StructuredAddress) : list string :=
  ([default "" (buildingName s)]
   ++ level_and_flat (level s) (flat s)
   ++ number_and_street (number_range s) (lot s) (street s)
   ++ [locality_line s])%list.

Definition short_groupings (s : StructuredAddress) : list string :=
  ([default "" (buildingName s)]
   ++ short_level_and_flat (level s) (flat s)
   ++ short_number_and_street (number_range s) (lot s) (street s)
   ++ [locality_line s])%list.

(** Modelled from the spec: the line budget of sections 3.2 and 4.4.  Empty
    lines are omitted, and a fifth line is an error raised in place of the
    result. *)
Definition within_budget (composed : list string)
    : MappingError + list string :=
  let lines := List.filter nonempty composed in
  if (4 <? length lines)%nat then inl (TooManyLines (length lines))
  else inr lines.

(** Modelled from the spec: the bodies of [mapToMla] and [mapToShortMla]
    ([service/helpers/mapProperty]) are not among the sources, which hold
    only their declarations ("throws when the formatted address exceeds four
    lines").  Following sections 3.2 and 4.4 of the specification: the lines
    of the logical groupings (building name, level and flat, number and
    street, locality with state and postcode), empty lines omitted, an error
    when a fifth line would be emitted. *)
Definition mapToMla (s : StructuredAddress) : MappingError + list string :=
  within_budget (groupings s).

(** Modelled from the spec: [mapToShortMla] is missing as [mapToMla] is;
    section 4.4 gives it the same budget over the shortened groupings. *)
Definition mapToShortMla (s : StructuredAddress)
    : MappingError + list string :=
  within_budget (short_groupings s).

End Mapper.

(** *** Notions and sample data used by the statements *)

(** The lines a mapper is about to emit: the lines of the groupings that
    are not empty. *)
Definition emitted (composed : list string) : list string :=
  List.filter nonempty composed.

(** The address of scenario 1: Tower 3, level 25, 300 Barangaroo Avenue. *)
Definition barangaroo : StructuredAddress :=
  {| buildingName := Some "TOWER 3";
     flat := None;
     level := Some {| type_code := Some "L"; type_name := Some "LEVEL";
                      prefix := None; number := Some "25"; suffix := None |};
     number_range :=
       {| first := Some {| type_code := None; type_name := None;
                           prefix := None; number := Some "300";
                           suffix := None |};
          last := None |};
     lot := None;
     street := {| street_name := "BARANGAROO"; street_type_code := Some "AV";
                  street_type_name := Some "AVENUE";
                  street_suffix_code := None; street_suffix_name := None |};
     locality := "BARANGAROO";
     state := NSW;
     postcode := Some "2000" |}.

(** The same address with a flat on the level. *)
Definition barangaroo_flat : StructuredAddress :=
  {| buildingName := buildingName barangaroo;
     flat := Some {| type_code := Some "SE"; type_name := Some "SUITE";
                     prefix := None; number := Some "4"; suffix := None |};
     level := level barangaroo;
     number_range := number_range barangaroo;
     lot := lot barangaroo;
     street := street barangaroo;
     locality := locality barangaroo;
     state := state barangaroo;
     postcode := postcode barangaroo |}.

(** One rendering of the two groupings the specification leaves open: level
    and flat on one line. *)
Definition sample_level_and_flat (level flat : option Unit_) : list string :=
  [ join_words [ default "" (level ≫= type_name); default "" (level ≫= number);
                 default "" (flat ≫= type_name); default "" (flat ≫= number) ] ].

(** Another one: the level on a line and the flat on the next. *)
Definition separate_level_and_flat (level flat : option Unit_) : list string :=
  [ join_words [ default "" (level ≫= type_name); default "" (level ≫= number) ];
    join_words [ default "" (flat ≫= type_name); default "" (flat ≫= number) ] ].

Definition sample_number_and_street (n : NumberRange) (lot : option string)
    (st : Street) : list string :=
  [ join_words [ default "" (first n ≫= number); street_name st;
                 default "" (street_type_code st) ] ].

End Mla.

(** ** The retry delay of the fetcher: [calculateBackoff] in
       [core/utils/stream-down.ts] *)
Module Backoff.

(** [Math.round]: the nearest integer, a tie going up. *)
Definition round (x : Q) : Z := Qfloor (x + 0.5)%Q.

(** [calculateBackoff].  [random] is the value [Math.random()] returns, a
    number in [[0, 1)].  The delays and the multiplier are numbers, which
    need not be integers; the source computes on IEEE doubles, and the exact
    rationals are used here, so that neither the rounding of doubles nor
    [Infinity] and [NaN] are covered.  [attempt] is the loop counter of
    [streamDown], an integer that is never negative. *)
Definition calculateBackoff (random : Q) (attempt : Z)
    (initialBackoff maxBackoff multiplier : Q) : Z :=
  let exponentialDelay := (initialBackoff * multiplier ^ attempt)%Q in
  let cappedDelay := Qmin exponentialDelay maxBackoff in
  let jitter := (cappedDelay * 0.25 * (random * 2 - 1))%Q in
  round (cappedDelay + jitter).

End Backoff.

(** ** Notions about the transfers of [core/utils/stream-down.ts] *)
Module Transfers.
Import StreamDown.

(** The calls of [attemptDownload] in a trace. *)
Definition is_attempt (e : LoopEvent) : bool :=
  match e with Attempted _ _ _ => true | _ => false end.

Definition attempts (events : list LoopEvent) : nat :=
  length (List.filter is_attempt events).

(** A run that waits for an attempt: the last thing it did was to make an
    attempt, on one of the scripts, whose promise has not settled. *)
Definition waits_for_attempt (opts : StreamDownOptions)
    (scripts : list (list Exchange)) (run : Run) : Prop :=
  ∃ attempt (d : Disk) script,
    In script scripts
    ∧ settlement (attempt_of opts attempt d script) = None
    ∧ last (trace run)
      = Some (Attempted attempt (resumeFromBytes (prepare opts d).1)
                        (issued (attempt_of opts attempt d script))).

(** The body of a response delivered in chunks of the given lengths. *)
Definition chunks (lengths : list Z) : list BodyEvent := map Data lengths.

Definition total (lengths : list Z) : Z := fold_right Z.add 0 lengths.

(** The request of an attempt that starts at [existingSize], sent to a given
    address. *)
Definition request_to (address : string) (existingSize : Z) : Issued :=
  {| file_flags := if 0 <? existingSize then "a" else "w";
     req_url := address;
     req_Range := if 0 <? existingSize
                  then Some ("bytes=" ++ Js.show existingSize ++ "-")
                  else None |}.

(** A response that sends the client to another address: a 3xx status
    with a [Location] header that holds an absolute [https:] address. *)
Definition redirects_to (exchange : Exchange) (address : string) : Prop :=
  ∃ statusCode statusMessage contentLength events,
    exchange = Respond statusCode statusMessage (Some (Https address))
                       contentLength events
    ∧ 300 ≤ statusCode < 400 ∧ address ≠ "".

(** The six substrings of a message for which [isRetryableError] answers
    yes. *)
Definition retryable_words : list string :=
  ["econnreset"; "socket hang up"; "connection reset"; "network"; "timeout";
   "aborted"].

Definition mentions_retryable_word (message : string) : bool :=
  existsb (Js.str_includes (Js.toLowerCase message)) retryable_words.

(** A server that refuses every request with the same status. *)
Definition refuse (statusCode : Z) (statusMessage : string) : list Exchange :=
  [Respond statusCode statusMessage None None []].

Definition sample_resumable : StreamDownOptions :=
  {| url := "https://data.gov.au/g-naf.zip"; expectedSize := Some 1000;
     enableResume := None;
     retry := Some {| maxRetries := Some 2; initialBackoff := None;
                      maxBackoff := None; backoffMultiplier := None |};
     timeout := None |}.

End Transfers.

(** ** JavaScript values as the service passes them around *)
Module Json.

(** A value: [undefined], [null], a number, a string, or an object with its
    own properties in insertion order.  (Arrays, and the properties of
    numbers and strings such as [length], are not modelled: the sources read
    none of them from these values.) *)
#[warnings="-register-all"]
Inductive value :=
| Undefined
| Null
| Num (n : Z)
| Str (s : string)
| Obj (props : list (string * value)).

Definition object : Type := list (string * value).

(** [o[k]] on an object: [undefined] when the property is missing. *)
Definition prop (k : string) (o : object) : value :=
  match Js.find (λ kv : string * value, String.eqb kv.1 k) o with
  | Some kv => kv.2
  | None => Undefined
  end.

(** [v.k]: a [TypeError] ([None]) when [v] is [undefined] or [null]. *)
Definition member (v : value) (k : string) : option value :=
  match v with
  | Undefined | Null => None
  | Obj o => Some (prop k o)
  | Num _ | Str _ => Some Undefined
  end.

(** [v?.k]. *)
Definition optional (v : value) (k : string) : value :=
  match v with
  | Obj o => prop k o
  | _ => Undefined
  end.

(** [a ?? b]. *)
Definition nullish (a b : value) : value :=
  match a with Undefined | Null => b | _ => a end.

(** [{ ...o, [k]: v }]: an existing property keeps its place. *)
Fixpoint set (k : string) (v : value) (o : object) : object :=
  match o with
  | [] => [(k, v)]
  | (k', v') :: o => if String.eqb k' k then (k, v) :: o
                     else (k', v') :: set k v o
  end.

(** [delete o[k]]. *)
Definition delete (k : string) (o : object) : object :=
  List.filter (λ kv : string * value, negb (String.eqb kv.1 k)) o.

(** [{ ...v }]: the own properties of an object; nothing for [undefined],
    [null] and numbers.  (The spread of a string, which yields its
    characters, is not modelled.) *)
Definition spread (v : value) : object :=
  match v with Obj o => o | _ => [] end.

(** [`${v}`]. *)
Definition template (v : value) : string :=
  match v with
  | Undefined => "undefined"
  | Null => "null"
  | Num n => Js.show n
  | Str s => s
  | Obj _ => "[object Object]"
  end.

End Json.

(** ** Building the bulk body: [setAddresses] in [dist/service/index.js] and
       in [service/DefaultService.ts], and the chunk handler of
       [loadGNAFAddress] *)
Module Indexing.
Import Json.

Section Index.
(** [ES_INDEX_NAME] of [service/conf], which is not among the sources. *)
Variable ES_INDEX_NAME : string.

(** [{ index: { _index: ES_INDEX_NAME, _id } }]. *)
Definition directive (id : value) : value :=
  Obj [("index", Obj [("_index", Str ES_INDEX_NAME); ("_id", id)])].

(** [const { sla, ssla, ...structured } = row]: the rest. *)
Definition rest_of (row : object) : object :=
  List.filter (λ kv : string * value,
                 negb (String.eqb kv.1 "sla") && negb (String.eqb kv.1 "ssla"))
              row.

(** [...(confidence !== undefined && { confidence })]. *)
Definition confidence_if_defined (confidence : value) : object :=
  match confidence with
  | Undefined => []
  | _ => [("confidence", confidence)]
  end.

(** The two entries that the compiled [setAddresses] pushes for a row;
    [None] when [row.links.self.href] throws. *)
Definition entries_of_address (row : object) : option (list value) :=
  self ← member (prop "links" row) "self";
  href ← member self "href";
  let structured := rest_of row in
  let confidence :=
    nullish (optional (prop "structured" structured) "confidence")
            (prop "confidence" structured) in
  Some [ directive href;
         Obj ([("sla", prop "sla" row); ("ssla", prop "ssla" row);
               ("structured", Obj structured)]
              ++ confidence_if_defined confidence) ].

(** The same in [service/DefaultService.ts], where the rest is bound to, and
    stored under, the name [structurted]. *)
Definition legacy_entries_of_address (row : object) : option (list value) :=
  self ← member (prop "links" row) "self";
  href ← member self "href";
  let structurted := rest_of row in
  let confidence :=
    nullish (optional (prop "structurted" structurted) "confidence")
            (prop "confidence" structurted) in
  Some [ directive href;
         Obj ([("sla", prop "sla" row); ("ssla", prop "ssla" row);
               ("structurted", Obj structurted)]
              ++ confidence_if_defined confidence) ].

(** The loop over the rows: the body so far is lost when a row throws. *)
Fixpoint body_of (entries : object → option (list value)) (rows : list object)
    : option (list value) :=
  match rows with
  | [] => Some []
  | row :: rows =>
      pushed ← entries row;
      later ← body_of entries rows;
      Some (pushed ++ later)%list
  end.

(** What [setAddresses] does to the index. *)
Inductive Effect :=
| ClearAddresses
| SendIndexRequest (indexingBody : list value).

(** [setAddresses]: the effects, and whether the call returns ([true]) or
    throws.  [clears] tells whether [clearAddresses] resolves. *)
Definition setAddresses_with (entries : object → option (list value))
    (clears : bool) (addr : list object) : list Effect * bool :=
  if clears then
    match body_of entries addr with
    | Some indexingBody =>
        if (0 <? Z.of_nat (length indexingBody))%Z
        then ([ClearAddresses; SendIndexRequest indexingBody], true)
        else ([ClearAddresses], true)
    | None => ([ClearAddresses], false)
    end
  else ([ClearAddresses], false).

Definition setAddresses := setAddresses_with entries_of_address.
Definition legacy_setAddresses := setAddresses_with legacy_entries_of_address.

Section Loader.
Context {Row Context_ : Type}.
(** [mapAddressDetails row context actualCount expectedCount], whose body is
    not among the sources. *)
Variable mapAddressDetails : Row → Context_ → Z → option Z → object.

(** The two entries that the chunk handler pushes for an item; [None] when
    [structured.structured.confidence] throws. *)
Definition entries_of_item (item : object) : option (list value) :=
  let id := Str ("/addresses/" ++ template (prop "pid" item)) in
  let structured := rest_of item in
  confidence ← member (prop "structured" structured) "confidence";
  Some [ directive id;
         Obj [("sla", prop "sla" item); ("ssla", prop "ssla" item);
              ("structured", Obj structured); ("confidence", confidence)] ].

(** The loop of the chunk handler over [chunk.data], from the count of rows
    reached so far: the body and the new count. *)
Fixpoint chunk_body (context : Context_) (expectedCount : option Z)
    (data : list Row) (actualCount : Z) : option (list value * Z) :=
  match data with
  | [] => Some ([], actualCount)
  | row :: data =>
      let item := mapAddressDetails row context actualCount expectedCount in
      pushed ← entries_of_item item;
      '(later, count) ← chunk_body context expectedCount data (actualCount + 1);
      Some ((pushed ++ later)%list, count)
  end.

(** What [loadGNAFAddress] does: bulk requests, and the line it logs at the
    end. *)
Inductive LoadEvent :=
| Indexed (indexingBody : list value) (refresh : bool)
| ErrorLogged (expectedCount actualCount : Z)
| Loaded (actualCount : Z).

(** The chunks of the file, one call of the handler each; a handler that
    throws ends the run ([None]). *)
Fixpoint chunks_loaded (context : Context_) (expectedCount : option Z)
    (refresh : bool) (chunks : list (list Row)) (actualCount : Z)
    : option (list LoadEvent * Z) :=
  match chunks with
  | [] => Some ([], actualCount)
  | data :: chunks =>
      '(indexingBody, count) ← chunk_body context expectedCount data actualCount;
      '(events, final) ← chunks_loaded context expectedCount refresh chunks count;
      Some (if (0 <? Z.of_nat (length indexingBody))%Z
            then Indexed indexingBody refresh :: events
            else events,
            final)
  end.

(** [loadGNAFAddress], on a file that parses into the given chunks. *)
Definition loadGNAFAddress (expectedCount : option Z) (context : Context_)
    (refresh : option bool) (chunks : list (list Row))
    : option (list LoadEvent) :=
  '(events, actualCount) ←
    chunks_loaded context expectedCount (default false refresh) chunks 0;
  Some (events ++
        [match expectedCount with
         | Some expected =>
             if negb (actualCount =? expected)
             then ErrorLogged expected actualCount
             else Loaded actualCount
         | None => Loaded actualCount
         end])%list.

End Loader.
End Index.

(** *** Notions and sample data used by the statements *)

(** The bodies of the bulk requests of a run, one after the other. *)
Definition indexed (events : list LoadEvent) : list value :=
  flat_map (λ e, match e with Indexed body _ => body | _ => [] end) events.

(** The rows of a file with their position. *)
Fixpoint numbered {Row} (rows : list Row) (start : Z) : list (Row * Z) :=
  match rows with
  | [] => []
  | row :: rows => (row, start) :: numbered rows (start + 1)
  end.

Definition sample_address : object :=
  [ ("sla", Str "LEVEL 25, 300 BARANGAROO AV, BARANGAROO NSW 2000");
    ("ssla", Str "25/300 BARANGAROO AV, BARANGAROO NSW 2000");
    ("links", Obj [("self", Obj [("href", Str "/addresses/GANSW716635811")])]);
    ("pid", Str "GANSW716635811");
    ("structured", Obj [("confidence", Num 2)]) ].

End Indexing.

(** ** The JSON writer: [core/utils/writer.ts] *)
Module Writer.

Section WriteJson.
(** The bodies that are neither numbers nor wrapped payloads. *)
Context {T : Type}.

(** What [writeJson] is given: a number, another value, or an instance of
    [ResponsePayload]. *)
Inductive Body :=
| Number (n : Z)
| Plain (body : T)
| ResponsePayload (code : Z) (payload : Body).

(** [respondWithCode]. *)
Definition respondWithCode (code : Z) (payload : Body) : Body :=
  ResponsePayload code payload.

(** The calls made on the response object. *)
Inductive Call :=
| status (code : Z)
| setHeader (name value : string)
| json (body : Body).

(** [writeJson]: the calls it makes on [response], in order. *)
Fixpoint writeJson (bodyOrPayload : Body) (statusOverride : option Z)
    : list Call :=
  match bodyOrPayload with
  | ResponsePayload code payload => writeJson payload (Some code)
  | _ =>
      let derivedStatus :=
        default
          (default 200
             (match bodyOrPayload with Number n => Some n | _ => None end))
          statusOverride in
      let payload := bodyOrPayload in
      [ status derivedStatus;
        setHeader "Content-Type" "application/json";
        json payload ]
  end.

(** *** Notions used by the statements *)

(** The body inside the wrappers, and the code of the innermost wrapper. *)
Fixpoint unwrapped (body : Body) : Body :=
  match body with
  | ResponsePayload _ payload => unwrapped payload
  | _ => body
  end.

Fixpoint innermost_code (body : Body) : option Z :=
  match body with
  | ResponsePayload code payload => Some (default code (innermost_code payload))
  | _ => None
  end.

Definition is_payload (body : Body) : bool :=
  match body with ResponsePayload _ _ => true | _ => false end.

End WriteJson.
Arguments Body : clear implicits.
Arguments Call : clear implicits.

End Writer.

(** ** Search synonyms: [service/helpers/buildSynonyms.ts] *)
Module Synonyms.
Import PropertyCodeToName.

(** [[...new Set(xs)]]: the elements in the order of their first
    occurrence; [seen] holds the elements already in the set. *)
Fixpoint spread_set (seen xs : list string) : list string :=
  match xs with
  | [] => []
  | x :: xs => if Js.includes seen x then spread_set seen xs
               else x :: spread_set (x :: seen) xs
  end.

Section Build.
(** [mapAuthCodeTableToSynonymList] of [helpers/mapProperty], whose body is
    not among the sources. *)
Variable mapAuthCodeTableToSynonymList : list AuthorityCodeEntry → list string.

(** [buildSynonyms]. *)
Definition buildSynonyms (context : PropertyCodeToNameContext) : list string :=
  let streetTypes :=
    mapAuthCodeTableToSynonymList (Authority_Code_STREET_TYPE_AUT_psv context) in
  let flatTypes :=
    mapAuthCodeTableToSynonymList (Authority_Code_FLAT_TYPE_AUT_psv context) in
  let levelTypes :=
    mapAuthCodeTableToSynonymList (Authority_Code_LEVEL_TYPE_AUT_psv context) in
  let streetSuffixTypes :=
    mapAuthCodeTableToSynonymList (Authority_Code_STREET_SUFFIX_AUT_psv context) in
  let synonyms :=
    (streetTypes ++ flatTypes ++ levelTypes ++ streetSuffixTypes)%list in
  let uniqueSynonyms := spread_set [] synonyms in
  uniqueSynonyms.

End Build.

(** *** Notions used by the statements *)

(** The four tables read, in the order in which they are read. *)
Definition synonym_tables (context : PropertyCodeToNameContext)
    : list (list AuthorityCodeEntry) :=
  [ Authority_Code_STREET_TYPE_AUT_psv context;
    Authority_Code_FLAT_TYPE_AUT_psv context;
    Authority_Code_LEVEL_TYPE_AUT_psv context;
    Authority_Code_STREET_SUFFIX_AUT_psv context ].

End Synonyms.

(** ** The read side of the service: [getAddress], [getAddresses] and
       [mapToSearchAddressResponse] in [dist/service/index.js];
       [getApiRoot] and [setLinkOptions] in [service/DefaultService.ts] *)
Module Api.
Import Json.

(** A reference of a [Link] header; [LinkHeader.set] appends one. *)
Record Ref := {
  rel : option string;
  uri : string;
  title : option string;
  type : option string;
  var_base : option string;
}.

(** What the handlers read of an error thrown by the backend client:
    [body?.found], [body?.error?.type] and [displayName]. *)
Record OsError := {
  found : option bool;
  error_type : option string;
  displayName : option string;
}.

(** An error that is not the backend's, such as a [TypeError]: it has none of
    these properties. *)
Definition other_error : OsError :=
  {| found := None; error_type := None; displayName := None |}.

(** A parameter (of any kind) and a GET operation of the Swagger document. *)
Record SwaggerParameter := {
  name : string;
  in_ : string;
  required : option bool;
}.

Record Operation := {
  x_swagger_router_controller : option string;
  operationId : option string;
  x_root_rel : option string;
  summary : option string;
  parameters : option (list SwaggerParameter);
}.

(** *** [getAddress] *)

Inductive Got :=
| GetRejects (osError : OsError)
| GetResolves (jsonX : value).

Inductive GetAddressResponse :=
| AddressFound (link : list Ref) (json : object) (hash : string)
| AddressError (statusCode : Z) (error : string).

Section GetAddress.
(** [ES_INDEX_NAME] of [service/conf]; [JSON.stringify] and the MD5 digest of
    [node:crypto]. *)
Variable ES_INDEX_NAME : string.
Variable stringify : object → string.
Variable md5 : string → string.

(** [getAddress], against the backend's answer to [get({ index, id })]. *)
Definition getAddress (get : string → string → Got) (addressId : string)
    : GetAddressResponse :=
  let caught (osError : OsError) :=
    if bool_decide (found osError = Some false)
    then AddressError 404 "not found"
    else if bool_decide (error_type osError = Some "index_not_found_exception")
    then AddressError 503 "service unavailable"
    else AddressError 500 "unexpected error" in
  match get ES_INDEX_NAME ("/addresses/" ++ addressId) with
  | GetRejects osError => caught osError
  | GetResolves jsonX =>
      match
        body ← member jsonX "body";
        source ← member body "_source";
        structured ← member source "structured";
        sla ← member source "sla";
        Some (structured, sla)
      with
      | Some (structured, sla) =>
          let json := delete "_id" (set "sla" sla (spread structured)) in
          let link :=
            [ {| rel := Some "self"; uri := "/addresses/" ++ addressId;
                 title := None; type := None; var_base := None |} ] in
          let hash := md5 (stringify json) in
          AddressFound link json hash
      | None => caught other_error
      end
  end.

End GetAddress.

(** *** [setLinkOptions] and [getApiRoot] *)

Section Templates.
(** [encodeUriFragmentIdentifier] of the package [json-ptr]. *)
Variable encodeUriFragmentIdentifier : list string → string.

(** [setLinkOptions]: the link template header afterwards. *)
Definition setLinkOptions (op : Operation) (url : string)
    (linkTemplate : list Ref) : list Ref :=
  match parameters op with
  | Some parameters =>
      let queryParameters :=
        List.filter (λ parameter, String.eqb (in_ parameter) "query") parameters in
      let linkOptions :=
        {| rel := x_root_rel op;
           uri := url ++ "{?" ++ String.concat "," (map name queryParameters)
                  ++ "}";
           title := summary op;
           type := Some "application/json";
           var_base :=
             Some ("/api-docs"
                   ++ encodeUriFragmentIdentifier
                        ["paths"; url; "get"; "parameters"]) |} in
      (linkTemplate ++ [linkOptions])%list
  | None => linkTemplate
  end.

(** Whether [op.parameters?.find((parameter) => parameter.required === true)]
    finds a parameter. *)
Definition has_required_parameter (op : Operation) : bool :=
  match parameters op with
  | Some parameters =>
      bool_decide (is_Some (Js.find (λ parameter,
                     bool_decide (required parameter = Some true)) parameters))
  | None => false
  end.

(** [getApiRoot], on the paths of the Swagger document in key order, each
    with its GET operation if it has one: the [Link] header and the link
    template header (the body is the empty object). *)
Definition getApiRoot (swaggerDoc_paths : list (string * option Operation))
    : list Ref * list Ref :=
  let paths :=
    omap (λ '(p, get),
            match get with
            | Some op => if bool_decide (is_Some (x_root_rel op))
                         then Some (p, op) else None
            | None => None
            end) swaggerDoc_paths in
  let link :=
    fold_left (λ link '(p, op),
                 if has_required_parameter op then link
                 else (link ++ [ {| rel := x_root_rel op; uri := p;
                                    title := summary op; type := None;
                                    var_base := None |} ])%list)
              paths [] in
  let link :=
    (link ++ [ {| rel := Some "describedby"; uri := "/docs/";
                  title := Some "API Docs"; type := Some "text/html";
                  var_base := None |};
               {| rel := Some "describedby"; uri := "/api-docs";
                  title := Some "API Docs"; type := Some "application/json";
                  var_base := None |} ])%list in
  let linkTemplate :=
    fold_left (λ linkTemplate '(url, op), setLinkOptions op url linkTemplate)
              paths [] in
  (link, linkTemplate).

(** *** [getAddresses] *)

Record Hit := {
  _id : string;
  _score : Q;
  _source_sla : string;
}.

Record AddressSearchResult := {
  sla : string;
  score : Q;
  links_self_href : string;
}.

(** [hits.total]: a number, or an object with a [value]. *)
Inductive Total :=
| TotalNumber (total : Z)
| TotalObject (value : Z).

Inductive Searched :=
| SearchRejects (osError : OsError)
| SearchResolves (hits : list Hit) (total : Total).

Inductive GetAddressesResponse :=
| AddressesFound (link : list Ref) (json : list AddressSearchResult)
                 (linkTemplate : list Ref)
| AddressesError (statusCode : Z) (error : string).

(** [mapToSearchAddressResponse]. *)
Definition mapToSearchAddressResponse (hits : list Hit)
    : list AddressSearchResult :=
  map (λ hit, {| sla := _source_sla hit; score := _score hit;
                 links_self_href := _id hit |}) hits.

Section Search.
Variable conf : Pagination.Conf.
(** The serialisation of a value by [URLSearchParams.toString] (the keys
    [q] and [p] are left as they are). *)
Variable encode : string → string.

Definition URLSearchParams_toString (params : list (string * string)) : string :=
  String.concat "&" (map (λ kv : string * string, kv.1 ++ "=" ++ encode kv.2)
                         params).

Definition plain_link (rel uri : string) : Ref :=
  {| rel := Some rel; uri := uri; title := None; type := None;
     var_base := None |}.

(** [getAddresses], against the backend's answer to the search request that
    [searchForAddress] sends. *)
Definition getAddresses (search : Pagination.SearchBody → Searched)
    (url : string) (swagger_path_get : Operation) (q : option string)
    (p : option Z) : GetAddressesResponse :=
  let p := default 1 p in
  let caught (osError : OsError) :=
    if bool_decide (error_type osError = Some "index_not_found_exception")
    then AddressesError 503 "service unavailable"
    else if bool_decide (displayName osError = Some "RequestTimeout")
    then AddressesError 504 "gateway timeout"
    else AddressesError 500 "unexpected error" in
  match search (Pagination.searchForAddress conf (default "" q) p None) with
  | SearchRejects osError => caught osError
  | SearchResolves hits rawTotal =>
      match x_swagger_router_controller swagger_path_get with
      | None => caught other_error
      | Some controller =>
          let operation := default "undefined" (operationId swagger_path_get) in
          let q_param :=
            match q with Some q => [("q", q)] | None => [] end in
          let described :=
            {| rel := Some "describedby";
               uri := "/docs/#operations-" ++ Js.toLowerCase controller ++ "-"
                      ++ operation;
               title := Some (operation ++ " API Docs");
               type := Some "text/html"; var_base := None |} in
          let spString :=
            URLSearchParams_toString
              (q_param ++ (if negb (p =? 1) then [("p", Js.show p)] else [])) in
          let self :=
            plain_link "self"
              (url ++ (if String.eqb spString "" then "" else "?") ++ spString) in
          let first :=
            plain_link "first"
              (url ++ (match q with None => "" | Some _ => "?" end)
                   ++ URLSearchParams_toString q_param) in
          let prev :=
            if 1 <? p then
              [ plain_link "prev"
                  (url ++ (if bool_decide (q = None) && (p =? 2) then "" else "?")
                       ++ URLSearchParams_toString
                            (q_param ++ (if 2 <? p then [("p", Js.show (p - 1))]
                                         else []))) ]
            else [] in
          let totalHits :=
            match rawTotal with
            | TotalNumber total => total
            | TotalObject value => value
            end in
          let hasNextPage := Pagination.PAGE_SIZE conf * p <? totalHits in
          let next :=
            if hasNextPage then
              [ plain_link "next"
                  (url ++ "?" ++ URLSearchParams_toString
                                   (q_param ++ [("p", Js.show (p + 1))])) ]
            else [] in
          let link := (described :: self :: first :: prev ++ next)%list in
          let responseBody := mapToSearchAddressResponse hits in
          let linkTemplate := setLinkOptions swagger_path_get url [] in
          AddressesFound link responseBody linkTemplate
      end
  end.

End Search.
End Templates.

(** *** Notions and sample data used by the statements *)

(** The header of a response, empty for an error. *)
Definition links_of (response : GetAddressesResponse) : list Ref :=
  match response with
  | AddressesFound link _ _ => link
  | AddressesError _ _ => []
  end.

(** The reference of a header with a given relation. *)
Definition with_rel (relation : string) (link : list Ref) : option Ref :=
  Js.find (λ reference, match rel reference with
                        | Some r => String.eqb r relation
                        | None => false
                        end) link.

(** The address a response gives for a relation. *)
Definition uri_of (relation : string) (response : GetAddressesResponse)
    : option string :=
  uri <$> with_rel relation (links_of response).

(** The paths that [getApiRoot] advertises. *)
Definition advertised (entry : string * option Operation) : bool :=
  match entry.2 with
  | Some op => bool_decide (is_Some (x_root_rel op))
               && negb (has_required_parameter op)
  | None => false
  end.

(** A backend that answers every [get] with the given stored document. *)
Definition holding (stored : value) : string → string → Got :=
  λ _ _, GetResolves (Obj [("body", Obj [("_source", stored)])]).

(** What the loader and the two [setAddresses] file for the sample
    address. *)
Definition sample_loaded : value :=
  Obj [ ("sla", prop "sla" Indexing.sample_address);
        ("ssla", prop "ssla" Indexing.sample_address);
        ("structured", Obj (Indexing.rest_of Indexing.sample_address));
        ("confidence", Num 2) ].

Definition sample_legacy : value :=
  Obj [ ("sla", prop "sla" Indexing.sample_address);
        ("ssla", prop "ssla" Indexing.sample_address);
        ("structurted", Obj (Indexing.rest_of Indexing.sample_address)) ].

(** The number of hits a search reports. *)
Definition totalHits (searched : Searched) : Z :=
  match searched with
  | SearchResolves _ (TotalNumber total) => total
  | SearchResolves _ (TotalObject value) => value
  | SearchRejects _ => 0
  end.

(** A backend that finds the same 20 hits on every page, and shows none. *)
Definition twenty_hits : Pagination.SearchBody → Searched :=
  λ _, SearchResolves [] (TotalObject 20).

(** The address of the link template of a path, if [setLinkOptions] makes
    one for it. *)
Definition template_of (entry : string * option Operation) : option string :=
  op ← entry.2;
  _ ← x_root_rel op;
  parameters ← parameters op;
  Some (entry.1 ++ "{?"
        ++ String.concat ","
             (map name (List.filter (λ parameter,
                                       String.eqb (in_ parameter) "query")
                                    parameters))
        ++ "}").

Definition addresses_operation : Operation :=
  {| x_swagger_router_controller := Some "Addresses";
     operationId := Some "getAddresses";
     x_root_rel := Some "addresses";
     summary := Some "Get list of addresses";
     parameters :=
       Some [ {| name := "q"; in_ := "query"; required := None |};
              {| name := "p"; in_ := "query"; required := None |} ] |}.

Definition address_operation : Operation :=
  {| x_swagger_router_controller := Some "Addresses";
     operationId := Some "getAddress";
     x_root_rel := Some "address";
     summary := Some "Get address";
     parameters :=
       Some [ {| name := "addressId"; in_ := "path"; required := Some true |} ] |}.

End Api.

(** ** Fetching the archive: [fetchGNAFArchive] in
       [service/DefaultService.ts] *)
Module Archive.

(** A resource of the package, as far as it is read. *)
Record Resource := {
  state : string;
  mimetype : string;
  url : string;
  size : option Z;
}.

(** The two places of the archive on disk: [GNAF_DIR/<basename>] and
    [GNAF_DIR/incomplete/<basename>]. *)
Record Files := {
  complete : StreamDown.Disk;
  incomplete : StreamDown.Disk;
}.

(** How a call ends: it returns the path of the archive, it throws (the
    [TypeError] of reading [url] of [undefined], the error of [mkdir], the
    error of the download, the error of [rename]), or it is still waiting
    for the network. *)
Inductive Fetched :=
| Returns (path : string)
| ThrowsTypeError
| ThrowsMkdirError
| ThrowsDownloadError (error : StreamDown.DownloadError)
| ThrowsRenameError
| Waiting.

Section Fetch.
(** [GNAF_DIR] of [service/conf] and [path.basename]. *)
Variable GNAF_DIR : string.
Variable basename : string → string.
Variable calculateBackoff : Z → Z → Z → Z → Z.

(** The options that the legacy signature [download(url, path, size)] of
    [streamDown] builds. *)
Definition download_options (dataResource : Resource)
    : StreamDown.StreamDownOptions :=
  {| StreamDown.url := url dataResource;
     StreamDown.expectedSize := size dataResource;
     StreamDown.enableResume := None;
     StreamDown.retry := None;
     StreamDown.timeout := None |}.

(** [fetchGNAFArchive], from the resources of the package data: whether the
    two [mkdir] and the [rename] succeed is given by [mkdir_ok] and
    [rename_ok], and [scripts] says what happens to the requests of the
    download.  The result comes with the files afterwards and with what the
    download did. *)
Definition fetchGNAFArchive (resources : list Resource)
    (mkdir_ok rename_ok : bool) (files : Files)
    (scripts : list (list StreamDown.Exchange))
    : Fetched * Files * list StreamDown.LoopEvent :=
  match Js.find (λ r, String.eqb (state r) "active"
                      && String.eqb (mimetype r) "application/zip") resources
  with
  | None => (ThrowsTypeError, files, [])
  | Some dataResource =>
      let basename := basename (url dataResource) in
      let complete_path := GNAF_DIR in
      let destination := complete_path ++ "/" ++ basename in
      if negb mkdir_ok then (ThrowsMkdirError, files, [])
      else
        match complete files with
        | Some _ => (Returns destination, files, [])
        | None =>
            let run :=
              StreamDown.streamDown calculateBackoff
                (download_options dataResource) (incomplete files) scripts in
            let kept :=
              {| complete := None; incomplete := StreamDown.final_disk run |} in
            match StreamDown.result run with
            | None => (Waiting, kept, StreamDown.trace run)
            | Some (StreamDown.Failed error) =>
                (ThrowsDownloadError error, kept, StreamDown.trace run)
            | Some StreamDown.Succeeded =>
                if rename_ok
                then (Returns destination,
                      {| complete := StreamDown.final_disk run;
                         incomplete := None |},
                      StreamDown.trace run)
                else (ThrowsRenameError, kept, StreamDown.trace run)
            end
        end
  end.

End Fetch.

(** *** Notions and sample data used by the statements *)

Definition returned (fetched : Fetched) : bool :=
  match fetched with Returns _ => true | _ => false end.

Definition sample_resources : list Resource :=
  [ {| state := "active"; mimetype := "application/pdf";
       url := "https://data.gov.au/g-naf.pdf"; size := None |};
    {| state := "active"; mimetype := "application/zip";
       url := "https://data.gov.au/g-naf.zip"; size := Some 1000 |} ].

End Archive.

(** ** Notions about the bulk-indexing driver *)
Module BulkIndexNotions.
Import BulkIndex.

(** The replies that fail before the first one that does not. *)
Fixpoint leading_failures (replies : list BulkReply) : nat :=
  match replies with
  | reply :: replies => if failed reply then S (leading_failures replies) else 0
  | [] => 0
  end.

(** An environment that sets the three backoff variables. *)
Definition backoff_env (initial increment cap : string) : Env :=
  {| ADDRESSR_INDEX_BACKOFF := Some initial;
     ADDRESSR_INDEX_BACKOFF_INCREMENT := Some increment;
     ADDRESSR_INDEX_BACKOFF_MAX := Some cap;
     ADDRESSR_INDEX_TIMEOUT := None |}.

End BulkIndexNotions.

(* ===================================================================== *)
(** * Part II: the statements *)
(* ===================================================================== *)

(** ** JavaScript built-ins *)
Module JsFacts.

Example split_two : Js.split "," "NSW,VIC" = ["NSW"; "VIC"].
Proof. reflexivity. Qed.

Example split_trailing : Js.split "," "NSW," = ["NSW"; ""].
Proof. reflexivity. Qed.

Example split_empty : Js.split "," "" = [""].
Proof. reflexivity. Qed.

Example parseInt_default : Js.parseInt "30000" = Some 30000.
Proof. reflexivity. Qed.

Example parseInt_unit : Js.parseInt "12px" = Some 12.
Proof. reflexivity. Qed.

Example parseInt_nan : Js.parseInt "abc" = None.
Proof. reflexivity. Qed.

Example parseInt_space : Js.parseInt "  600" = Some 600.
Proof. reflexivity. Qed.

(** With the radix 10 given, [0x] is a zero followed by a letter. *)
Example parseInt_0x : Js.parseInt "0x7530" = Some 0.
Proof. reflexivity. Qed.

Example parseInt_no_radix_hex : Js.parseInt_no_radix "0x7530" = Some 30000.
Proof. reflexivity. Qed.

Example parseInt_no_radix_signed : Js.parseInt_no_radix " -0X1f" = Some (-31).
Proof. reflexivity. Qed.

Example parseInt_no_radix_default : Js.parseInt_no_radix "600000" = Some 600000.
Proof. reflexivity. Qed.

Example parseInt_no_radix_nan : Js.parseInt_no_radix "0x" = None.
Proof. reflexivity. Qed.

Example show_400 : Js.show 400 = "400".
Proof. reflexivity. Qed.

Lemma append_assoc (a b c : string) : (a ++ b) ++ c = a ++ b ++ c.
Proof.
  induction a as [|x a IH]; [reflexivity|].
  change (String x ((a ++ b) ++ c) = String x (a ++ b ++ c)). by rewrite IH.
Qed.

Lemma split_nonempty sep s : Js.split sep s ≠ [].
Proof.
  destruct s as [|c rest]; cbn; [discriminate|].
  destruct (Ascii.eqb c sep); [discriminate|].
  destruct (Js.split sep rest); discriminate.
Qed.

Lemma includes_In xs x : Js.includes xs x = true ↔ In x xs.
Proof.
  unfold Js.includes. rewrite existsb_exists. split.
  - intros (y & Hy & Heq). apply String.eqb_eq in Heq. by subst.
  - intros Hin. exists x. split; [done|]. apply String.eqb_refl.
Qed.

Lemma find_some {A} (p : A → bool) xs x :
  Js.find p xs = Some x → In x xs ∧ p x = true.
Proof.
  induction xs as [|y ys IH]; cbn; [discriminate|].
  destruct (p y) eqn:Hp.
  - intros [= ->]. auto.
  - intros H. destruct (IH H). auto.
Qed.

Lemma find_none {A} (p : A → bool) xs :
  Js.find p xs = None ↔ ∀ x, In x xs → p x = false.
Proof.
  induction xs as [|y ys IH]; cbn.
  - split; [intros _ x []|done].
  - destruct (p y) eqn:Hp.
    + split; [discriminate|]. intros H. specialize (H y (or_introl eq_refl)).
      congruence.
    + rewrite IH. split.
      * intros H x [<-|Hin]; auto.
      * intros H x Hin. apply H. by right.
Qed.

End JsFacts.

(** ** Covered regions *)
Module CoveredStatesSpec.
Import CoveredStates.

(** What the source does on a non-empty value: the value is cut at the
    commas, and the pieces are returned if each of them is one of the eight
    codes of [isSupportedState]; otherwise nothing is returned. *)
Lemma getCoveredStates_supported (v : string) :
  v ≠ "" →
  (Forall (λ state, isSupportedState state = true) (Js.split "," v) →
     getCoveredStates (Some v) = Js.split "," v)
  ∧ (Exists (λ state, isSupportedState state = false) (Js.split "," v) →
     getCoveredStates (Some v) = []).
Proof.
  intros Hv. unfold getCoveredStates, Js.or_str.
  assert (String.eqb v "" = false) as Hne by by apply String.eqb_neq.
  rewrite Hne. cbn zeta. rewrite Hne.
  unfold Js.some. split.
  - intros Hall.
    destruct (existsb _ _) eqn:Hex; [|done].
    apply existsb_exists in Hex as (x & Hin & Hx).
    rewrite List.Forall_forall in Hall. rewrite (Hall x Hin) in Hx. done.
  - intros Hex. apply List.Exists_exists in Hex as (x & Hin & Hx).
    assert (existsb (λ state, negb (isSupportedState state)) (Js.split "," v)
            = true) as ->; [|done].
    apply existsb_exists. exists x. by rewrite Hx.
Qed.

Lemma getCoveredStates_supported_witness :
  getCoveredStates (Some "NSW,VIC") = ["NSW"; "VIC"].
Proof.
  apply (proj1 (getCoveredStates_supported "NSW,VIC" ltac:(discriminate))).
  vm_compute. repeat constructor.
Defined.

Lemma isSupportedState_spec state :
  isSupportedState state = true
  ↔ In state ["ACT"; "NSW"; "NT"; "QLD"; "SA"; "TAS"; "VIC"; "WA"].
Proof. apply JsFacts.includes_In. Qed.

Lemma getCoveredStates_unset :
  getCoveredStates None = [] ∧ getCoveredStates (Some "") = [].
Proof. split; reflexivity. Qed.

(** C1. The specification takes the closed region set to be the nine
    documented codes, so that [COVERED_STATES=OT], whose only entry is a
    member of that set, should be returned as it is.  The source checks
    against eight codes: [OT] is not one of them, and the value collapses to
    the empty list, which downstream means all regions. *)
Theorem getCoveredStates_rejects_OT :
  In "OT" documented_states
  ∧ Js.split "," "OT" = ["OT"]
  ∧ isSupportedState "OT" = false
  ∧ getCoveredStates (Some "OT") = []
  ∧ getCoveredStates (Some "NSW,OT") = [].
Proof. repeat split; vm_compute; tauto. Qed.

End CoveredStatesSpec.

(** ** Pagination *)
Module PaginationSpec.
Import Pagination.

Lemma clamp_max_min lo hi x :
  lo ≤ hi → Z.max lo (Z.min x hi) = clamped lo hi x.
Proof.
  intros Hle. unfold clamped.
  destruct (Z.ltb_spec x lo), (Z.ltb_spec hi x); lia.
Qed.

Lemma clamped_range lo hi x : lo ≤ hi → lo ≤ clamped lo hi x ≤ hi.
Proof.
  intros Hle. unfold clamped.
  destruct (Z.ltb_spec x lo), (Z.ltb_spec hi x); lia.
Qed.

(** The compiled service does what C2 says.  With page-number and
    page-size limits of at least 1, the request of its [searchForAddress]
    carries the offset [(p' - 1) * s'] and the size [s'], where [p'] is the
    page clamped to [[1, MAX_PAGE_NUMBER]] and [s'] the page size clamped to
    [[1, MAX_PAGE_SIZE]]; when the caller gives no page size, [PAGE_SIZE] is
    used, which is 8 by default. *)
Theorem searchForAddress_pagination (conf : Conf) (q : string) (p : Z)
    (pageSize : option Z) :
  1 ≤ MAX_PAGE_NUMBER conf →
  1 ≤ MAX_PAGE_SIZE conf →
  let p' := clamped 1 (MAX_PAGE_NUMBER conf) p in
  let s' := clamped 1 (MAX_PAGE_SIZE conf) (default (PAGE_SIZE conf) pageSize) in
  let sent := searchForAddress conf q p pageSize in
  from sent = (p' - 1) * s'
  ∧ size sent = s'
  ∧ 1 ≤ p' ≤ MAX_PAGE_NUMBER conf
  ∧ 1 ≤ s' ≤ MAX_PAGE_SIZE conf
  ∧ 0 ≤ from sent
  ∧ (PAGE_SIZE conf = default_PAGE_SIZE → pageSize = None →
     size sent = clamped 1 (MAX_PAGE_SIZE conf) 8).
Proof.
  intros Hp Hs p' s' sent.
  assert (from sent = (p' - 1) * s' ∧ size sent = s') as [Hfrom Hsize].
  { subst sent p' s'. unfold searchForAddress, validatePaginationParams. cbn.
    by rewrite !clamp_max_min. }
  pose proof (clamped_range 1 (MAX_PAGE_NUMBER conf) p Hp) as Hp'.
  pose proof (clamped_range 1 (MAX_PAGE_SIZE conf)
                (default (PAGE_SIZE conf) pageSize) Hs) as Hs'.
  fold p' in Hp'. fold s' in Hs'.
  repeat split; try done; try lia.
  - rewrite Hfrom. nia.
  - intros Hdef ->. rewrite Hsize. subst s'. cbn. by rewrite Hdef.
Qed.

Lemma searchForAddress_pagination_witness :
  from (searchForAddress sample_conf "300 barangaroo" 0 (Some 500)) = 0
  ∧ size (searchForAddress sample_conf "300 barangaroo" 0 (Some 500)) = 100
  ∧ from (searchForAddress sample_conf "300 barangaroo" 3 None) = 16
  ∧ size (searchForAddress sample_conf "300 barangaroo" 3 None) = 8.
Proof.
  pose proof (searchForAddress_pagination sample_conf "300 barangaroo" 0
                (Some 500) ltac:(vm_compute; discriminate)
                ltac:(vm_compute; discriminate)) as (H1 & H2 & _).
  pose proof (searchForAddress_pagination sample_conf "300 barangaroo" 3
                None ltac:(vm_compute; discriminate)
                ltac:(vm_compute; discriminate)) as (H3 & H4 & _).
  split; [exact H1|]. split; [exact H2|]. split; [exact H3 | exact H4].
Defined.

(** The unexported [searchForAddress] of [DefaultService.ts] sends the same
    request when no clamping is needed; on other inputs it may differ, as on
    page 0 below. *)
Lemma legacy_searchForAddress_in_range (conf : Conf) (q : string) (p s : Z) :
  1 ≤ p ≤ MAX_PAGE_NUMBER conf →
  1 ≤ s ≤ MAX_PAGE_SIZE conf →
  legacy_searchForAddress conf q p (Some s) = searchForAddress conf q p (Some s).
Proof.
  intros Hp Hs. unfold legacy_searchForAddress, searchForAddress,
    validatePaginationParams. cbn.
  replace (Z.max 1 (Z.min p (MAX_PAGE_NUMBER conf))) with p by lia.
  replace (Z.max 1 (Z.min s (MAX_PAGE_SIZE conf))) with s by lia.
  destruct (Z.eqb_spec (p - 1) 0) as [->|]; reflexivity.
Qed.

Lemma legacy_searchForAddress_in_range_witness :
  legacy_searchForAddress sample_conf "q" 2 (Some 8)
  = searchForAddress sample_conf "q" 2 (Some 8).
Proof.
  apply legacy_searchForAddress_in_range; vm_compute; split; discriminate.
Defined.

Example legacy_searchForAddress_page_zero :
  from (legacy_searchForAddress sample_conf "q" 0 None) = -8
  ∧ from (searchForAddress sample_conf "q" 0 None) = 0.
Proof. split; reflexivity. Qed.

(** C2. The [searchForAddress] of [service/DefaultService.ts] does not
    clamp.  For page 0 and the default page size of 8 it asks the backend for
    the offset -8, where the page clamped to [[1, MAX_PAGE_NUMBER]] gives the
    offset 0; and for a page size of 500 it asks for 500 documents, where
    the size clamped to [[1, MAX_PAGE_SIZE]] is [MAX_PAGE_SIZE].  The compiled
    service sends the clamped values on both inputs. *)
Theorem searchForAddress_source_sends_unclamped :
  let claimed_offset (p s : Z) :=
    (clamped 1 (MAX_PAGE_NUMBER sample_conf) p - 1)
    * clamped 1 (MAX_PAGE_SIZE sample_conf) s in
  let claimed_size (s : Z) := clamped 1 (MAX_PAGE_SIZE sample_conf) s in
  (from (legacy_searchForAddress sample_conf "george st" 0 None) = -8
   ∧ claimed_offset 0 8 = 0
   ∧ from (searchForAddress sample_conf "george st" 0 None) = 0)
  ∧ (size (legacy_searchForAddress sample_conf "george st" 1 (Some 500)) = 500
     ∧ claimed_size 500 = 100
     ∧ size (searchForAddress sample_conf "george st" 1 (Some 500)) = 100).
Proof. cbv zeta. repeat split; reflexivity. Qed.

End PaginationSpec.

(** ** The bulk-indexing driver *)
Module BulkIndexSpec.
Import BulkIndex.

Section Schedule.
Context {Body : Type}.
Variables (body : Body) (refresh : bool).

Abbreviation request := (Bulk refresh body "300s").

Lemma loop_awaiting (backoff : Js.num) (count : Z) :
  sendIndexRequest_loop default_env body refresh [] backoff count
  = ([request], Awaiting backoff count).
Proof. reflexivity. Qed.







End Schedule.



Example backoff_reaches_cap :
  delays (fst (sendIndexRequest default_env "batch" None None
                 (replicate 22 Rejects)))
  = (map (λ k, Some (30000 * k)) (seqZ 1 20)
     ++ [Some 600000; Some 600000])%list.
Proof. vm_compute. reflexivity. Qed.

End BulkIndexSpec.

(** ** The package metadata cache *)
Module PackageCacheSpec.
Import PackageCache.

Section Tiers.
Context {E : Type}.
Variable parseDate : option string → option Z.

Abbreviation fetch := (fetchGNAFPackageData (E := E) parseDate).
Abbreviation age := (age_of parseDate).



End Tiers.


End PackageCacheSpec.

(** ** The resumable fetcher *)
Module StreamDownSpec.
Import StreamDown.

(** *** The resume protocol *)

(** What a call of [attemptDownload] opens and asks for first depends on
    the size it resumes from only. *)
Lemma attemptDownload_first_request opts existingSize retryAttempt disk script :
  head (issued (attemptDownload opts existingSize retryAttempt disk script))
  = Some {| file_flags := if 0 <? existingSize then "a" else "w";
            req_url := url opts;
            req_Range :=
              if 0 <? existingSize
              then Some ("bytes=" ++ Js.show existingSize ++ "-")
              else None |}.
Proof.
  destruct script as [|[code msg| | |status msg location len events] script];
    try reflexivity.
  cbn [attemptDownload].
  repeat match goal with
         | |- context [if ?b then _ else _] =>
             lazymatch b with
             | (0 <? existingSize) => fail
             | _ => destruct b
             end
         end; try reflexivity.
  by destruct location as [[]|].
Qed.

(** C4. With resume enabled, the decision taken from the size on disk at
    the start of an iteration of the retry loop, and the request of the
    attempt that follows:
    - no file, or an empty one: a fresh start without [Range] header;
    - a size below the known expected size: a request with
      [Range: bytes={size}-], appending to the file;
    - a size at or above the known expected size: the file is deleted and the
      attempt starts afresh;
    - an unknown expected size: the request resumes from the size on disk. *)
Theorem resume_protocol (opts : StreamDownOptions) (disk : Disk)
    (attempt : Z) (script : list Exchange) :
  enableResume opts ≠ Some false →
  let size := getExistingFileSize disk in
  let expected := default 0 (expectedSize opts) in
  let tried := attempt_of opts attempt disk script in
  (size = 0 →
     prepare opts disk = ({| resumeFromBytes := 0; wasDeleted := false |}, disk)
     ∧ head (issued tried) = Some (fresh_start opts))
  ∧ (0 < size → size < expected →
     prepare opts disk
     = ({| resumeFromBytes := size; wasDeleted := false |}, disk)
     ∧ head (issued tried) = Some (resume_from opts size))
  ∧ (0 < size → 0 < expected → expected ≤ size →
     prepare opts disk = ({| resumeFromBytes := 0; wasDeleted := true |}, None)
     ∧ head (issued tried) = Some (fresh_start opts))
  ∧ (0 < size → expected ≤ 0 →
     prepare opts disk
     = ({| resumeFromBytes := size; wasDeleted := false |}, disk)
     ∧ head (issued tried) = Some (resume_from opts size)).
Proof.
  intros Hresume size expected tried.
  assert (Hfirst := attemptDownload_first_request opts
            (resumeFromBytes (prepare opts disk).1) attempt
            (prepare opts disk).2 script).
  fold (attempt_of opts attempt disk script) in Hfirst.
  fold tried in Hfirst. clearbody tried.
  assert (Hdel : 0 < size → fst (safeDeleteFile disk) = None).
  { subst size. destruct disk; cbn; [done|lia]. }
  unfold prepare in *. rewrite (bool_decide_eq_false_2 _ Hresume) in *.
  cbn [negb] in *.
  unfold validatePartialFile in *. fold size expected in Hfirst |- *.
  unfold fresh_start, resume_from.
  destruct (Z.eqb_spec size 0) as [Hzero|Hzero];
    [|destruct (Z.leb_spec expected 0); [|destruct (Z.leb_spec expected size)]];
    cbn [fst snd resumeFromBytes] in Hfirst;
    (split; [|split; [|split]]); intros; try lia;
    rewrite Hfirst; try rewrite Hzero; try rewrite Hdel by done;
    cbn [Z.ltb Z.compare];
    try (destruct (Z.ltb_spec 0 size); [|lia]); done.
Qed.

Lemma resume_protocol_witness :
  head (issued (attempt_of sample_opts 0 None []))
  = Some (fresh_start sample_opts)
  ∧ head (issued (attempt_of sample_opts 0 (Some 400) []))
    = Some {| file_flags := "a"; req_url := "https://data.gov.au/g-naf.zip";
              req_Range := Some "bytes=400-" |}
  ∧ prepare sample_opts (Some 1001)
    = ({| resumeFromBytes := 0; wasDeleted := true |}, None)
  ∧ head (issued (attempt_of sample_opts_unknown_size 0 (Some 400) []))
    = Some (resume_from sample_opts_unknown_size 400).
Proof.
  split; [|split; [|split]].
  - pose proof (resume_protocol sample_opts None 0 [] ltac:(discriminate))
      as (H & _).
    exact (proj2 (H eq_refl)).
  - pose proof (resume_protocol sample_opts (Some 400) 0 []
                  ltac:(discriminate)) as (_ & H & _).
    exact (proj2 (H eq_refl eq_refl)).
  - pose proof (resume_protocol sample_opts (Some 1001) 0 []
                  ltac:(discriminate)) as (_ & _ & H & _).
    exact (proj1 (H eq_refl eq_refl ltac:(vm_compute; discriminate))).
  - pose proof (resume_protocol sample_opts_unknown_size (Some 400) 0 []
                  ltac:(discriminate)) as (_ & _ & _ & H).
    exact (proj2 (H eq_refl ltac:(vm_compute; discriminate))).
Defined.

(** *** One iteration of the retry loop *)
Section Iteration.
Variable calculateBackoff : Z → Z → Z → Z → Z.
Variable opts : StreamDownOptions.

Abbreviation retries := (default 5 (retry opts ≫= maxRetries)).
Abbreviation loop := (streamDown_loop calculateBackoff opts).

Lemma loop_exhausted scripts attempt restartCount lastError disk :
  retries < attempt →
  result (loop scripts attempt restartCount lastError disk)
  = Some (Failed
      {| de_message := "Download failed after " ++ Js.show (retries + 1)
                       ++ " attempts";
         de_code := message <$> lastError;
         de_attempts := retries + 1;
         de_isRetryable := false;
         de_bytesDownloaded := getExistingFileSize disk |})
  ∧ trace (loop scripts attempt restartCount lastError disk) = [].
Proof.
  intros Hlt. destruct scripts; cbn [streamDown_loop];
    (destruct (Z.leb_spec attempt retries); [lia|]); done.
Qed.

Lemma loop_step script scripts attempt restartCount lastError disk :
  attempt ≤ retries →
  loop (script :: scripts) attempt restartCount lastError disk
  = let tried := attempt_of opts attempt disk script in
    let events := reported opts attempt disk script in
    match settlement tried with
    | None => {| trace := events; result := None;
                 final_disk := disk_after tried |}
    | Some Resolve => {| trace := events; result := Some Succeeded;
                         final_disk := disk_after tried |}
    | Some (Reject error) =>
        if requiresRestart error then
          if maxRestarts <? restartCount + 1 then
            {| trace := events;
               result := Some (Failed
                 {| de_message := "Download failed: file corruption detected "
                                  ++ Js.show (restartCount + 1) ++ " times";
                    de_code := Some "CORRUPT_FILE_LOOP";
                    de_attempts := attempt + 1;
                    de_isRetryable := false;
                    de_bytesDownloaded := 0 |});
               final_disk := disk_after tried |}
          else
            with_events (events ++ [Restarted (restartCount + 1); Slept 1000])%list
              (loop scripts attempt (restartCount + 1) (Some error)
                    (disk_after tried))
        else if negb (isRetryableError error) || (retries <=? attempt) then
          {| trace := events;
             result := Some (Failed
               {| de_message := "Download failed after " ++ Js.show (attempt + 1)
                                ++ " attempt(s): " ++ message error;
                  de_code := code error;
                  de_attempts := attempt + 1;
                  de_isRetryable := isRetryableError error;
                  de_bytesDownloaded :=
                    getExistingFileSize (disk_at_settlement tried) |});
             final_disk := disk_after tried |}
        else
          with_events
            (events
             ++ [Slept (calculateBackoff attempt
                          (default 5000 (retry opts ≫= initialBackoff))
                          (default 60000 (retry opts ≫= maxBackoff))
                          (default 2 (retry opts ≫= backoffMultiplier)))])%list
            (loop scripts (attempt + 1) restartCount (Some error)
                  (disk_after tried))
    end.
Proof.
  intros Hle. cbn [streamDown_loop].
  destruct (Z.leb_spec attempt retries); [|lia].
  unfold attempt_of, reported, attempt_of, prepare.
  destruct (negb (bool_decide (enableResume opts = Some false)));
    [destruct (validatePartialFile disk (default 0 (expectedSize opts)))
       as [validation disk']|];
    cbn [fst snd]; cbv zeta;
    replace (attempt - 1 + 1) with attempt by lia; reflexivity.
Qed.

(** Every iteration that is entered makes the attempt that follows the
    validation of the file on disk. *)
Lemma loop_attempts_after_validation script scripts attempt restartCount
    lastError disk :
  attempt ≤ retries →
  In (Attempted attempt (resumeFromBytes (prepare opts disk).1)
                (issued (attempt_of opts attempt disk script)))
     (trace (loop (script :: scripts) attempt restartCount lastError disk)).
Proof.
  intros Hle. rewrite loop_step by done. cbv zeta.
  assert (Hin : In (Attempted attempt (resumeFromBytes (prepare opts disk).1)
                      (issued (attempt_of opts attempt disk script)))
                   (reported opts attempt disk script)).
  { unfold reported. apply in_or_app. right. by left. }
  destruct (settlement _) as [[|error]|]; cbn [trace]; try done.
  destruct (requiresRestart error).
  - destruct (_ <? _); cbn [trace with_events]; [done|].
    apply in_or_app. left. apply in_or_app. by left.
  - destruct (_ || _); cbn [trace with_events]; [done|].
    apply in_or_app. left. apply in_or_app. by left.
Qed.

End Iteration.

(** *** HTTP 416 *)

Lemma corrupt_416 : bool_decide (416 ∈ CORRUPT_FILE_HTTP_STATUS_CODES) = true.
Proof. vm_compute. reflexivity. Qed.

Lemma safeDeleteFile_gone disk : (safeDeleteFile disk).1 = None.
Proof. by destruct disk. Qed.

(** A 416 answer to the request of an attempt: the file is deleted and the
    promise rejected with the error that asks for a restart. *)
Lemma attemptDownload_416 opts existingSize retryAttempt disk statusMessage
    location contentLength events script :
  let tried :=
    attemptDownload opts existingSize retryAttempt disk
      (Respond 416 statusMessage location contentLength events :: script) in
  settlement tried = Some (Reject restart_error) ∧ disk_after tried = None.
Proof.
  cbn [attemptDownload].
  change (negb (416 =? 0) && (300 <=? 416) && (416 <? 400)
          && truthy (header_text <$> location))
    with false.
  rewrite corrupt_416. cbn [Z.eqb Pos.eqb andb].
  cbn [settlement disk_after]. by rewrite safeDeleteFile_gone.
Qed.

Lemma settle_plain s t :
  plain t → (∀ error, s = Reject error → requiresRestart error = false) →
  plain (settle s t).
Proof.
  intros Ht Hs error. unfold settle; cbn.
  destruct (settled t) as [s0|] eqn:Hsettled.
  - intros [= ->]. by apply Ht.
  - intros [= ->]. by apply Hs.
Qed.

Lemma abortWithError_plain error t :
  plain t → requiresRestart error = false → plain (abortWithError error t).
Proof.
  intros Ht Herr. unfold abortWithError. destruct (aborted t); [done|].
  apply settle_plain; [done|]. by intros ? [= <-].
Qed.

Lemma handle_plain c t e : plain t → plain (handle c t e).
Proof.
  intros Ht. destruct e as [len| | |code msg| |]; cbn [handle].
  - unfold onData. case_match; [|done].
    by apply abortWithError_plain.
  - done.
  - unfold onFlushed. repeat case_match; try done;
      apply settle_plain; try done; by intros ? [= <-].
  - by apply abortWithError_plain.
  - unfold onClose. repeat case_match; try done. by apply abortWithError_plain.
  - by apply abortWithError_plain.
Qed.

Lemma receive_plain c events t : plain t → plain (receive c t events).
Proof.
  revert t. induction events as [|e events IH]; intros t Ht; [done|].
  cbn. apply IH. by apply handle_plain.
Qed.

(** Conversely, an attempt that asks for a restart has received a 416
    answer: its error is the restart error and the file is gone. *)
Lemma attemptDownload_restart_only_416 script :
  ∀ opts existingSize retryAttempt disk error,
  let tried := attemptDownload opts existingSize retryAttempt disk script in
  settlement tried = Some (Reject error) → requiresRestart error = true →
  error = restart_error ∧ disk_after tried = None.
Proof.
  induction script as [|exchange script IH]; intros opts existingSize
    retryAttempt disk error; [done|].
  destruct exchange as [code msg| | |status msg location len events];
    cbn [attemptDownload settlement disk_after];
    try (intros [= <-]; done).
  repeat match goal with
         | |- context [if ?b then _ else _] =>
             lazymatch b with
             | (0 <? existingSize) => fail
             | _ => destruct b eqn:?
             end
         end;
    cbn [with_issued settlement disk_after];
    try (intros [= <-]; done); try apply IH.
  - destruct location as [[href|protocol href|text]|];
      cbn [with_issued settlement disk_after];
      try (intros [= <-]; done); try done; apply IH.
  - intros [= <-] _. by rewrite safeDeleteFile_gone.
  - intros Hsettled Hrestart.
    eapply receive_plain in Hsettled; [congruence|]. by intros ? [=].
  - intros Hsettled Hrestart.
    eapply receive_plain in Hsettled; [congruence|]. by intros ? [=].
Qed.

Lemma restarts_app (xs ys : list LoopEvent) :
  restarts (xs ++ ys) = (restarts xs + restarts ys)%nat.
Proof. unfold restarts. by rewrite List.filter_app, length_app. Qed.

Lemma restarts_reported opts attempt disk script :
  restarts (reported opts attempt disk script) = 0%nat.
Proof. unfold reported. by destruct (wasDeleted _). Qed.

(** The restart counter bounds the restarts that are still to come. *)
Lemma restarts_bounded calculateBackoff opts scripts :
  ∀ attempt restartCount lastError disk,
  (restarts (trace (streamDown_loop calculateBackoff opts scripts attempt
                      restartCount lastError disk))
   ≤ Z.to_nat (maxRestarts - restartCount))%nat.
Proof.
  induction scripts as [|script scripts IH]; intros attempt restartCount
    lastError disk.
  - cbn [streamDown_loop]. destruct (_ <=? _); cbn; lia.
  - destruct (Z.le_gt_cases attempt (default 5 (retry opts ≫= maxRetries)))
      as [Hle|Hgt].
    + rewrite loop_step by done. cbv zeta.
      destruct (settlement _) as [[|error]|]; cbn [trace];
        try (rewrite restarts_reported; lia).
      destruct (requiresRestart error).
      * destruct (Z.ltb_spec maxRestarts (restartCount + 1)); cbn [trace].
        -- rewrite restarts_reported; lia.
        -- unfold with_events; cbn [trace].
           rewrite !restarts_app, restarts_reported.
           specialize (IH attempt (restartCount + 1) (Some error)
                          (disk_after (attempt_of opts attempt disk script))).
           cbn [restarts is_restart List.filter length] in *.
           unfold maxRestarts in *. lia.
      * destruct (_ || _); cbn [trace].
        -- rewrite restarts_reported; lia.
        -- unfold with_events; cbn [trace].
           rewrite !restarts_app, restarts_reported.
           specialize (IH (attempt + 1) restartCount (Some error)
                          (disk_after (attempt_of opts attempt disk script))).
           cbn [restarts is_restart List.filter length] in *. lia.
    + destruct (loop_exhausted calculateBackoff opts (script :: scripts)
                  attempt restartCount lastError disk) as [_ ->]; [lia|].
      cbn. lia.
Qed.

(** C6. HTTP 416:
    - an attempt that receives 416 deletes the partial file and rejects with
      the error that asks for a restart, and no other rejection of an attempt
      asks for one;
    - on such a rejection, while fewer than three restarts have been made,
      the loop waits a second and runs the same attempt number again, from an
      absent file, hence from scratch and without [Range] header;
    - once three restarts have been made, the next such rejection makes
      [streamDown] fail with a [DownloadError] that carries the code
      [CORRUPT_FILE_LOOP] and is not retryable;
    - so that no call of [streamDown] restarts more than three times. *)
Theorem http_416_restarts (calculateBackoff : Z → Z → Z → Z → Z)
    (opts : StreamDownOptions) :
  (∀ existingSize retryAttempt disk statusMessage location contentLength
     events script,
     let tried :=
       attemptDownload opts existingSize retryAttempt disk
         (Respond 416 statusMessage location contentLength events :: script) in
     settlement tried = Some (Reject restart_error)
     ∧ requiresRestart restart_error = true
     ∧ disk_after tried = None)
  ∧ (∀ script scripts attempt restartCount lastError disk error,
       attempt ≤ default 5 (retry opts ≫= maxRetries) →
       settlement (attempt_of opts attempt disk script) = Some (Reject error) →
       requiresRestart error = true →
       error = restart_error
       ∧ (restartCount < 3 →
          streamDown_loop calculateBackoff opts (script :: scripts) attempt
            restartCount lastError disk
          = with_events
              (reported opts attempt disk script
               ++ [Restarted (restartCount + 1); Slept 1000])%list
              (streamDown_loop calculateBackoff opts scripts attempt
                 (restartCount + 1) (Some error) None)
          ∧ ∀ next,
              head (issued (attempt_of opts attempt None next))
              = Some (fresh_start opts))
       ∧ (3 ≤ restartCount →
          result (streamDown_loop calculateBackoff opts (script :: scripts)
                    attempt restartCount lastError disk)
          = Some (Failed
              {| de_message := "Download failed: file corruption detected "
                               ++ Js.show (restartCount + 1) ++ " times";
                 de_code := Some "CORRUPT_FILE_LOOP";
                 de_attempts := attempt + 1;
                 de_isRetryable := false;
                 de_bytesDownloaded := 0 |})))
  ∧ (∀ disk scripts,
       (restarts (trace (streamDown calculateBackoff opts disk scripts)) ≤ 3)%nat).
Proof.
  split; [|split].
  - intros existingSize retryAttempt d statusMessage location contentLength
      events script.
    destruct (attemptDownload_416 opts existingSize retryAttempt d
      statusMessage location contentLength events script) as [H1 H2].
    by repeat split.
  - intros script scripts attempt restartCount lastError disk error Hle
      Hsettled Hrestart.
    destruct (attemptDownload_restart_only_416 script opts _ _ _ error
                Hsettled Hrestart) as [-> Hgone].
    fold (attempt_of opts attempt disk script) in Hgone.
    split; [done|]. split.
    + intros Hfew. split.
      * rewrite loop_step by done. cbv zeta. rewrite Hsettled, Hgone.
        cbn [requiresRestart restart_error].
        by destruct (Z.ltb_spec maxRestarts (restartCount + 1));
          [unfold maxRestarts in *; lia|].
      * intros next. unfold attempt_of.
        rewrite attemptDownload_first_request.
        unfold prepare, validatePartialFile.
        by destruct (negb _).
    + intros Hmany. rewrite loop_step by done. cbv zeta. rewrite Hsettled.
      cbn [requiresRestart restart_error].
      by destruct (Z.ltb_spec maxRestarts (restartCount + 1));
        [|unfold maxRestarts in *; lia].
  - intros disk scripts. unfold streamDown.
    apply (restarts_bounded calculateBackoff opts scripts 0 0 None disk).
Qed.

Lemma http_416_restarts_witness :
  (* seeded with a partial file; the server answers 416 four times *)
  result (streamDown steady_backoff sample_opts_unknown_size (Some 400)
            [answer_416; answer_416; answer_416; answer_416])
  = Some (Failed
      {| de_message := "Download failed: file corruption detected 4 times";
         de_code := Some "CORRUPT_FILE_LOOP";
         de_attempts := 1;
         de_isRetryable := false;
         de_bytesDownloaded := 0 |})
  ∧ streamDown_loop steady_backoff sample_opts_unknown_size
      [answer_416] 0 0 None (Some 400)
    = with_events
        (reported sample_opts_unknown_size 0 (Some 400) answer_416
         ++ [Restarted 1; Slept 1000])%list
        (streamDown_loop steady_backoff sample_opts_unknown_size [] 0 1
           (Some restart_error) None).
Proof.
  split.
  - vm_compute. reflexivity.
  - destruct (http_416_restarts steady_backoff sample_opts_unknown_size)
      as (_ & Hloop & _).
    destruct (Hloop answer_416 [] 0 0 None (Some 400) restart_error
                ltac:(vm_compute; discriminate) ltac:(vm_compute; reflexivity)
                eq_refl) as (_ & Hfew & _).
    exact (proj1 (Hfew ltac:(reflexivity))).
Defined.

(** *** Corruption detection *)

Lemma exceeds_spec (n : Z) (q : Q) : exceeds n q = true ↔ (q < inject_Z n)%Q.
Proof.
  unfold exceeds. rewrite negb_true_iff, <- not_true_iff_false, Qle_bool_iff.
  split; [apply Qnot_le_lt | apply Qlt_not_le].
Qed.

Lemma receive_app c t xs ys :
  receive c t (xs ++ ys) = receive c (receive c t xs) ys.
Proof. apply fold_left_app. Qed.

(** A settled promise stays as it is. *)
Lemma settle_settled s s0 t : settled t = Some s0 → settled (settle s t) = Some s0.
Proof. unfold settle; cbn. by intros ->. Qed.

Lemma abortWithError_settled error s0 t :
  settled t = Some s0 → settled (abortWithError error t) = Some s0.
Proof.
  intros H. unfold abortWithError. destruct (aborted t); [done|].
  by apply settle_settled.
Qed.

Lemma handle_settled c t e s0 :
  settled t = Some s0 → settled (handle c t e) = Some s0.
Proof.
  intros H. destruct e; cbn [handle];
    unfold onData, onEnd, onFlushed, onClose, onSocketTimeout;
    repeat case_match; try done;
    try (by apply abortWithError_settled); by apply settle_settled.
Qed.

Lemma receive_settled c events : ∀ t s0,
  settled t = Some s0 → settled (receive c t events) = Some s0.
Proof.
  induction events as [|e events IH]; intros t s0 H; [done|].
  cbn. apply IH. by apply handle_settled.
Qed.

(** So does the file recorded at the settlement. *)
Lemma handle_settled_on c t e s0 :
  settled t = Some s0 → settled_on (handle c t e) = settled_on t.
Proof.
  intros H. destruct e; cbn [handle];
    unfold onData, onEnd, onFlushed, onClose, onSocketTimeout, abortWithError,
      settle;
    repeat case_match; cbn in *; rewrite ?H; congruence.
Qed.

Lemma receive_settled_on c events : ∀ t s0,
  settled t = Some s0 → settled_on (receive c t events) = settled_on t.
Proof.
  induction events as [|e events IH]; intros t s0 H; [done|].
  change (receive c t (e :: events)) with (receive c (handle c t e) events).
  rewrite (IH _ s0); [by apply handle_settled_on with s0|].
  by apply handle_settled.
Qed.

Lemma abortWithError_gone error t : gone t → gone (abortWithError error t).
Proof. intros [Hd Hc]. unfold abortWithError, gone. by destruct (aborted t). Qed.

Lemma handle_gone c t e : gone t → gone (handle c t e).
Proof.
  intros [Hd Hc]. destruct e; cbn [handle];
    unfold onData, onEnd, onFlushed, onClose, onSocketTimeout;
    repeat case_match;
    try (apply abortWithError_gone; unfold gone; cbn; by rewrite ?Hd, ?Hc);
    unfold gone; cbn; rewrite ?Hd, ?Hc, ?safeDeleteFile_gone; done.
Qed.

Lemma receive_gone c events : ∀ t, gone t → gone (receive c t events).
Proof.
  induction events as [|e events IH]; intros t H; [done|].
  cbn. apply IH. by apply handle_gone.
Qed.

(** Once the file stream is ended it accepts no more data. *)
Lemma abortWithError_ended error t :
  (ended t = true → closed t = true) →
  ended (abortWithError error t) = true → closed (abortWithError error t) = true.
Proof. unfold abortWithError. by destruct (aborted t). Qed.

Lemma handle_ended c t e :
  (ended t = true → closed t = true) →
  ended (handle c t e) = true → closed (handle c t e) = true.
Proof.
  intros H. destruct e; cbn [handle];
    unfold onData, onEnd, onFlushed, onClose, onSocketTimeout;
    repeat case_match; try (by apply abortWithError_ended); cbn; auto;
    congruence.
Qed.

Lemma receive_ended c events : ∀ t,
  (ended t = true → closed t = true) →
  ended (receive c t events) = true → closed (receive c t events) = true.
Proof.
  induction events as [|e events IH]; intros t H; [done|].
  cbn. apply IH. by apply handle_ended.
Qed.

Lemma isRetryableError_code (c : string) message restart :
  c ∈ RETRYABLE_ERROR_CODES →
  isRetryableError {| code := Some c; message := message;
                      requiresRestart := restart |} = true.
Proof.
  intros Hin. unfold isRetryableError; cbn [code].
  rewrite (bool_decide_eq_true_2 _ Hin).
  destruct (String.eqb_spec c "") as [->|]; [|done].
  exfalso. revert Hin. vm_compute. discriminate.
Qed.

Lemma settle_is_Some s t : is_Some (settled (settle s t)).
Proof. unfold settle; cbn. by destruct (settled t). Qed.

Lemma abortWithError_abort_settles error t :
  abort_settles t → abort_settles (abortWithError error t).
Proof.
  intros H. unfold abortWithError. destruct (aborted t) eqn:Ha; [done|].
  intros _. apply settle_is_Some.
Qed.

Lemma handle_abort_settles c t e : abort_settles t → abort_settles (handle c t e).
Proof.
  intros H. destruct e; cbn [handle];
    unfold onData, onEnd, onFlushed, onClose, onSocketTimeout;
    repeat case_match;
    try (apply abortWithError_abort_settles; unfold abort_settles; cbn; done);
    unfold abort_settles in *; cbn; try done;
    intros; apply settle_is_Some.
Qed.

Lemma receive_abort_settles c events : ∀ t,
  abort_settles t → abort_settles (receive c t events).
Proof.
  induction events as [|e events IH]; intros t H; [done|].
  cbn. apply IH. by apply handle_abort_settles.
Qed.

Lemma pending_not_aborted t : abort_settles t → settled t = None → aborted t = false.
Proof.
  intros Hinv Hpending. destruct (aborted t) eqn:Ha; [|done].
  destruct (Hinv Ha) as [s Hs]. congruence.
Qed.

(** C7, amended. While the body of a response with a known total is
    received:
    - a chunk with which the bytes received in the session would exceed
      [max (1.01 * expected) (expected + 1024)], met by an attempt that has
      not failed yet, is not written: the attempt fails with the code
      [DATA_OVERFLOW] while the file is still there, the file is closed and
      then deleted, whatever happens afterwards;
    - when the file has been flushed at the end of the stream by an attempt
      that has not failed yet and its size on disk differs from the total,
      the file is deleted and the attempt fails with the code
      [SIZE_MISMATCH];
    - when the response closes while fewer bytes than the total have been
      received, the attempt, if it has not failed yet, fails with the code
      [ECONNRESET];
    - and when that happens between the end of the stream and the flush of
      the file, the size check that follows deletes the file and the attempt
      keeps the error [ECONNRESET];
    - a size check that runs after any settlement of the promise deletes a
      file of the wrong size and leaves the settlement as it is;
    - errors with these three codes are retryable. *)
Theorem corruption_detection (c : Session) (d : Disk) (downloaded total : Z)
    (before after : list BodyEvent) :
  totalBytes c = Some total → 0 < total →
  let start := started d downloaded in
  let live := receive c start before in
  (∀ expected len,
     expectedBytesThisSession c = Some expected →
     settled live = None →
     (Qmax (inject_Z expected * 1.01) (inject_Z expected + 1024)
      < inject_Z (bytesWrittenThisSession live + len))%Q →
     let final := receive c start (before ++ Data len :: after) in
     let error :=
       {| code := Some "DATA_OVERFLOW";
          message := "Data overflow detected: received "
                     ++ Js.show (bytesWrittenThisSession live + len)
                     ++ " bytes but expected ~" ++ Js.show expected;
          requiresRestart := false |} in
     settled final = Some (Reject error)
     ∧ settled_on final = disk live
     ∧ disk final = None
     ∧ closed final = true
     ∧ isRetryableError error = true)
  ∧ (ended live = true → settled live = None →
     getExistingFileSize (disk live) ≠ total →
     let final := receive c start (before ++ Flushed :: after) in
     let error :=
       {| code := Some "SIZE_MISMATCH";
          message := "File size mismatch: expected " ++ Js.show total
                     ++ " bytes but got "
                     ++ Js.show (getExistingFileSize (disk live));
          requiresRestart := false |} in
     settled final = Some (Reject error)
     ∧ disk final = None
     ∧ closed final = true
     ∧ isRetryableError error = true)
  ∧ (settled live = None → bytesDownloaded live < total →
     let error :=
       {| code := Some "ECONNRESET";
          message := "Connection closed prematurely: downloaded "
                     ++ Js.show (bytesDownloaded live) ++ " of "
                     ++ Js.show total ++ " bytes";
          requiresRestart := false |} in
     (let final := receive c start (before ++ Close :: after) in
      settled final = Some (Reject error)
      ∧ settled_on final = disk live
      ∧ isRetryableError error = true)
     ∧ (ended live = true → getExistingFileSize (disk live) ≠ total →
        let final := receive c start (before ++ Close :: Flushed :: after) in
        settled final = Some (Reject error)
        ∧ disk final = None))
  ∧ (∀ s, settled live = Some s → ended live = true →
       getExistingFileSize (disk live) ≠ total →
       let final := receive c start (before ++ Flushed :: after) in
       settled final = Some s ∧ disk final = None)
  ∧ (∀ message restart,
       isRetryableError {| code := Some "DATA_OVERFLOW"; message := message;
                           requiresRestart := restart |} = true
       ∧ isRetryableError {| code := Some "SIZE_MISMATCH"; message := message;
                             requiresRestart := restart |} = true
       ∧ isRetryableError {| code := Some "ECONNRESET"; message := message;
                             requiresRestart := restart |} = true).
Proof.
  intros Htotal Hpos start live.
  assert (Hlive : abort_settles live) by (by apply receive_abort_settles).
  assert (Hended : ended live = true → closed live = true)
    by (by apply receive_ended).
  assert (Hflush : ∀ t, ended t = true → getExistingFileSize (disk t) ≠ total →
            disk (onFlushed c t) = None
            ∧ closed (onFlushed c t) = closed t
            ∧ settled (onFlushed c t)
              = match settled t with
                | Some s => Some s
                | None => Some (Reject (size_mismatch_error total
                                          (getExistingFileSize (disk t))))
                end).
  { intros t Hend Hsize. unfold onFlushed. rewrite Hend, Htotal.
    destruct (Z.ltb_spec 0 total); [|lia].
    destruct (Z.eqb_spec (getExistingFileSize (disk t)) total); [done|].
    cbn [negb]. unfold settle, set_disk; cbn.
    rewrite safeDeleteFile_gone. by destruct (settled t). }
  assert (Hrest : ∀ t s, settled t = Some s → disk t = None → closed t = true →
            settled (receive c t after) = Some s
            ∧ disk (receive c t after) = None
            ∧ closed (receive c t after) = true).
  { intros t s Hs Hd Hc.
    pose proof (receive_gone c after t (conj Hd Hc)) as [Hd' Hc'].
    by rewrite (receive_settled c after _ _ Hs). }
  split; [|split; [|split; [|split]]].
  - intros expected len Hexpected Hpending Hover final error.
    pose proof (pending_not_aborted live Hlive Hpending) as Hlive'.
    assert (Hstep : settled (onData c live len) = Some (Reject error)
                    ∧ settled_on (onData c live len) = disk live
                    ∧ gone (onData c live len)).
    { unfold onData. rewrite Htotal, Hexpected.
      apply exceeds_spec in Hover. unfold overflowThreshold. rewrite Hover.
      destruct (Z.ltb_spec 0 total); [|lia]. cbn [andb default].
      unfold abortWithError, gone; cbn. rewrite Hlive', Hpending. cbn.
      by rewrite safeDeleteFile_gone. }
    destruct Hstep as (Hsettled & Hon & Hd & Hc).
    subst final. rewrite receive_app. fold start live.
    cbn [receive fold_left handle].
    fold (receive c (onData c live len) after).
    destruct (Hrest _ _ Hsettled Hd Hc) as (-> & -> & ->).
    rewrite (receive_settled_on c after _ _ Hsettled), Hon.
    repeat split; apply isRetryableError_code; vm_compute; reflexivity.
  - intros Hend Hpending Hsize final error.
    destruct (Hflush live Hend Hsize) as (Hd & Hc & Hs).
    rewrite Hpending in Hs. rewrite (Hended Hend) in Hc.
    subst final. rewrite receive_app. fold start live.
    cbn [receive fold_left handle].
    fold (receive c (onFlushed c live) after).
    destruct (Hrest _ _ Hs Hd Hc) as (-> & -> & ->).
    repeat split; apply isRetryableError_code; vm_compute; reflexivity.
  - intros Hpending Hshort error.
    pose proof (pending_not_aborted live Hlive Hpending) as Hlive'.
    assert (Hstep : settled (onClose c live) = Some (Reject error)
                    ∧ settled_on (onClose c live) = disk live
                    ∧ disk (onClose c live) = disk live
                    ∧ ended (onClose c live) = ended live
                    ∧ closed (onClose c live) = true).
    { unfold onClose. rewrite Htotal, Hlive'.
      destruct (Z.ltb_spec (bytesDownloaded live) total); [|lia].
      destruct (Z.ltb_spec 0 total); [|lia]. cbn [negb andb].
      unfold abortWithError; cbn. rewrite Hlive', Hpending. done. }
    destruct Hstep as (Hsettled & Hon & Hd & He & Hc).
    split.
    + cbv zeta. rewrite receive_app. fold start live.
      cbn [receive fold_left handle].
      fold (receive c (onClose c live) after).
      rewrite (receive_settled c after _ _ Hsettled).
      rewrite (receive_settled_on c after _ _ Hsettled), Hon.
      repeat split; apply isRetryableError_code; vm_compute; reflexivity.
    + intros Hend Hsize. cbv zeta. rewrite receive_app. fold start live.
      cbn [receive fold_left handle].
      fold (receive c (onFlushed c (onClose c live)) after).
      destruct (Hflush (onClose c live)) as (Hd' & Hc' & Hs');
        [congruence|by rewrite Hd|].
      rewrite Hsettled in Hs'. rewrite Hc in Hc'.
      by destruct (Hrest _ _ Hs' Hd' Hc') as (-> & -> & _).
  - intros s Hs Hend Hsize. cbv zeta. rewrite receive_app. fold start live.
    cbn [receive fold_left handle].
    fold (receive c (onFlushed c live) after).
    destruct (Hflush live Hend Hsize) as (Hd & Hc & Hs').
    rewrite Hs in Hs'. rewrite (Hended Hend) in Hc.
    by destruct (Hrest _ _ Hs' Hd Hc) as (-> & -> & _).
  - intros message restart. repeat split; apply isRetryableError_code;
      vm_compute; reflexivity.
Qed.

(** Three bodies sent without [Content-Length]: the total is the expected
    size of the options, and the server may send more, or fewer, bytes than
    that. *)
Lemma corruption_detection_witness :
  (* 600000 bytes, then a chunk that takes the session to 1010001 bytes *)
  (let tried :=
     attemptDownload sample_big 0 0 None
       [Respond 200 "OK" None None [Data 600000; Data 410001; Close]] in
   settlement tried = Some (Reject (overflow_error 1010001 1000000))
   ∧ disk_at_settlement tried = Some 600000
   ∧ disk_after tried = None)
  (* the stream ends 700 bytes beyond the expected size *)
  ∧ (let tried :=
       attemptDownload sample_big 0 0 None
         [Respond 200 "OK" None None
            [Data 600000; Data 400700; EndOfStream; Close; Flushed]] in
     settlement tried = Some (Reject (size_mismatch_error 1000000 1000700))
     ∧ disk_after tried = None)
  (* the stream ends 1000 bytes short and closes before the flush *)
  ∧ (let tried :=
       attemptDownload sample_big 0 0 None
         [Respond 200 "OK" None None
            [Data 600000; Data 399000; EndOfStream; Close; Flushed]] in
     settlement tried = Some (Reject (premature_close_error 999000 1000000))
     ∧ disk_after tried = None).
Proof.
  split; [|split].
  - destruct (corruption_detection sample_session (Some 0) 0 1000000
                [Data 600000] [Close] eq_refl ltac:(lia)) as (H & _).
    destruct (H 1000000 410001 eq_refl eq_refl eq_refl)
      as (Hset & Hon & Hdisk & _).
    split; [exact Hset|]. split; [exact Hon|exact Hdisk].
  - destruct (corruption_detection sample_session (Some 0) 0 1000000
                [Data 600000; Data 400700; EndOfStream; Close] []
                eq_refl ltac:(lia)) as (_ & H & _).
    destruct (H eq_refl eq_refl ltac:(vm_compute; discriminate))
      as (Hset & Hdisk & _).
    split; [exact Hset|exact Hdisk].
  - destruct (corruption_detection sample_session (Some 0) 0 1000000
                [Data 600000; Data 399000; EndOfStream] []
                eq_refl ltac:(lia)) as (_ & _ & H & _).
    exact (proj2 (H eq_refl eq_refl) eq_refl ltac:(vm_compute; discriminate)).
Defined.

(** The attempt as a whole: both checks make [streamDown] delete the file,
    wait and try again from scratch. *)
Example overflow_is_retried :
  streamDown steady_backoff sample_big None
    [ [Respond 200 "OK" None None [Data 600000; Data 410001]];
      [Respond 200 "OK" None (Some "1000000")
         [Data 600000; Data 400000; EndOfStream; Close; Flushed]] ]
  = {| trace := [Attempted 0 0 [fresh_start sample_big]; Slept 5000;
                 Attempted 1 0 [fresh_start sample_big]];
       result := Some Succeeded;
       final_disk := Some 1000000 |}.
Proof. vm_compute. reflexivity. Qed.

(** Without a retry left, the error of [streamDown] reports the bytes that
    were on disk when the overflow was met: the file is deleted only once it
    is closed, after the catch block has measured it. *)
Example overflow_measured_before_deletion :
  streamDown steady_backoff sample_big_once None
    [ [Respond 200 "OK" None None [Data 600000; Data 410001; Close]] ]
  = {| trace := [Attempted 0 0 [fresh_start sample_big_once]];
       result := Some (Failed
         {| de_message := "Download failed after 1 attempt(s): Data overflow detected: received 1010001 bytes but expected ~1000000";
            de_code := Some "DATA_OVERFLOW";
            de_attempts := 1;
            de_isRetryable := true;
            de_bytesDownloaded := 600000 |});
       final_disk := None |}.
Proof. vm_compute. reflexivity. Qed.

(** C7, as stated, fails when fewer bytes than the known total arrive and
    the response is closed before the file is flushed (the response emits
    ['close'] right after ['end'], while the callback of [file.end] waits for
    the writes that are pending): the total is known, the size on disk
    differs from it when the size check runs and the file is deleted, but
    the premature-close handler has rejected the promise first, and the
    attempt fails with [ECONNRESET], not with [SIZE_MISMATCH]. *)
Lemma size_mismatch_after_close :
  let events := [Data 600000; Data 399000; EndOfStream; Close; Flushed] in
  let tried :=
    attemptDownload sample_big 0 0 None [Respond 200 "OK" None None events] in
  let at_check :=
    receive sample_session (started (Some 0) 0)
            [Data 600000; Data 399000; EndOfStream; Close] in
  totalBytes sample_session = Some 1000000
  ∧ getExistingFileSize (disk at_check) = 999000
  ∧ settlement tried = settled (receive sample_session at_check [Flushed])
  ∧ disk_after tried = None
  ∧ ∃ error,
      settlement tried = Some (Reject error)
      ∧ code error = Some "ECONNRESET"
      ∧ code error ≠ Some "SIZE_MISMATCH".
Proof.
  cbv zeta. split; [reflexivity|]. split; [reflexivity|].
  split; [vm_compute; reflexivity|]. split; [vm_compute; reflexivity|].
  eexists. split; [vm_compute; reflexivity|]. split; [reflexivity|discriminate].
Qed.

(** A rejection that is retryable and does not ask for a restart is
    followed, while retries are left, by a pause and the next attempt. *)
Lemma retryable_rejection_is_retried calculateBackoff opts script scripts
    attempt restartCount lastError d error :
  attempt < default 5 (retry opts ≫= maxRetries) →
  settlement (attempt_of opts attempt d script) = Some (Reject error) →
  requiresRestart error = false →
  isRetryableError error = true →
  streamDown_loop calculateBackoff opts (script :: scripts) attempt
    restartCount lastError d
  = with_events
      (reported opts attempt d script
       ++ [Slept (calculateBackoff attempt
                    (default 5000 (retry opts ≫= initialBackoff))
                    (default 60000 (retry opts ≫= maxBackoff))
                    (default 2 (retry opts ≫= backoffMultiplier)))])%list
      (streamDown_loop calculateBackoff opts scripts (attempt + 1)
         restartCount (Some error)
         (disk_after (attempt_of opts attempt d script))).
Proof.
  intros Hlt Hsettled Hplain Hretry.
  rewrite loop_step by lia. cbv zeta.
  rewrite Hsettled, Hplain, Hretry. cbn [negb orb].
  by destruct (Z.leb_spec (default 5 (retry opts ≫= maxRetries)) attempt);
    [lia|].
Qed.

Lemma retryable_rejection_is_retried_witness :
  trace (streamDown steady_backoff sample_big None
           [[Respond 200 "OK" None None [Data 600000; Data 410001]]])
  = [Attempted 0 0 [fresh_start sample_big]; Slept 5000].
Proof.
  unfold streamDown.
  rewrite (retryable_rejection_is_retried steady_backoff sample_big _ [] 0 0
             None None (overflow_error 1010001 1000000));
    [reflexivity | vm_compute; reflexivity | vm_compute; reflexivity
    | reflexivity | vm_compute; reflexivity].
Defined.

End StreamDownSpec.

(** ** Authority-code lookups *)
Module PropertyCodeToNameSpec.
Import PropertyCodeToName.

Lemma first_with_defines table code entry :
  first_with table code = Some entry → defines table code entry.
Proof.
  intros H. apply JsFacts.find_some in H as [Hin Hcode].
  split; [done|]. by apply String.eqb_eq.
Qed.

Lemma last_with_defines table code entry :
  last_with table code = Some entry → defines table code entry.
Proof.
  intros H. apply JsFacts.find_some in H as [Hin Hcode].
  split; [by apply in_rev|]. by apply String.eqb_eq.
Qed.

Lemma first_with_none table code :
  first_with table code = None ↔ ∀ entry, ¬ defines table code entry.
Proof.
  unfold first_with. rewrite JsFacts.find_none. split.
  - intros H entry [Hin Hcode]. specialize (H entry Hin).
    apply String.eqb_neq in H. done.
  - intros H entry Hin. apply String.eqb_neq. intros Hcode.
    by apply (H entry).
Qed.

Lemma last_with_none table code :
  last_with table code = None ↔ ∀ entry, ¬ defines table code entry.
Proof.
  unfold last_with. rewrite JsFacts.find_none. split.
  - intros H entry [Hin Hcode]. apply in_rev in Hin. specialize (H entry Hin).
    apply String.eqb_neq in H. done.
  - intros H entry Hin. apply String.eqb_neq. intros Hcode.
    apply (H entry). split; [by apply in_rev|done].
Qed.

(** [buildCodeMap] keeps, for each code, the name of the last entry. *)
Lemma buildCodeMap_lookup table code :
  Dist.buildCodeMap table !! code = NAME <$> last_with table code.
Proof.
  unfold Dist.buildCodeMap, last_with.
  induction table as [|entry table IH] using rev_ind; [done|].
  rewrite fold_left_app, rev_unit. cbn [fold_left Js.find].
  destruct (String.eqb_spec (CODE entry) code) as [->|Hne].
  - by rewrite lookup_insert_eq.
  - by rewrite lookup_insert_ne.
Qed.

(** In a coherent table the first and the last entry with a code carry the
    same name. *)
Lemma coherent_first_last table code :
  coherent table → NAME <$> last_with table code = NAME <$> first_with table code.
Proof.
  intros Hcoh.
  destruct (first_with table code) as [e1|] eqn:H1.
  - destruct (last_with table code) as [e2|] eqn:H2.
    + apply first_with_defines in H1 as [Hin1 Hc1].
      apply last_with_defines in H2 as [Hin2 Hc2].
      cbn. f_equal. apply Hcoh; congruence.
    + apply first_with_defines in H1.
      rewrite last_with_none in H2. by destruct (H2 e1).
  - rewrite first_with_none in H1. apply last_with_none in H1. by rewrite H1.
Qed.

Section Shape.
Context {A : Type}.

Lemma helpers_shaped : Forall shaped (helpers (A := A)).
Proof.
  repeat constructor; intros code context address; eexists;
    (split; [|split; [reflexivity|]]); try discriminate;
    intros st; eexists; (split; [|reflexivity]); reflexivity.
Qed.

Lemma byFind_first table code (diagnostic : list (Logged A)) :
  Ts.byFind table code diagnostic
  = match first_with table code with
    | Some entry => (Some (NAME entry), [])
    | None => (None, diagnostic)
    end.
Proof. reflexivity. Qed.

Lemma byMap_last cur table store st code (diagnostic : list (Logged A)) :
  cur = None ∨ cur = Some (Dist.buildCodeMap table) →
  ∃ st',
    Dist.byMap (Dist.lazily cur table store st) code diagnostic
    = (match last_with table code with
       | Some entry => (Some (NAME entry), [])
       | None => (None, diagnostic)
       end, st')
    ∧ (st' = st ∨ st' = store (Dist.buildCodeMap table)).
Proof.
  intros [->| ->]; cbn [Dist.lazily Dist.byMap];
    rewrite buildCodeMap_lookup; destruct (last_with table code);
    eexists; (split; [reflexivity|]); auto.
Qed.

End Shape.

Lemma helpers_labelled {A : Type} : Forall2 labelled labels (helpers (A := A)).
Proof.
  repeat constructor; intros code context address; eexists;
    (split; [|split; [reflexivity|]]); try (hnf; reflexivity);
    try (intros st; eexists; (split; [|reflexivity]); reflexivity).
  hnf. unfold unknown. by rewrite !JsFacts.append_assoc.
Qed.

(** C9, as stated, fails for the compiled helpers once their memoised map
    has been built from another table: after a lookup in the level types
    [B], [G], [L], the helper is given a context whose table also has an
    entry for [M]; the TypeScript helper returns its name, the compiled
    helper returns [undefined] and logs the code as unknown. *)
Lemma memoised_map_misses_entry :
  let st := (Dist.levelTypeCodeToName "L" (uniform level_types) tt Dist.cleared).2 in
  let context := uniform later_level_types in
  defines (Authority_Code_LEVEL_TYPE_AUT_psv context) "M"
          {| CODE := "M"; NAME := "MEZZANINE" |}
  ∧ Ts.levelTypeCodeToName "M" context tt = (Some "MEZZANINE", [])
  ∧ (Dist.levelTypeCodeToName "M" context tt st).1
    = (None, [LogText "Unknown Level Type Code: 'M'"; LogAddress tt])
  ∧ (Dist.levelTypeCodeToName "M" context tt st).1.1 ≠ Some "MEZZANINE".
Proof.
  cbv zeta. split; [split; [|reflexivity]|].
  - cbn. tauto.
  - split; [reflexivity|]. split; [vm_compute; reflexivity|].
    vm_compute. discriminate.
Qed.

(** C9, amended. Each of the nine helpers of the TypeScript source, and
    each helper of the compiled module whose memoised map has not been built
    yet or was built from the table at hand (as on first use and after
    [clearAuthorityCodeMaps]): when the table has an entry with the code, the
    helper returns the name of such an entry and logs nothing; when it has
    none, it returns [undefined] and logs a diagnostic that opens with
    [Unknown <table> Code: '<code>'].  Nothing is thrown in either case: the
    helpers are total.  A compiled helper whose map is built answers from
    that map, whatever the table of the context. *)
Theorem code_to_name {A : Type} :
  Forall2 (λ (what : string) (h : Helper A), ∀ code context address,
    ((∃ entry, defines (table h context) code entry) →
       ∃ entry, defines (table h context) code entry
                ∧ ts h code context address = (Some (NAME entry), []))
    ∧ ((∀ entry, ¬ defines (table h context) code entry) →
       ∃ diagnostic, reports_unknown what code diagnostic
                     ∧ ts h code context address = (None, diagnostic))
    ∧ (∀ st, in_step h context st →
        ((∃ entry, defines (table h context) code entry) →
           ∃ entry st', defines (table h context) code entry
                        ∧ dist h code context address st
                          = (Some (NAME entry), [], st')
                        ∧ in_step h context st')
        ∧ ((∀ entry, ¬ defines (table h context) code entry) →
           ∃ diagnostic st', reports_unknown what code diagnostic
                             ∧ dist h code context address st
                               = (None, diagnostic, st')
                             ∧ in_step h context st'))
    ∧ (∀ st memo, current h st = Some memo →
         (dist h code context address st).1.1 = memo !! code
         ∧ (dist h code context address st).2 = st))
    labels helpers.
Proof.
  eapply Forall2_impl; [apply helpers_labelled|].
  intros what h Hshape code context address.
  destruct (Hshape code context address) as (diagnostic & Hlogged & Hts & Hdist).
  rewrite Hts, byFind_first.
  split; [|split; [|split]].
  - intros [entry Hentry].
    destruct (first_with (table h context) code) as [found|] eqn:Hfirst.
    + exists found. split; [by apply first_with_defines|done].
    + rewrite first_with_none in Hfirst. by destruct (Hfirst entry).
  - intros Hnone. apply first_with_none in Hnone. rewrite Hnone. eauto.
  - intros st Hstep. destruct (Hdist st) as (store & Hstore & ->).
    destruct (byMap_last (current h st) (table h context) store st code
                diagnostic Hstep) as (st' & -> & Hst').
    assert (in_step h context st') as Hstep'.
    { destruct Hst' as [->| ->]; [done|]. right. apply Hstore. }
    split.
    + intros [entry Hentry].
      destruct (last_with (table h context) code) as [found|] eqn:Hlast.
      * exists found, st'. split; [by apply last_with_defines|done].
      * rewrite last_with_none in Hlast. by destruct (Hlast entry).
    + intros Hnone. apply last_with_none in Hnone. rewrite Hnone. eauto.
  - intros st memo Hmemo. destruct (Hdist st) as (store & _ & ->).
    rewrite Hmemo. cbn [Dist.lazily Dist.byMap].
    by destruct (memo !! code).
Qed.

Lemma code_to_name_witness :
  (∃ entry, defines level_types "L" entry
            ∧ Ts.levelTypeCodeToName "L" (uniform level_types) "GANSW716635811"
              = (Some (NAME entry), []))
  ∧ (∃ diagnostic,
       reports_unknown "Level Type" "XYZ" diagnostic
       ∧ Ts.levelTypeCodeToName "XYZ" (uniform level_types) "GANSW716635811"
         = (None, diagnostic))
  ∧ (∃ entry st', defines level_types "L" entry
       ∧ Dist.levelTypeCodeToName "L" (uniform level_types) "GANSW716635811"
           Dist.cleared
         = (Some (NAME entry), [], st')).
Proof.
  pose proof (code_to_name (A := string)) as Hall.
  unfold labels, helpers in Hall. apply Forall2_cons_1 in Hall as [Hlevel _].
  pose proof (Hlevel "L" (uniform level_types) "GANSW716635811")
    as (Hfound & _ & Hdist & _).
  pose proof (Hlevel "XYZ" (uniform level_types) "GANSW716635811")
    as (_ & Hmissing & _).
  assert (Hdefined : ∃ entry, defines level_types "L" entry).
  { exists {| CODE := "L"; NAME := "LEVEL" |}. split; [cbn; tauto|reflexivity]. }
  split; [|split].
  - exact (Hfound Hdefined).
  - apply Hmissing. intros entry [Hin Hcode].
    cbn in Hin. destruct Hin as [<-|[<-|[<-|[]]]]; discriminate.
  - destruct (proj1 (Hdist Dist.cleared (or_introl eq_refl)) Hdefined)
      as (entry & st' & Hentry & Hrun & _).
    exists entry, st'. split; [exact Hentry | exact Hrun].
Defined.

(** C10, as stated, fails on a table with a duplicated code: the scan
    returns the name of the first entry, the map that of the last. *)
Lemma duplicated_code_disagrees :
  Ts.levelTypeCodeToName "L" (uniform duplicated) tt = (Some "LEVEL", [])
  ∧ (Dist.levelTypeCodeToName "L" (uniform duplicated) tt Dist.cleared).1
    = (Some "LOWER", [])
  ∧ (Dist.levelTypeCodeToName "L" (uniform duplicated) tt Dist.cleared).1
    ≠ Ts.levelTypeCodeToName "L" (uniform duplicated) tt.
Proof.
  assert (H : (Dist.levelTypeCodeToName "L" (uniform duplicated) tt Dist.cleared).1
              = (Some "LOWER", [])) by (vm_compute; reflexivity).
  split; [reflexivity|]. split; [exact H|]. rewrite H. discriminate.
Qed.

(** C10, amended. Starting from cleared maps, each helper of the
    TypeScript source returns the name of the first entry with the code,
    each helper of the compiled module that of the last one, and both return
    [undefined] with the same diagnostic when there is none; so the two
    agree, in result and in what they log, on every table in which entries
    that share a code share their name, in particular on every table without
    duplicated codes. *)
Theorem find_and_map_agree {A : Type} :
  Forall (λ h : Helper A, ∀ code context address,
    (ts h code context address).1 = NAME <$> first_with (table h context) code
    ∧ (dist h code context address Dist.cleared).1.1
      = NAME <$> last_with (table h context) code
    ∧ (coherent (table h context) →
       (dist h code context address Dist.cleared).1
       = ts h code context address))
    helpers.
Proof.
  eapply Forall_impl; [apply helpers_shaped|].
  intros h [Hcleared Hshape] code context address.
  destruct (Hshape code context address) as (diagnostic & Hlogged & Hts & Hdist).
  destruct (Hdist Dist.cleared) as (store & Hstore & ->).
  destruct (byMap_last (current h Dist.cleared) (table h context) store
              Dist.cleared code diagnostic (or_introl Hcleared))
    as (st' & -> & _).
  rewrite Hts, byFind_first. cbn [fst].
  split; [by destruct (first_with _ _)|].
  split; [by destruct (last_with _ _)|].
  intros Hcoh. pose proof (coherent_first_last _ code Hcoh) as Heq.
  destruct (first_with _ _), (last_with _ _); cbn in Heq; congruence.
Qed.

Lemma level_types_coherent : coherent level_types.
Proof.
  intros e1 e2 H1 H2. cbn in H1, H2.
  destruct H1 as [<-|[<-|[<-|[]]]], H2 as [<-|[<-|[<-|[]]]];
    cbn; congruence.
Qed.

Lemma find_and_map_agree_witness :
  (Dist.levelTypeCodeToName "G" (uniform level_types) tt Dist.cleared).1
  = Ts.levelTypeCodeToName "G" (uniform level_types) tt
  ∧ (Dist.levelTypeCodeToName "XYZ" (uniform level_types) tt Dist.cleared).1
    = Ts.levelTypeCodeToName "XYZ" (uniform level_types) tt.
Proof.
  split.
  - exact (proj2 (proj2 (Forall_inv (find_and_map_agree (A := unit)) "G"
                           (uniform level_types) tt)) level_types_coherent).
  - exact (proj2 (proj2 (Forall_inv (find_and_map_agree (A := unit)) "XYZ"
                           (uniform level_types) tt)) level_types_coherent).
Defined.

End PropertyCodeToNameSpec.

(** ** The multi-line rendering *)
Module MlaSpec.
Import Mla.

Lemma nonempty_append (a b : string) : nonempty a = true → nonempty (a ++ b) = true.
Proof. by destruct a. Qed.

Lemma region_code_nonempty r : nonempty (region_code r) = true.
Proof. by destruct r. Qed.

(** The grouping of locality, state and postcode is never empty: it holds
    the code of the region at least. *)
Lemma locality_line_nonempty s : nonempty (locality_line s) = true.
Proof.
  unfold locality_line, join_words. cbn [List.filter].
  rewrite region_code_nonempty.
  destruct (nonempty (locality s)) eqn:Hlocality;
    destruct (nonempty (default "" (postcode s))) eqn:Hpostcode;
    cbn [String.concat];
    repeat (apply nonempty_append); try done;
    apply region_code_nonempty.
Qed.

Lemma within_budget_spec (composed : list string) :
  match within_budget composed with
  | inr lines => lines = emitted composed ∧ (length lines ≤ 4)%nat
  | inl (TooManyLines count) =>
      count = length (emitted composed) ∧ (5 ≤ count)%nat
  end.
Proof.
  unfold within_budget, emitted.
  destruct (Nat.ltb_spec 4 (length (List.filter nonempty composed)));
    split; (done || lia).
Qed.

Lemma emitted_app (xs ys : list string) :
  emitted (xs ++ ys) = (emitted xs ++ emitted ys)%list.
Proof. apply List.filter_app. Qed.

Section Budget.
Variable level_and_flat : option Unit_ → option Unit_ → list string.
Variable number_and_street : NumberRange → option string → Street → list string.

Abbreviation composed := (groupings level_and_flat number_and_street).
Abbreviation mla := (mapToMla level_and_flat number_and_street).

(** The locality line is always among the lines about to be emitted. *)
Lemma locality_line_emitted s : In (locality_line s) (emitted (composed s)).
Proof.
  unfold groupings. rewrite !emitted_app. rewrite !in_app_iff.
  right. right. right. unfold emitted. cbn [List.filter].
  rewrite locality_line_nonempty. by left.
Qed.

(** The budget, for the mapper over any rendering of the groupings. *)
Lemma mapper_budget s :
  ((5 ≤ length (emitted (composed s)))%nat →
   mla s = inl (TooManyLines (length (emitted (composed s)))))
  ∧ ((length (emitted (composed s)) ≤ 4)%nat →
     mla s = inr (emitted (composed s)))
  ∧ (∀ lines, mla s = inr lines →
       lines = emitted (composed s)
       ∧ (1 ≤ length lines ≤ 4)%nat
       ∧ In (locality_line s) lines)
  ∧ (∀ error, mla s = inl error →
       error = TooManyLines (length (emitted (composed s)))
       ∧ (5 ≤ length (emitted (composed s)))%nat).
Proof.
  pose proof (within_budget_spec (composed s)) as Hspec.
  pose proof (locality_line_emitted s) as Hlocality.
  unfold mapToMla.
  set (emitted_lines := emitted (composed s)) in *.
  destruct (within_budget (composed s)) as [[count]|found].
  - destruct Hspec as [-> Hfive].
    split; [reflexivity|]. split; [lia|]. split; [discriminate|].
    intros e [= <-]. split; [reflexivity|exact Hfive].
  - destruct Hspec as [-> Hfour].
    split; [lia|]. split; [reflexivity|]. split; [|discriminate].
    intros lines [= <-]. split; [reflexivity|]. split; [|exact Hlocality].
    split; [|exact Hfour].
    destruct emitted_lines; [destruct Hlocality|cbn; lia].
Qed.

(** When each grouping is rendered on one line at most, as for a
    well-formed row, there are never more than four lines and the error is
    not raised. *)
Lemma one_line_per_grouping_fits :
  (∀ level flat, (length (level_and_flat level flat) ≤ 1)%nat) →
  (∀ n lot st, (length (number_and_street n lot st) ≤ 1)%nat) →
  ∀ s, mla s = inr (emitted (composed s)).
Proof.
  intros Hlevel Hnumber s. apply mapper_budget.
  etransitivity; [apply List.filter_length_le|].
  unfold groupings. rewrite !length_app. cbn [length].
  specialize (Hlevel (level s) (flat s)).
  specialize (Hnumber (number_range s) (lot s) (street s)). lia.
Qed.

End Budget.

(** C8. Whatever the rendering of the groupings, for every structured
    address: when the groupings give at most four lines that are not empty,
    [mapToMla] returns exactly these lines, of which there is at least one,
    the locality line; when they give a fifth line, [mapToMla] raises an
    error in place of a result; [mapToMla] never returns more than four lines
    or none; and [mapToShortMla] does the same over the shortened
    groupings. *)
Theorem mla_line_budget
    (level_and_flat short_level_and_flat : option Unit_ → option Unit_ → list string)
    (number_and_street short_number_and_street :
       NumberRange → option string → Street → list string)
    (s : StructuredAddress) :
  let composed := groupings level_and_flat number_and_street s in
  let short_composed :=
    short_groupings short_level_and_flat short_number_and_street s in
  let budget (result : MappingError + list string) (composed : list string) :=
    ((5 ≤ length (emitted composed))%nat →
     result = inl (TooManyLines (length (emitted composed))))
    ∧ ((length (emitted composed) ≤ 4)%nat → result = inr (emitted composed))
    ∧ (∀ lines, result = inr lines →
         lines = emitted composed
         ∧ (1 ≤ length lines ≤ 4)%nat
         ∧ In (locality_line s) lines)
    ∧ (∀ error, result = inl error →
         error = TooManyLines (length (emitted composed))
         ∧ (5 ≤ length (emitted composed))%nat) in
  budget (mapToMla level_and_flat number_and_street s) composed
  ∧ budget (mapToShortMla short_level_and_flat short_number_and_street s)
           short_composed.
Proof.
  cbv zeta. split; apply mapper_budget.
Qed.

Lemma mla_line_budget_witness :
  (* scenario 1: four lines *)
  mapToMla sample_level_and_flat sample_number_and_street barangaroo
  = inr ["TOWER 3"; "LEVEL 25"; "300 BARANGAROO AV"; "BARANGAROO NSW 2000"]
  (* a flat on the level, rendered on a line of its own: a fifth line *)
  ∧ mapToMla separate_level_and_flat sample_number_and_street barangaroo_flat
    = inl (TooManyLines 5)
  (* the same address with level and flat on one line *)
  ∧ mapToMla sample_level_and_flat sample_number_and_street barangaroo_flat
    = inr ["TOWER 3"; "LEVEL 25 SUITE 4"; "300 BARANGAROO AV";
           "BARANGAROO NSW 2000"].
Proof.
  split; [|split].
  - exact (proj1 (proj2 (proj1 (mla_line_budget sample_level_and_flat
             sample_level_and_flat sample_number_and_street
             sample_number_and_street barangaroo))) ltac:(vm_compute; lia)).
  - exact (proj1 (proj1 (mla_line_budget separate_level_and_flat
             sample_level_and_flat sample_number_and_street
             sample_number_and_street barangaroo_flat))
             ltac:(vm_compute; lia)).
  - exact (proj1 (proj2 (proj1 (mla_line_budget sample_level_and_flat
             sample_level_and_flat sample_number_and_street
             sample_number_and_street barangaroo_flat)))
             ltac:(vm_compute; lia)).
Defined.

End MlaSpec.

(** ** The partial file, the retry decision and the retry loop *)
Module TransfersSpec.
Import StreamDown Transfers.

(** X1. [validatePartialFile] returns as resume offset either 0 or the size
    of the file on disk; when the expected size is known (positive) the
    offset is strictly below it; the file is deleted exactly when it is not
    empty and at least as large as the expected size; and validating the
    disk it leaves changes nothing more. *)
Theorem validatePartialFile_offset (d : Disk) (expected : Z) :
  let '(v, d') := validatePartialFile d expected in
  (resumeFromBytes v = 0 ∨ resumeFromBytes v = getExistingFileSize d)
  ∧ (0 < expected → 0 ≤ getExistingFileSize d → 0 ≤ resumeFromBytes v < expected)
  ∧ (wasDeleted v = true
     ↔ getExistingFileSize d ≠ 0 ∧ 0 < expected ≤ getExistingFileSize d)
  ∧ (if wasDeleted v then d' = None else d' = d)
  ∧ validatePartialFile d' expected
    = ({| resumeFromBytes := resumeFromBytes v; wasDeleted := false |}, d').
Proof.
  unfold validatePartialFile.
  destruct (getExistingFileSize d =? 0) eqn:H0;
    [|destruct (expected <=? 0) eqn:H1;
      [|destruct (expected <=? getExistingFileSize d) eqn:H2]];
    cbn; rewrite ?H0, ?H1, ?H2;
    try (destruct d as [size|]; cbn in *; [|lia]);
    repeat split; try lia; auto; try discriminate;
    try (intros [? ?]; lia).
Qed.

(** *** Refused requests *)

Lemma http_code_not_retryable (statusCode : Z) :
  "HTTP_" ++ Js.show statusCode ∉ RETRYABLE_ERROR_CODES.
Proof.
  unfold RETRYABLE_ERROR_CODES. rewrite elem_of_list_to_set.
  rewrite !elem_of_cons, elem_of_nil. cbn [String.append].
  intros H. repeat (destruct H as [H|H]; [discriminate H|]). exact H.
Qed.

Lemma isRetryableError_http statusCode statusMessage :
  isRetryableError (http_error statusCode statusMessage)
  = mentions_retryable_word (message (http_error statusCode statusMessage)).
Proof.
  unfold isRetryableError. cbn [code http_error].
  rewrite (bool_decide_eq_false_2 _ (http_code_not_retryable statusCode)).
  rewrite andb_false_r.
  unfold mentions_retryable_word, retryable_words. cbn [existsb].
  repeat match goal with
         | |- context [Js.str_includes ?a ?b] =>
             destruct (Js.str_includes a b); cbn [orb]; try reflexivity
         end.
Qed.

Lemma attemptDownload_refused opts existingSize retryAttempt d statusCode
    statusMessage location contentLength events script :
  400 ≤ statusCode → statusCode ≠ 416 →
  attemptDownload opts existingSize retryAttempt d
    (Respond statusCode statusMessage location contentLength events :: script)
  = {| settlement := Some (Reject (http_error statusCode statusMessage));
       disk_at_settlement :=
         if 0 <? existingSize then Some (getExistingFileSize d) else Some 0;
       disk_after := if 0 <? existingSize then Some (getExistingFileSize d)
                     else Some 0;
       issued := [ {| file_flags := if 0 <? existingSize then "a" else "w";
                      req_url := url opts;
                      req_Range :=
                        if 0 <? existingSize
                        then Some ("bytes=" ++ Js.show existingSize ++ "-")
                        else None |} ] |}.
Proof.
  intros Hge Hne. cbn [attemptDownload].
  destruct (Z.ltb_spec statusCode 400); [lia|].
  destruct (Z.eqb_spec statusCode 416); [lia|].
  destruct (Z.eqb_spec statusCode 0); [lia|].
  destruct (Z.leb_spec 400 statusCode); [|lia].
  rewrite andb_false_r. cbn [andb negb].
  by destruct (bool_decide (statusCode ∈ RETRYABLE_HTTP_STATUS_CODES)).
Qed.

(** The file an attempt opens has the size the attempt resumes from. *)
Lemma opened_at_offset opts (d : Disk) :
  0 ≤ getExistingFileSize d →
  (if 0 <? resumeFromBytes (prepare opts d).1
   then Some (getExistingFileSize (prepare opts d).2) else Some 0)
  = Some (resumeFromBytes (prepare opts d).1).
Proof.
  intros Hsize. unfold prepare, validatePartialFile.
  destruct (negb (bool_decide (enableResume opts = Some false))); [|done].
  destruct (Z.eqb_spec (getExistingFileSize d) 0); [done|].
  destruct (default 0 (expectedSize opts) <=? 0);
    [|destruct (default 0 (expectedSize opts) <=? getExistingFileSize d)];
    cbn [fst snd resumeFromBytes]; try done;
    by destruct (Z.ltb_spec 0 (getExistingFileSize d)); [|lia].
Qed.

(** X2. A response with a status of 400 or more, other than 416, rejects
    the attempt with the error [HTTP_<status>] and leaves the file as it was
    opened.  Such a code is never one of the retryable error codes, so
    whether the loop retries is decided by the text of the status line
    alone, for the statuses listed in [RETRYABLE_HTTP_STATUS_CODES] as for
    any other: when the text holds none of the six retryable words, the run
    fails at once, after [attempt + 1] attempts, with an error that is not
    retryable. *)
Theorem http_status_retry_decision (calculateBackoff : Z → Z → Z → Z → Z)
    (opts : StreamDownOptions) (statusCode : Z) (statusMessage : string)
    location contentLength events script scripts
    (attempt restartCount : Z) lastError (d : Disk) :
  400 ≤ statusCode → statusCode ≠ 416 →
  0 ≤ getExistingFileSize d →
  attempt ≤ default 5 (retry opts ≫= maxRetries) →
  let refused :=
    Respond statusCode statusMessage location contentLength events :: script in
  let error := http_error statusCode statusMessage in
  settlement (attempt_of opts attempt d refused) = Some (Reject error)
  ∧ disk_after (attempt_of opts attempt d refused)
    = Some (resumeFromBytes (prepare opts d).1)
  ∧ isRetryableError error = mentions_retryable_word (message error)
  ∧ (mentions_retryable_word (message error) = false →
     result (streamDown_loop calculateBackoff opts (refused :: scripts)
               attempt restartCount lastError d)
     = Some (Failed
         {| de_message := "Download failed after " ++ Js.show (attempt + 1)
                          ++ " attempt(s): " ++ message error;
            de_code := Some ("HTTP_" ++ Js.show statusCode);
            de_attempts := attempt + 1;
            de_isRetryable := false;
            de_bytesDownloaded := resumeFromBytes (prepare opts d).1 |})).
Proof.
  intros Hge Hne Hsize Hle refused error.
  assert (Hset : settlement (attempt_of opts attempt d refused)
                 = Some (Reject error)).
  { unfold attempt_of, refused. by rewrite attemptDownload_refused. }
  assert (Hdisk : disk_after (attempt_of opts attempt d refused)
                  = Some (resumeFromBytes (prepare opts d).1)).
  { unfold attempt_of, refused. rewrite attemptDownload_refused by done.
    cbn [disk_after]. by apply opened_at_offset. }
  assert (Hmeasured : disk_at_settlement (attempt_of opts attempt d refused)
                      = Some (resumeFromBytes (prepare opts d).1)).
  { unfold attempt_of, refused. rewrite attemptDownload_refused by done.
    cbn [disk_at_settlement]. by apply opened_at_offset. }
  split; [done|]. split; [done|]. split; [apply isRetryableError_http|].
  intros Hwords.
  rewrite StreamDownSpec.loop_step by done. cbv zeta.
  rewrite Hset, Hdisk, Hmeasured. cbn [requiresRestart error http_error].
  unfold error in *. rewrite isRetryableError_http, Hwords. reflexivity.
Qed.

Lemma http_status_retry_decision_witness :
  (* 503 is listed in RETRYABLE_HTTP_STATUS_CODES *)
  bool_decide (503 ∈ RETRYABLE_HTTP_STATUS_CODES) = true
  ∧ result (streamDown steady_backoff sample_opts (Some 400)
              [refuse 503 "Service Unavailable"; refuse 503 "Service Unavailable"])
    = Some (Failed
        {| de_message := "Download failed after 1 attempt(s): HTTP 503: Service Unavailable";
           de_code := Some "HTTP_503";
           de_attempts := 1;
           de_isRetryable := false;
           de_bytesDownloaded := 400 |}).
Proof.
  split; [vm_compute; reflexivity|].
  exact (proj2 (proj2 (proj2
    (http_status_retry_decision steady_backoff sample_opts 503
       "Service Unavailable" None None [] [] [refuse 503 "Service Unavailable"]
       0 0 None (Some 400)
       ltac:(lia) ltac:(lia) ltac:(cbn; lia) ltac:(cbn; lia))))
    ltac:(vm_compute; reflexivity)).
Defined.

(** *** Redirects *)

(** An attempt reads the file on disk only through the stream it opens. *)
Lemma attemptDownload_disk opts existingSize retryAttempt (d d' : Disk) script :
  (0 < existingSize → getExistingFileSize d = getExistingFileSize d') →
  attemptDownload opts existingSize retryAttempt d script
  = attemptDownload opts existingSize retryAttempt d' script.
Proof.
  intros Hsame.
  assert (Hopen : (if 0 <? existingSize then Some (getExistingFileSize d)
                   else Some 0)
                  = (if 0 <? existingSize then Some (getExistingFileSize d')
                     else Some 0) :> Disk).
  { destruct (Z.ltb_spec 0 existingSize); [by rewrite Hsame|done]. }
  destruct script as [|[] script]; cbn [attemptDownload]; by rewrite Hopen.
Qed.

Lemma last_cons {A} (xs : list A) : ∀ x y : A,
  List.last (x :: xs) y = List.last xs x.
Proof.
  induction xs as [|z zs IH]; intros x y; [done|].
  change (List.last (x :: z :: zs) y) with (List.last (z :: zs) y).
  by rewrite !IH.
Qed.

(** One redirect to an absolute [https:] address: the request is made
    again at that address, with the same offset. *)
Lemma attemptDownload_redirected opts existingSize retryAttempt (d : Disk)
    hop address script :
  redirects_to hop address →
  attemptDownload opts existingSize retryAttempt d (hop :: script)
  = with_issued (request_to (url opts) existingSize)
      (attemptDownload (with_url opts address) existingSize retryAttempt d
                       script).
Proof.
  intros (statusCode & statusMessage & contentLength & events
          & -> & [Hlo Hhi] & Hne).
  cbn [attemptDownload truthy fmap option_fmap option_map header_text].
  destruct (Z.eqb_spec statusCode 0); [lia|].
  destruct (Z.leb_spec 300 statusCode); [|lia].
  destruct (Z.ltb_spec statusCode 400); [|lia].
  destruct (String.eqb_spec address ""); [done|].
  cbn [negb andb]. unfold request_to. f_equal.
  apply attemptDownload_disk.
  intros Hpos. by destruct (Z.ltb_spec 0 existingSize); [|lia].
Qed.

(** X3. Redirects are followed within the attempt when the [Location] is an
    absolute [https:] address: after any chain of such 3xx responses the
    attempt ends as an attempt made directly at the last address would (same
    settlement, same file), and every request of the chain was sent with the
    same file mode and the same [Range] header as the first, so that a
    resumed download stays resumed across redirects.  A [Location] that is
    not an absolute address ends the chain with a promise that is never
    settled, and one with another protocol with a rejection by
    [ERR_INVALID_PROTOCOL]. *)
Theorem redirects_are_followed (hops : list Exchange) (addresses : list string) :
  Forall2 redirects_to hops addresses →
  ∀ opts existingSize retryAttempt (d : Disk) script,
  let tried :=
    attemptDownload opts existingSize retryAttempt d (hops ++ script) in
  let direct :=
    attemptDownload (with_url opts (List.last addresses (url opts)))
                    existingSize retryAttempt d script in
  (settlement tried = settlement direct
   ∧ disk_at_settlement tried = disk_at_settlement direct
   ∧ disk_after tried = disk_after direct
   ∧ issued tried
     = (map (λ address, request_to address existingSize)
            (removelast (url opts :: addresses))
        ++ issued direct)%list)
  ∧ ∀ statusCode statusMessage contentLength events,
      300 ≤ statusCode < 400 →
      (∀ text, text ≠ "" →
         settlement
           (attemptDownload opts existingSize retryAttempt d
              (hops ++ Respond statusCode statusMessage
                         (Some (NotAbsolute text)) contentLength events
                       :: script))
         = None)
      ∧ (∀ protocol href, href ≠ "" →
           settlement
             (attemptDownload opts existingSize retryAttempt d
                (hops ++ Respond statusCode statusMessage
                           (Some (OtherProtocol protocol href)) contentLength
                           events
                         :: script))
           = Some (Reject (invalid_protocol_error protocol))).
Proof.
  induction 1 as [|hop address hops addresses Hhop _ IH];
    intros opts existingSize retryAttempt d script.
  - cbn [app List.last removelast map]. split; [by destruct opts|].
    intros statusCode statusMessage contentLength events [Hlo Hhi].
    split; [intros text Hne|intros protocol href Hne];
      cbn [attemptDownload truthy fmap option_fmap option_map header_text];
      (destruct (Z.eqb_spec statusCode 0); [lia|]);
      (destruct (Z.leb_spec 300 statusCode); [|lia]);
      (destruct (Z.ltb_spec statusCode 400); [|lia]);
      [destruct (String.eqb_spec text "")|destruct (String.eqb_spec href "")];
      done.
  - cbn zeta. rewrite last_cons.
    specialize (IH (with_url opts address) existingSize retryAttempt d).
    cbn zeta in IH. split.
    + destruct (IH script) as [(Hset & Hmeasured & Hdisk & Hreq) _].
      change ((hop :: hops) ++ script)%list with (hop :: (hops ++ script))%list.
      rewrite (attemptDownload_redirected _ _ _ _ hop address) by done.
      cbn [with_issued settlement disk_at_settlement disk_after issued].
      rewrite Hset, Hmeasured, Hdisk, Hreq. cbn [url with_url].
      done.
    + intros statusCode statusMessage contentLength events Hstatus.
      split; [intros text Hne|intros protocol href Hne];
        change ((hop :: hops) ++ ?l)%list with (hop :: (hops ++ l))%list;
        rewrite (attemptDownload_redirected _ _ _ _ hop address) by done;
        cbn [with_issued settlement];
        destruct (IH script) as [_ Hbad];
        by apply (Hbad statusCode statusMessage contentLength events).
Qed.

Lemma redirects_are_followed_witness :
  let hops := [Respond 302 "Found" (Some (Https "https://mirror.example/a.zip"))
                 None [];
               Respond 301 "Moved" (Some (Https "https://cdn.example/a.zip"))
                 None []] in
  let tried := attemptDownload sample_opts 400 0 (Some 400)
                 (hops ++ [Respond 206 "Partial Content" None (Some "600")
                             [Data 600; EndOfStream; Flushed]]) in
  settlement tried = Some Resolve
  ∧ disk_after tried = Some 1000
  ∧ map req_url (issued tried)
    = ["https://data.gov.au/g-naf.zip"; "https://mirror.example/a.zip";
       "https://cdn.example/a.zip"]
  ∧ map req_Range (issued tried)
    = [Some "bytes=400-"; Some "bytes=400-"; Some "bytes=400-"]
  ∧ settlement
      (attemptDownload sample_opts 400 0 (Some 400)
         (hops ++ [Respond 302 "Found" (Some (NotAbsolute "/files/a.zip"))
                     None []]))
    = None.
Proof.
  intros hops tried.
  assert (Hhops : Forall2 redirects_to hops
            ["https://mirror.example/a.zip"; "https://cdn.example/a.zip"]).
  { constructor 2; [|constructor 2; [|constructor 1]];
      do 4 eexists; (split; [reflexivity|]); (split; [lia|discriminate]). }
  pose proof (redirects_are_followed hops
                ["https://mirror.example/a.zip"; "https://cdn.example/a.zip"]
                Hhops sample_opts 400 0 (Some 400))
    as Hfollowed.
  destruct (Hfollowed [Respond 206 "Partial Content" None (Some "600")
                         [Data 600; EndOfStream; Flushed]])
    as [(Hset & _ & Hdisk & Hreq) _].
  destruct (Hfollowed []) as [_ Hbad].
  fold tried in Hset, Hdisk, Hreq.
  rewrite Hset, Hdisk, Hreq.
  split; [vm_compute; reflexivity|]. split; [vm_compute; reflexivity|].
  split; [vm_compute; reflexivity|]. split; [vm_compute; reflexivity|].
  exact (proj1 (Hbad 302 "Found" None [] ltac:(lia)) "/files/a.zip"
           ltac:(discriminate)).
Defined.

(** *** Bodies delivered in full, and bodies cut short *)

Lemma no_overflow (received expected : Z) :
  received ≤ expected + 1024 →
  exceeds received (overflowThreshold expected) = false.
Proof.
  intros Hle. unfold exceeds, overflowThreshold.
  apply negb_false_iff, Qle_bool_iff.
  eapply Qle_trans; [|apply Q.le_max_r].
  change (inject_Z received <= inject_Z expected + inject_Z 1024)%Q.
  rewrite <- inject_Z_plus, <- Zle_Qle. exact Hle.
Qed.

Lemma total_nonneg (lengths : list Z) :
  Forall (λ len, 0 ≤ len) lengths → 0 ≤ total lengths.
Proof. unfold total. induction 1; cbn; lia. Qed.

Lemma total_cons (len : Z) (lengths : list Z) :
  total (len :: lengths) = len + total lengths.
Proof. reflexivity. Qed.

(** Chunks that stay within the expected number of bytes are appended to
    the file one after the other. *)
Lemma receive_chunks c (on : Disk) (lengths : list Z) :
  ∀ size written downloaded : Z,
  Forall (λ len, 0 ≤ len) lengths →
  (∀ expected, expectedBytesThisSession c = Some expected →
     written + total lengths ≤ expected + 1024) →
  receive c {| disk := Some size; closed := false; ended := false;
               aborted := false; settled := None; settled_on := on;
               bytesWrittenThisSession := written;
               bytesDownloaded := downloaded |} (chunks lengths)
  = {| disk := Some (size + total lengths); closed := false; ended := false;
       aborted := false; settled := None; settled_on := on;
       bytesWrittenThisSession := written + total lengths;
       bytesDownloaded := downloaded + total lengths |}.
Proof.
  unfold receive, chunks.
  induction lengths as [|len lengths IH]; intros size written downloaded Hpos Hfit.
  - cbn. by rewrite !Z.add_0_r.
  - inversion Hpos as [|? ? Hlen Hrest]; subst.
    pose proof (proj1 (Forall_forall _ _) Hrest) as Hall.
    pose proof (total_nonneg lengths Hrest) as Hsum.
    cbn [map fold_left handle]. unfold onData.
    cbn [bytesWrittenThisSession disk closed ended aborted settled settled_on
         bytesDownloaded].
    assert (Hno : match totalBytes c, expectedBytesThisSession c with
                  | Some total, Some expected =>
                      (0 <? total)
                      && exceeds (written + len) (overflowThreshold expected)
                  | _, _ => false
                  end = false).
    { destruct (totalBytes c); [|done].
      destruct (expectedBytesThisSession c) as [expected|] eqn:He; [|done].
      rewrite no_overflow; [apply andb_false_r|].
      specialize (Hfit expected eq_refl). rewrite total_cons in Hfit. lia. }
    rewrite Hno. cbn [fmap option_fmap option_map].
    rewrite IH; [|done|].
    + rewrite total_cons. f_equal; [f_equal|..]; lia.
    + intros expected He. specialize (Hfit expected He).
      rewrite total_cons in Hfit. lia.
Qed.

Lemma receive_delivered c (size downloaded announced : Z) (lengths : list Z) :
  totalBytes c = Some announced →
  (∀ expected, expectedBytesThisSession c = Some expected →
     total lengths ≤ expected + 1024) →
  Forall (λ len, 0 ≤ len) lengths →
  size + total lengths = announced →
  announced ≤ downloaded + total lengths →
  let final :=
    receive c (started (Some size) downloaded)
            (chunks lengths ++ [EndOfStream; Close; Flushed]) in
  settled final = Some Resolve ∧ disk final = Some announced.
Proof.
  intros Htotal Hfit Hpos Hsize Hdown. cbv zeta.
  rewrite StreamDownSpec.receive_app. unfold started.
  rewrite receive_chunks; [|done|by intros expected He; apply Hfit].
  cbn [receive fold_left handle]. unfold onClose, onEnd.
  cbn [aborted bytesDownloaded]. rewrite Htotal.
  destruct (Z.ltb_spec (downloaded + total lengths) announced); [lia|].
  cbn [negb andb]. unfold onFlushed.
  cbn [ended disk getExistingFileSize]. rewrite Htotal.
  destruct (0 <? announced);
    [destruct (Z.eqb_spec (size + total lengths) announced); [|lia]|];
    cbn [negb settle settled disk]; by rewrite Hsize.
Qed.

(** The session of a response with a 2xx status that is received as the
    body of the file. *)
Lemma attemptDownload_streams opts existingSize retryAttempt (d : Disk)
    statusCode statusMessage location contentLength events script :
  200 ≤ statusCode < 300 →
  (0 < existingSize → statusCode ≠ 200) →
  let session :=
    {| totalBytes :=
         match contentLength with
         | Some header =>
             if statusCode =? 206
             then Js.num_add (Some existingSize) (Js.parseInt header)
             else Js.parseInt header
         | None => Some (default 0 (expectedSize opts))
         end;
       serverSupportsResume := statusCode =? 206;
       resumedFrom := existingSize;
       sessionSocketTimeout := default 300000 (timeout opts ≫= socketTimeout) |} in
  let finish :=
    receive session
      (started (if 0 <? existingSize then Some (getExistingFileSize d)
                else Some 0)
               (if statusCode =? 206 then existingSize else 0))
      events in
  attemptDownload opts existingSize retryAttempt d
    (Respond statusCode statusMessage location contentLength events :: script)
  = {| settlement := settled finish; disk_at_settlement := settled_on finish;
       disk_after := disk finish;
       issued := [request_to (url opts) existingSize] |}.
Proof.
  intros [Hlo Hhi] Hrange. cbn [attemptDownload]. unfold request_to, started.
  destruct (Z.leb_spec 300 statusCode); [lia|].
  destruct (Z.eqb_spec statusCode 416); [lia|].
  destruct (Z.eqb_spec statusCode 0); [lia|].
  destruct (Z.leb_spec 400 statusCode); [lia|].
  assert (Hnot : statusCode ∉ RETRYABLE_HTTP_STATUS_CODES).
  { unfold RETRYABLE_HTTP_STATUS_CODES. rewrite elem_of_list_to_set.
    rewrite !elem_of_cons, elem_of_nil. lia. }
  rewrite (bool_decide_eq_false_2 _ Hnot). cbn [negb andb].
  destruct (Z.ltb_spec 0 existingSize) as [Hres|Hfresh].
  - destruct (Z.eqb_spec statusCode 200) as [->|_]; [by destruct Hrange|].
    rewrite andb_false_r. reflexivity.
  - reflexivity.
Qed.

(** A 200 answer to a range request: the attempt starts again without
    [Range], on an empty file. *)
Lemma attemptDownload_range_ignored opts existingSize retryAttempt (d : Disk)
    statusMessage location contentLength events script :
  0 < existingSize →
  attemptDownload opts existingSize retryAttempt d
    (Respond 200 statusMessage location contentLength events :: script)
  = with_issued (request_to (url opts) existingSize)
      (attemptDownload (without_resume opts) 0 retryAttempt None script).
Proof.
  intros Hres. cbn [attemptDownload]. unfold request_to.
  destruct (Z.ltb_spec 0 existingSize); [|lia].
  replace (bool_decide (200 ∈ RETRYABLE_HTTP_STATUS_CODES)) with false
    by (vm_compute; reflexivity).
  reflexivity.
Qed.

(** X4. A body that delivers exactly the announced number of bytes, and
    then ends, closes and is flushed to the file, completes the attempt,
    with a file of the right size, in each of the three ways a transfer can
    go: a fresh download answered with 200; a
    resumed download answered with 206, whose [Content-Length] counts the
    remaining bytes; and a resumed download whose [Range] header the server
    ignores (200), which is started again from an empty file within the same
    attempt, so that the bytes that were on disk are not kept. *)
Theorem delivery_completes (opts : StreamDownOptions) (retryAttempt : Z)
    (statusMessage header : string) (location : option Location)
    (announced : Z) (lengths : list Z) :
  Js.parseInt header = Some announced →
  0 < announced →
  Forall (λ len, 0 ≤ len) lengths →
  total lengths = announced →
  let body := (chunks lengths ++ [EndOfStream; Close; Flushed])%list in
  (∀ d : Disk,
     let tried :=
       attemptDownload opts 0 retryAttempt d
         [Respond 200 statusMessage location (Some header) body] in
     settlement tried = Some Resolve ∧ disk_after tried = Some announced)
  ∧ (∀ (d : Disk) (existingSize : Z),
       0 < existingSize → getExistingFileSize d = existingSize →
       let tried :=
         attemptDownload opts existingSize retryAttempt d
           [Respond 206 statusMessage location (Some header) body] in
       settlement tried = Some Resolve
       ∧ disk_after tried = Some (existingSize + announced))
  ∧ (∀ (d : Disk) (existingSize : Z) ignored,
       0 < existingSize →
       let tried :=
         attemptDownload opts existingSize retryAttempt d
           [Respond 200 statusMessage location (Some header) ignored;
            Respond 200 statusMessage location (Some header) body] in
       settlement tried = Some Resolve
       ∧ disk_after tried = Some announced
       ∧ issued tried = [request_to (url opts) existingSize;
                         request_to (url opts) 0]).
Proof.
  intros Hparse Hpos Hlen Hsum body.
  assert (Hfresh : ∀ opts' (d : Disk),
    let tried :=
      attemptDownload opts' 0 retryAttempt d
        [Respond 200 statusMessage location (Some header) body] in
    settlement tried = Some Resolve ∧ disk_after tried = Some announced
    ∧ issued tried = [request_to (url opts') 0]).
  { intros opts' d. cbv zeta.
    rewrite attemptDownload_streams by lia.
    cbn [settlement disk_after issued Z.ltb Z.eqb Z.compare Pos.eqb].
    rewrite Hparse.
    split; [|split; [|done]];
      apply (receive_delivered _ 0 0 announced lengths); try done; try lia.
    all: unfold expectedBytesThisSession; cbn; intros ? [= <-]; lia. }
  split; [|split].
  - intros d tried. destruct (Hfresh opts d) as (? & ? & ?). done.
  - intros d existingSize Hres Hd. cbv zeta.
    rewrite attemptDownload_streams by lia.
    cbn [settlement disk_after Z.eqb Pos.eqb]. rewrite Hparse, Hd.
    destruct (Z.ltb_spec 0 existingSize); [|lia]. cbn [Js.num_add].
    apply (receive_delivered _ existingSize existingSize
             (existingSize + announced) lengths); try done; try lia.
    unfold expectedBytesThisSession; cbn; intros ? [= <-]; lia.
  - intros d existingSize ignored Hres. cbv zeta.
    rewrite attemptDownload_range_ignored by done.
    destruct (Hfresh (without_resume opts) None) as (Hset & Hdisk & Hreq).
    cbn [with_issued settlement disk_after issued].
    rewrite Hset, Hdisk, Hreq. done.
Qed.

Lemma delivery_completes_witness :
  let body := [Data 250; Data 350; EndOfStream; Close; Flushed] in
  settlement (attemptDownload sample_opts 400 0 (Some 400)
                [Respond 206 "Partial Content" None (Some "600") body])
  = Some Resolve
  ∧ disk_after (attemptDownload sample_opts 400 0 (Some 400)
                  [Respond 206 "Partial Content" None (Some "600") body])
    = Some 1000.
Proof.
  exact (proj1 (proj2
    (delivery_completes sample_opts 0 "Partial Content" "600" None 600
       [250; 350] eq_refl ltac:(lia)
       ltac:(repeat constructor; lia) eq_refl))
    (Some 400) 400 ltac:(lia) eq_refl).
Defined.

Lemma abortWithError_never_resolves error t :
  settled t = None → settled (abortWithError error t) ≠ Some Resolve.
Proof.
  intros Hnone. unfold abortWithError, settle.
  destruct (aborted t); cbn [settled]; rewrite Hnone; discriminate.
Qed.

(** Of the handlers, only the flush callback resolves the promise, and then
    only when the file has the announced size. *)
Lemma handle_resolves c t e :
  settled t = None → settled (handle c t e) = Some Resolve →
  e = Flushed ∧ ended t = true
  ∧ ∀ announced, totalBytes c = Some announced → 0 < announced →
      disk t = Some announced.
Proof.
  intros Hnone Hres. destruct e; cbn [handle] in Hres.
  - unfold onData in Hres.
    destruct (match totalBytes c with Some _ => _ | None => _ end).
    + by apply abortWithError_never_resolves in Hres.
    + cbn [settled] in Hres. congruence.
  - cbn in Hres. congruence.
  - split; [done|]. unfold onFlushed in Hres.
    destruct (ended t) eqn:Hended; [|congruence]. split; [done|].
    intros announced Htotal Hpos. rewrite Htotal in Hres.
    destruct (Z.ltb_spec 0 announced); [|lia].
    destruct (Z.eqb_spec (getExistingFileSize (disk t)) announced) as [Heq|Hne];
      cbn [negb] in Hres.
    + destruct (disk t) as [size|]; cbn in Heq; [by subst|lia].
    + unfold settle in Hres. cbn [settled set_disk] in Hres.
      rewrite Hnone in Hres. discriminate.
  - by apply abortWithError_never_resolves in Hres.
  - unfold onClose in Hres.
    destruct (totalBytes c); [|congruence].
    destruct (negb (aborted t) && _ && _); [|congruence].
    by apply abortWithError_never_resolves in Hres.
  - by apply abortWithError_never_resolves in Hres.
Qed.

(** X5. An attempt never reports success on a file of the wrong size: when
    the total is known, the promise is resolved only by a flush callback
    that runs after the end of the response, at a moment when nothing has
    settled the promise before and the file on disk has exactly the
    announced size. *)
Theorem resolves_only_when_complete (c : Session) (announced : Z)
    (events : list BodyEvent) (start : Transfer) :
  totalBytes c = Some announced → 0 < announced →
  settled start = None →
  settled (receive c start events) = Some Resolve →
  ∃ before after,
    events = (before ++ Flushed :: after)%list
    ∧ settled (receive c start before) = None
    ∧ ended (receive c start before) = true
    ∧ disk (receive c start before) = Some announced.
Proof.
  intros Htotal Hpos Hstart.
  induction events as [|e events IH] using rev_ind; intros Hres.
  - cbn in Hres. congruence.
  - rewrite StreamDownSpec.receive_app in Hres. cbn [receive fold_left] in Hres.
    destruct (settled (receive c start events)) as [s|] eqn:Hsettled.
    + pose proof (StreamDownSpec.handle_settled c _ e s Hsettled) as Hkept.
      rewrite Hkept in Hres. injection Hres as ->.
      destruct (IH eq_refl) as (before & after & -> & Hnone & Hended & Hdisk).
      exists before, (after ++ [e])%list.
      by rewrite <- app_assoc.
    + destruct (handle_resolves c _ e Hsettled Hres) as (-> & Hended & Hdisk).
      exists events, []. eauto.
Qed.

Lemma resolves_only_when_complete_witness :
  ∃ before after,
    [Data 600; Data 400; EndOfStream; Flushed; Close]
    = (before ++ Flushed :: after)%list
    ∧ disk (receive
              {| totalBytes := Some 1000; serverSupportsResume := false;
                 resumedFrom := 0; sessionSocketTimeout := 300000 |}
              (started (Some 0) 0) before) = Some 1000.
Proof.
  destruct (resolves_only_when_complete
              {| totalBytes := Some 1000; serverSupportsResume := false;
                 resumedFrom := 0; sessionSocketTimeout := 300000 |}
              1000 [Data 600; Data 400; EndOfStream; Flushed; Close]
              (started (Some 0) 0) eq_refl ltac:(lia) eq_refl
              ltac:(vm_compute; reflexivity))
    as (before & after & Heq & _ & _ & Hdisk).
  exists before, after. split; assumption.
Defined.

(** *** Transfers of unknown size *)

(** X26. The integrity checks need a size: when the response has no
    [Content-Length] and the options give no expected size, or a size that is
    not positive, a fresh download resolves as soon as the response ends and
    the file is flushed, with whatever number of bytes arrived, whether or
    not the connection closed before the end. *)
Theorem unknown_size_is_unchecked (opts : StreamDownOptions) (retryAttempt : Z)
    (d : Disk) (statusMessage : string) (location : option Location)
    (lengths : list Z) (closed_early : bool) :
  default 0 (expectedSize opts) ≤ 0 →
  Forall (λ len, 0 ≤ len) lengths →
  let body :=
    (chunks lengths
     ++ (if closed_early then [Close; EndOfStream; Flushed]
         else [EndOfStream; Close; Flushed]))%list in
  let tried :=
    attemptDownload opts 0 retryAttempt d
      [Respond 200 statusMessage location None body] in
  settlement tried = Some Resolve ∧ disk_after tried = Some (total lengths).
Proof.
  intros Hunknown Hlen body tried. subst tried body.
  rewrite attemptDownload_streams by lia.
  cbn [settlement disk_after Z.ltb Z.eqb Z.compare Pos.eqb].
  rewrite StreamDownSpec.receive_app. unfold started.
  assert (Hzero : (0 <? default 0 (expectedSize opts)) = false).
  { by destruct (Z.ltb_spec 0 (default 0 (expectedSize opts))); [lia|]. }
  assert (Hfed : ∀ c, totalBytes c = Some (default 0 (expectedSize opts)) →
    receive c {| disk := Some 0; closed := false; ended := false;
                 aborted := false; settled := None; settled_on := Some 0;
                 bytesWrittenThisSession := 0; bytesDownloaded := 0 |}
            (chunks lengths)
    = {| disk := Some (total lengths); closed := false; ended := false;
         aborted := false; settled := None; settled_on := Some 0;
         bytesWrittenThisSession := total lengths;
         bytesDownloaded := total lengths |}).
  { intros c Hc. clear -Hlen Hzero Hc.
    assert (Hgen : ∀ size written downloaded,
      receive c {| disk := Some size; closed := false; ended := false;
                   aborted := false; settled := None; settled_on := Some 0;
                   bytesWrittenThisSession := written;
                   bytesDownloaded := downloaded |} (chunks lengths)
      = {| disk := Some (size + total lengths); closed := false;
           ended := false; aborted := false; settled := None;
           settled_on := Some 0;
           bytesWrittenThisSession := written + total lengths;
           bytesDownloaded := downloaded + total lengths |}).
    { unfold receive, chunks.
      induction lengths as [|len lengths IH]; intros size written downloaded.
      - cbn. by rewrite !Z.add_0_r.
      - inversion Hlen; subst. cbn [map fold_left handle]. unfold onData.
        rewrite Hc, Hzero.
        destruct (expectedBytesThisSession c);
          cbn [andb closed disk fmap option_fmap option_map settled_on
               bytesWrittenThisSession bytesDownloaded ended aborted settled];
          rewrite IH by done; rewrite total_cons; (f_equal; [f_equal|..]; lia). }
    apply (Hgen 0 0 0). }
  rewrite Hfed by done.
  destruct closed_early; cbn [receive fold_left handle]; unfold onClose, onEnd;
    cbn [totalBytes aborted bytesDownloaded]; rewrite Hzero, ?andb_false_r;
    unfold onFlushed; cbn [ended totalBytes]; rewrite Hzero; done.
Qed.

Lemma unknown_size_is_unchecked_witness :
  (* 400 bytes arrive, the connection closes, the stream ends *)
  settlement (attemptDownload sample_opts_unknown_size 0 0 None
                [Respond 200 "OK" None None
                   [Data 250; Data 150; Close; EndOfStream; Flushed]])
  = Some Resolve
  ∧ disk_after (attemptDownload sample_opts_unknown_size 0 0 None
                  [Respond 200 "OK" None None
                     [Data 250; Data 150; Close; EndOfStream; Flushed]])
    = Some 400.
Proof.
  exact (unknown_size_is_unchecked sample_opts_unknown_size 0 None "OK" None
           [250; 150] true ltac:(cbn; lia) ltac:(repeat constructor; lia)).
Defined.

(** *** A connection that closes early *)

Lemma receive_cut_short c (size downloaded announced : Z) (lengths : list Z) :
  totalBytes c = Some announced → 0 < announced →
  (∀ expected, expectedBytesThisSession c = Some expected →
     total lengths ≤ expected + 1024) →
  Forall (λ len, 0 ≤ len) lengths →
  downloaded + total lengths < announced →
  let final :=
    receive c (started (Some size) downloaded) (chunks lengths ++ [Close]) in
  settled final
  = Some (Reject (premature_close_error (downloaded + total lengths) announced))
  ∧ settled_on final = Some (size + total lengths)
  ∧ disk final = Some (size + total lengths).
Proof.
  intros Htotal Hpos Hfit Hlen Hshort. cbv zeta.
  rewrite StreamDownSpec.receive_app. unfold started.
  rewrite receive_chunks; [|done|by intros expected He; apply Hfit].
  cbn [receive fold_left handle]. unfold onClose.
  cbn [aborted bytesDownloaded]. rewrite Htotal.
  destruct (Z.ltb_spec (downloaded + total lengths) announced); [|lia].
  destruct (Z.ltb_spec 0 announced); [|lia].
  cbn [negb andb]. unfold abortWithError, settle.
  cbn [aborted settled settled_on disk]. eauto.
Qed.

(** An iteration that is entered reports first, whatever comes next. *)
Lemma loop_trace_starts calculateBackoff opts script scripts attempt
    restartCount lastError (d : Disk) :
  attempt ≤ default 5 (retry opts ≫= maxRetries) →
  ∃ later,
    trace (streamDown_loop calculateBackoff opts (script :: scripts) attempt
             restartCount lastError d)
    = (reported opts attempt d script ++ later)%list.
Proof.
  intros Hle. rewrite StreamDownSpec.loop_step by done. cbv zeta.
  destruct (settlement (attempt_of opts attempt d script)) as [[|error]|].
  - exists []. by rewrite app_nil_r.
  - destruct (requiresRestart error);
      [destruct (maxRestarts <? restartCount + 1)|
       destruct (negb (isRetryableError error) || _)];
      cbn [trace with_events]; rewrite <- ?app_assoc; eauto;
      exists []; by rewrite app_nil_r.
  - exists []. by rewrite app_nil_r.
Qed.

Lemma prepare_partial opts (size : Z) :
  enableResume opts ≠ Some false → 0 < size →
  (default 0 (expectedSize opts) ≤ 0 ∨ size < default 0 (expectedSize opts)) →
  prepare opts (Some size)
  = ({| resumeFromBytes := size; wasDeleted := false |}, Some size).
Proof.
  intros Hresume Hpos Hroom. unfold prepare, validatePartialFile.
  rewrite (bool_decide_eq_false_2 _ Hresume). cbn [negb getExistingFileSize].
  destruct (Z.eqb_spec size 0); [lia|].
  destruct (Z.leb_spec (default 0 (expectedSize opts)) 0); [done|].
  destruct (Z.leb_spec (default 0 (expectedSize opts)) size); [lia|done].
Qed.

Lemma prepare_absent opts :
  prepare opts None = ({| resumeFromBytes := 0; wasDeleted := false |}, None).
Proof.
  unfold prepare, validatePartialFile.
  by destruct (negb (bool_decide (enableResume opts = Some false))).
Qed.

(** X6. A fresh download whose connection closes before the announced
    number of bytes has arrived is rejected with ECONNRESET, an error that
    is retryable; the bytes received stay on disk; and, while retries are
    left, the loop sleeps and makes the next attempt as a resumption: it asks
    for the range that starts at the number of bytes received, and appends to
    the file. *)
Theorem interrupted_download_resumes (calculateBackoff : Z → Z → Z → Z → Z)
    (opts : StreamDownOptions) (statusMessage header : string)
    (location : option Location) (announced : Z) (lengths : list Z)
    (rest next : list Exchange) (scripts : list (list Exchange))
    (attempt restartCount : Z) (lastError : option JsError) :
  enableResume opts ≠ Some false →
  Js.parseInt header = Some announced →
  Forall (λ len, 0 ≤ len) lengths →
  0 < total lengths < announced →
  (default 0 (expectedSize opts) ≤ 0
   ∨ total lengths < default 0 (expectedSize opts)) →
  attempt < default 5 (retry opts ≫= maxRetries) →
  let cut :=
    Respond 200 statusMessage location (Some header) (chunks lengths ++ [Close])
    :: rest in
  let tried := attempt_of opts attempt None cut in
  let run :=
    streamDown_loop calculateBackoff opts (cut :: next :: scripts) attempt
                    restartCount lastError None in
  let error :=
    {| code := Some "ECONNRESET";
       message := "Connection closed prematurely: downloaded "
                  ++ Js.show (total lengths) ++ " of " ++ Js.show announced
                  ++ " bytes";
       requiresRestart := false |} in
  settlement tried = Some (Reject error)
  ∧ isRetryableError error = true
  ∧ disk_after tried = Some (total lengths)
  ∧ ∃ delay requests later,
      trace run
      = Attempted attempt 0 [fresh_start opts] :: Slept delay
        :: Attempted (attempt + 1) (total lengths)
                     (resume_from opts (total lengths) :: requests)
        :: later.
Proof.
  intros Hresume Hparse Hlen [Hsome Hshort] Hroom Hleft cut tried run error.
  set (session :=
         {| totalBytes := Some announced; serverSupportsResume := false;
            resumedFrom := 0;
            sessionSocketTimeout :=
              default 300000 (timeout opts ≫= socketTimeout) |}).
  assert (Hcut : tried
    = {| settlement :=
           settled (receive session (started (Some 0) 0)
                            (chunks lengths ++ [Close]));
         disk_at_settlement :=
           settled_on (receive session (started (Some 0) 0)
                               (chunks lengths ++ [Close]));
         disk_after :=
           disk (receive session (started (Some 0) 0)
                         (chunks lengths ++ [Close]));
         issued := [fresh_start opts] |}).
  { unfold tried, attempt_of, cut. rewrite prepare_absent.
    cbn [fst snd resumeFromBytes].
    rewrite attemptDownload_streams by lia.
    cbn [Z.eqb Z.ltb Z.compare Pos.eqb]. by rewrite Hparse. }
  destruct (receive_cut_short session 0 0 announced lengths eq_refl ltac:(lia)
              ltac:(unfold expectedBytesThisSession; cbn; intros ? [= <-]; lia)
              Hlen ltac:(lia))
    as (Hset & Hmeasured & Hdisk).
  rewrite !Z.add_0_l in *.
  change (premature_close_error (total lengths) announced) with error in Hset.
  assert (Hretry : isRetryableError error = true).
  { apply StreamDownSpec.isRetryableError_code. vm_compute. reflexivity. }
  split; [by rewrite Hcut|]. split; [done|]. split; [by rewrite Hcut|].
  destruct (loop_trace_starts calculateBackoff opts next scripts
              (attempt + 1) restartCount (Some error) (Some (total lengths))
              ltac:(lia))
    as (later & Hnext).
  pose proof (StreamDownSpec.attemptDownload_first_request opts (total lengths)
                (attempt + 1) (Some (total lengths)) next) as Hfirst.
  destruct (issued (attemptDownload opts (total lengths) (attempt + 1)
                      (Some (total lengths)) next))
    as [|request requests] eqn:Hissued; [discriminate|].
  injection Hfirst as ->.
  destruct (Z.ltb_spec 0 (total lengths)); [|lia].
  eexists _, requests, later. unfold run.
  rewrite StreamDownSpec.loop_step by lia. cbv zeta.
  fold cut. fold tried. rewrite Hcut. cbn [settlement disk_after].
  rewrite Hset. cbn [requiresRestart error]. fold error. rewrite Hretry.
  destruct (Z.leb_spec (default 5 (retry opts ≫= maxRetries)) attempt); [lia|].
  cbn [negb orb trace with_events]. rewrite Hdisk, Hnext.
  unfold reported. rewrite prepare_absent. fold tried. rewrite Hcut.
  unfold attempt_of. rewrite prepare_partial by (done || lia).
  cbn [fst snd wasDeleted resumeFromBytes issued app]. rewrite Hissued.
  reflexivity.
Qed.

Lemma interrupted_download_resumes_witness :
  let cut := [Respond 200 "OK" None (Some "1000") [Data 250; Data 150; Close]] in
  (∃ error,
     settlement (attempt_of sample_opts 0 None cut) = Some (Reject error)
     ∧ code error = Some "ECONNRESET"
     ∧ isRetryableError error = true)
  ∧ disk_after (attempt_of sample_opts 0 None cut) = Some 400
  ∧ ∃ delay requests later,
      trace (streamDown steady_backoff sample_opts None
               [ cut;
                 [Respond 206 "Partial Content" None (Some "600")
                    [Data 600; EndOfStream; Close; Flushed]] ])
      = Attempted 0 0 [fresh_start sample_opts] :: Slept delay
        :: Attempted 1 400 (resume_from sample_opts 400 :: requests) :: later.
Proof.
  destruct (interrupted_download_resumes steady_backoff sample_opts "OK" "1000"
              None 1000 [250; 150] []
              [Respond 206 "Partial Content" None (Some "600")
                 [Data 600; EndOfStream; Close; Flushed]] [] 0 0 None
              ltac:(discriminate) eq_refl ltac:(repeat constructor; lia)
              ltac:(cbn; lia) ltac:(right; cbn; lia) ltac:(cbn; lia))
    as (Hset & Hretry & Hdisk & Htrace).
  split; [|split; [exact Hdisk|exact Htrace]].
  eexists. split; [exact Hset|]. split; [reflexivity|exact Hretry].
Defined.

(** *** The loop comes to an end *)

Lemma attempts_app (xs ys : list LoopEvent) :
  attempts (xs ++ ys) = (attempts xs + attempts ys)%nat.
Proof. unfold attempts. by rewrite List.filter_app, length_app. Qed.

Lemma attempts_reported opts attempt d script :
  attempts (reported opts attempt d script) = 1%nat.
Proof.
  unfold reported. rewrite attempts_app.
  by destruct (wasDeleted (prepare opts d).1).
Qed.

Section Termination.
Variable calculateBackoff : Z → Z → Z → Z → Z.
Variable opts : StreamDownOptions.

Abbreviation retries := (default 5 (retry opts ≫= maxRetries)).
Abbreviation loop := (streamDown_loop calculateBackoff opts).

(** The iterations that can still be made. *)
Abbreviation budget attempt restartCount :=
  (Z.to_nat (retries - attempt + 1) + Z.to_nat (maxRestarts - restartCount))%nat.

Lemma attempts_bounded scripts : ∀ attempt restartCount lastError (d : Disk),
  (attempts (trace (loop scripts attempt restartCount lastError d))
   ≤ budget attempt restartCount)%nat.
Proof.
  induction scripts as [|script scripts IH];
    intros attempt restartCount lastError d.
  { cbn [streamDown_loop]. destruct (attempt <=? retries); cbn; lia. }
  destruct (Z.le_gt_cases attempt retries) as [Hle|Hgt].
  2: { destruct (StreamDownSpec.loop_exhausted calculateBackoff opts
                   (script :: scripts) attempt restartCount lastError d
                   ltac:(lia)) as [_ ->]. cbn. lia. }
  rewrite StreamDownSpec.loop_step by done. cbv zeta.
  pose proof (attempts_reported opts attempt d script) as Hone.
  destruct (settlement (attempt_of opts attempt d script)) as [[|error]|];
    cbn [trace]; try (rewrite Hone; lia).
  destruct (requiresRestart error).
  - destruct (Z.ltb_spec maxRestarts (restartCount + 1));
      cbn [trace with_events]; [rewrite Hone; lia|].
    rewrite !attempts_app, Hone.
    specialize (IH attempt (restartCount + 1) (Some error)
                   (disk_after (attempt_of opts attempt d script))).
    cbn [attempts List.filter is_attempt length] in *. unfold maxRestarts in *.
    lia.
  - destruct (negb (isRetryableError error)); cbn [orb trace];
      [rewrite Hone; lia|].
    destruct (Z.leb_spec retries attempt); cbn [trace with_events];
      [rewrite Hone; lia|].
    rewrite !attempts_app, Hone.
    specialize (IH (attempt + 1) restartCount (Some error)
                   (disk_after (attempt_of opts attempt d script))).
    cbn [attempts List.filter is_attempt length] in *. lia.
Qed.

Lemma last_reported attempt (d : Disk) script :
  last (reported opts attempt d script)
  = Some (Attempted attempt (resumeFromBytes (prepare opts d).1)
                    (issued (attempt_of opts attempt d script))).
Proof. unfold reported. by rewrite last_snoc. Qed.

(** With a script for every iteration that can be made, a run without
    result waits for the attempt it made last. *)
Lemma loop_waits scripts : ∀ attempt restartCount lastError (d : Disk),
  (budget attempt restartCount ≤ length scripts)%nat →
  result (loop scripts attempt restartCount lastError d) = None →
  waits_for_attempt opts scripts
    (loop scripts attempt restartCount lastError d).
Proof.
  induction scripts as [|script scripts IH];
    intros attempt restartCount lastError d Hlen.
  { cbn [length] in Hlen.
    destruct (StreamDownSpec.loop_exhausted calculateBackoff opts []
                attempt restartCount lastError d ltac:(lia)) as [-> _].
    discriminate. }
  destruct (Z.le_gt_cases attempt retries) as [Hle|Hgt].
  2: { destruct (StreamDownSpec.loop_exhausted calculateBackoff opts
                   (script :: scripts) attempt restartCount lastError d
                   ltac:(lia)) as [-> _]. discriminate. }
  rewrite StreamDownSpec.loop_step by done. cbv zeta.
  assert (Hlater : ∀ events rest,
            events ≠ [] →
            waits_for_attempt opts scripts rest →
            waits_for_attempt opts (script :: scripts)
              (with_events (reported opts attempt d script ++ events) rest)).
  { intros events rest Hevents (attempt' & d' & script' & Hin & Hpending & Hlast).
    exists attempt', d', script'. split; [by right|]. split; [done|].
    unfold with_events; cbn [trace]. by rewrite last_app, Hlast. }
  destruct (settlement (attempt_of opts attempt d script)) as [[|error]|]
    eqn:Hsettled; [discriminate| |].
  - cbn [length] in Hlen.
    destruct (requiresRestart error).
    + destruct (Z.ltb_spec maxRestarts (restartCount + 1));
        cbn [result with_events]; [discriminate|].
      intros Hnone. apply Hlater; [discriminate|].
      apply IH; [unfold maxRestarts in *; lia|done].
    + destruct (negb (isRetryableError error)); cbn [orb result];
        [discriminate|].
      destruct (Z.leb_spec retries attempt); cbn [result with_events];
        [discriminate|].
      intros Hnone. apply Hlater; [discriminate|].
      apply IH; [lia|done].
  - intros _. exists attempt, d, script. split; [by left|]. split; [done|].
    cbn [trace]. apply last_reported.
Qed.

End Termination.

Section Failure.
Variable calculateBackoff : Z → Z → Z → Z → Z.
Variable opts : StreamDownOptions.

Abbreviation retries := (default 5 (retry opts ≫= maxRetries)).
Abbreviation loop := (streamDown_loop calculateBackoff opts).

Lemma loop_failure scripts : ∀ attempt restartCount lastError (d : Disk) error,
  0 ≤ attempt ≤ retries →
  result (loop scripts attempt restartCount lastError d) = Some (Failed error) →
  1 ≤ de_attempts error ≤ retries + 1
  ∧ (de_isRetryable error = true → de_attempts error = retries + 1).
Proof.
  induction scripts as [|script scripts IH];
    intros attempt restartCount lastError d error Hrange.
  { cbn [streamDown_loop]. destruct (Z.leb_spec attempt retries); [done|lia]. }
  rewrite StreamDownSpec.loop_step by lia. cbv zeta.
  destruct (settlement (attempt_of opts attempt d script)) as [[|rejected]|]
    eqn:Hsettled; cbn [result]; try done.
  destruct (requiresRestart rejected) eqn:Hrestart.
  - destruct (maxRestarts <? restartCount + 1); cbn [result with_events].
    + intros [= <-]. cbn [de_attempts de_isRetryable]. split; [lia|done].
    + apply IH. lia.
  - destruct (isRetryableError rejected) eqn:Hretryable; cbn [negb orb].
    + destruct (Z.leb_spec retries attempt); cbn [result with_events].
      * intros [= <-]. cbn [de_attempts de_isRetryable]. split; lia.
      * apply IH. lia.
    + intros [= <-]. cbn [de_attempts de_isRetryable]. split; [lia|done].
Qed.

End Failure.

(** X7. Whenever [streamDown] fails, with a [maxRetries] that is not
    negative, the error reports at least one attempt and at most
    [maxRetries + 1]; and an error flagged as retryable is reported only
    when all [maxRetries + 1] attempts have been used. *)
Theorem failure_report (calculateBackoff : Z → Z → Z → Z → Z)
    (opts : StreamDownOptions) (d : Disk) (scripts : list (list Exchange))
    (error : DownloadError) :
  0 ≤ default 5 (retry opts ≫= maxRetries) →
  result (streamDown calculateBackoff opts d scripts) = Some (Failed error) →
  1 ≤ de_attempts error ≤ default 5 (retry opts ≫= maxRetries) + 1
  ∧ (de_isRetryable error = true →
     de_attempts error = default 5 (retry opts ≫= maxRetries) + 1).
Proof.
  intros Hretries Hfailed.
  apply (loop_failure calculateBackoff opts scripts 0 0 None d error);
    [lia|exact Hfailed].
Qed.

Lemma failure_report_witness :
  ∃ error,
    result (streamDown steady_backoff sample_resumable None
              (replicate 3 [RequestError (Some "ECONNRESET") "reset"]))
    = Some (Failed error)
    ∧ de_isRetryable error = true
    ∧ de_attempts error = 3.
Proof.
  eexists. split; [reflexivity|]. split; [reflexivity|].
  apply (failure_report steady_backoff sample_resumable None
           (replicate 3 [RequestError (Some "ECONNRESET") "reset"]));
    [cbn; lia|reflexivity|reflexivity].
Defined.

(** X8. [streamDown] comes to an end: it calls [attemptDownload] at most
    [maxRetries + 1] times plus the three restarts from scratch (nine times
    under the default configuration), whatever happens to the requests; and
    given what happens to the requests of that many attempts, the run returns
    or throws unless it is waiting for the attempt it made last, whose
    promise has not settled. *)
Theorem streamDown_terminates (calculateBackoff : Z → Z → Z → Z → Z)
    (opts : StreamDownOptions) (d : Disk) (scripts : list (list Exchange)) :
  let bound := (Z.to_nat (default 5%Z (retry opts ≫= maxRetries) + 1) + 3)%nat in
  let run := streamDown calculateBackoff opts d scripts in
  (attempts (trace run) ≤ bound)%nat
  ∧ ((bound ≤ length scripts)%nat →
     is_Some (result run) ∨ waits_for_attempt opts scripts run).
Proof.
  intros bound run. unfold run, streamDown. split.
  - pose proof (attempts_bounded calculateBackoff opts scripts 0 0 None d) as H.
    unfold bound, maxRestarts in *.
    replace (default 5 (retry opts ≫= maxRetries) - 0 + 1)
      with (default 5 (retry opts ≫= maxRetries) + 1) in H by lia.
    exact H.
  - intros Hlen.
    destruct (result (streamDown_loop calculateBackoff opts scripts 0 0 None d))
      as [r|] eqn:Hresult; [left; eauto|right].
    apply loop_waits; [|done]. unfold bound, maxRestarts in *.
    replace (default 5 (retry opts ≫= maxRetries) - 0 + 1)
      with (default 5 (retry opts ≫= maxRetries) + 1) by lia.
    exact Hlen.
Qed.

Lemma streamDown_terminates_witness :
  (* a download that succeeds at once: the scripts that are left over do not
     matter *)
  let scripts :=
    [Respond 200 "OK" None (Some "1000")
       [Data 600; Data 400; EndOfStream; Close; Flushed]]
    :: replicate 8 [] in
  let run := streamDown steady_backoff sample_opts None scripts in
  (attempts (trace run) ≤ 9)%nat
  ∧ result run = Some Succeeded
  ∧ (is_Some (result run) ∨ waits_for_attempt sample_opts scripts run).
Proof.
  intros scripts run.
  destruct (streamDown_terminates steady_backoff sample_opts None scripts)
    as [Hbound Hends].
  split; [exact Hbound|]. split; [reflexivity|].
  apply Hends. cbn. lia.
Defined.

End TransfersSpec.

(** ** The retry delay *)
Module BackoffSpec.
Import Backoff.

Lemma round_bounds (x : Q) :
  (inject_Z (round x) <= x + 0.5)%Q ∧ (x - 0.5 < inject_Z (round x))%Q.
Proof.
  unfold round. pose proof (Qfloor_le (x + 0.5)) as Hle.
  pose proof (Qlt_floor (x + 0.5)) as Hlt.
  rewrite inject_Z_plus in Hlt. change (inject_Z 1) with 1%Q in Hlt.
  split; lra.
Qed.

(** X9. For finite numbers that are not negative, computed exactly: the
    delay before a retry stays within a quarter of the capped exponential
    delay [min (initialBackoff * multiplier ^ attempt) maxBackoff] (up to the
    rounding to an integer), whatever [Math.random] returns; in particular it
    never exceeds [maxBackoff] by more than a quarter, and it is never
    negative. *)
Theorem calculateBackoff_bounds (random : Q) (attempt : Z)
    (initialBackoff maxBackoff multiplier : Q) :
  (0 <= random)%Q → (random < 1)%Q →
  0 ≤ attempt →
  (0 <= initialBackoff)%Q → (0 <= multiplier)%Q → (0 <= maxBackoff)%Q →
  let capped := Qmin (initialBackoff * multiplier ^ attempt) maxBackoff in
  let delay :=
    inject_Z
      (calculateBackoff random attempt initialBackoff maxBackoff multiplier) in
  (0.75 * capped - 0.5 < delay)%Q
  ∧ (delay <= 1.25 * capped + 0.5)%Q
  ∧ (delay <= 1.25 * maxBackoff + 0.5)%Q
  ∧ (0 <= delay)%Q.
Proof.
  intros Hr0 Hr1 Hattempt Hinitial Hmult Hmax capped delay.
  assert (Hpow : (0 <= multiplier ^ attempt)%Q) by (by apply Qpower_0_le).
  assert (Hexp : (0 <= initialBackoff * multiplier ^ attempt)%Q)
    by (by apply Qmult_le_0_compat).
  assert (Hcap0 : (0 <= capped)%Q) by (by apply Q.min_glb).
  assert (Hcap1 : (capped <= maxBackoff)%Q) by apply Q.le_min_r.
  unfold delay, calculateBackoff. fold capped.
  set (x := (capped + capped * 0.25 * (random * 2 - 1))%Q).
  destruct (round_bounds x) as [Hup Hdown].
  set (p := (capped * random)%Q).
  assert (Hp0 : (0 <= p)%Q) by (unfold p; nra).
  assert (Hp1 : (p <= capped)%Q) by (unfold p; nra).
  assert (Hx : (x == 0.75 * capped + 0.5 * p)%Q) by (unfold x, p; ring).
  assert (Hnonneg : 0 ≤ round x).
  { assert (Hlt : (inject_Z (-1) < inject_Z (round x))%Q).
    { change (inject_Z (-1)) with (-1)%Q. clearbody p x capped. lra. }
    rewrite <- Zlt_Qlt in Hlt. lia. }
  assert (Hzero : (0 <= inject_Z (round x))%Q).
  { change 0%Q with (inject_Z 0). by rewrite <- Zle_Qle. }
  clearbody p x capped.
  repeat split; lra.
Qed.

Lemma calculateBackoff_bounds_witness :
  (* the fourth retry under the default configuration, in the middle of the
     jitter range and at its lower end *)
  calculateBackoff 0.5 3 5000 60000 2 = 40000
  ∧ calculateBackoff 0 3 5000 60000 2 = 30000
  (* a multiplier of one and a half: 5000 * 3.375 = 16875 *)
  ∧ calculateBackoff 0.5 3 5000 60000 1.5 = 16875
  ∧ (inject_Z (calculateBackoff 0.999 5 5000 60000 1.5)
     <= 1.25 * Qmin (5000 * 1.5 ^ 5) 60000 + 0.5)%Q.
Proof.
  split; [reflexivity|]. split; [reflexivity|]. split; [reflexivity|].
  exact (proj1 (proj2 (calculateBackoff_bounds 0.999 5 5000 60000 1.5
                  ltac:(compute; discriminate) ltac:(reflexivity)
                  ltac:(lia) ltac:(compute; discriminate)
                  ltac:(compute; discriminate) ltac:(compute; discriminate)))).
Defined.

End BackoffSpec.

(** ** The bulk-indexing driver under any configuration *)
Module BulkIndexTraceSpec.
Import BulkIndex BulkIndexNotions.

Section Trace.
Context {Body : Type}.
Variables (env : Env) (body : Body) (refresh : bool).

Abbreviation sent :=
  (refresh, body, Js.or_str (ADDRESSR_INDEX_TIMEOUT env) "300s").

Lemma loop_trace (replies : list BulkReply) : ∀ (backoff : Js.num) (count : Z),
  let run := sendIndexRequest_loop env body refresh replies backoff count in
  requests run.1 = replicate (S (leading_failures replies)) sent
  ∧ length (delays run.1) = leading_failures replies
  ∧ (run.2 = Returned ↔ Exists (λ reply, failed reply = false) replies).
Proof.
  induction replies as [|reply replies IH]; intros backoff count.
  - cbn. repeat split; try done. intros H. inversion H.
  - cbn [sendIndexRequest_loop leading_failures].
    destruct (failed reply) eqn:Hfailed.
    + specialize (IH
        (Js.num_min
           (Js.parseInt_no_radix (Js.or_str (ADDRESSR_INDEX_BACKOFF_MAX env) "600000"))
           (Js.num_add backoff
              (Js.parseInt_no_radix
                 (Js.or_str (ADDRESSR_INDEX_BACKOFF_INCREMENT env) "30000"))))
        (count + 1)).
      cbv zeta in IH.
      destruct (sendIndexRequest_loop env body refresh replies _ _)
        as [events status].
      destruct IH as (Hreq & Hdel & Hret). cbn [fst snd] in *.
      split; [|split].
      * change (requests (Bulk refresh body _ :: SetTimeout backoff :: events))
          with (sent :: requests events). by rewrite Hreq.
      * change (delays (Bulk refresh body _ :: SetTimeout backoff :: events))
          with (backoff :: delays events). cbn [length]. by rewrite Hdel.
      * rewrite Hret. split; [by constructor 2|].
        intros H. inversion H; subst; [congruence|done].
    + cbn. repeat split; try done. intros _. by constructor 1.
Qed.

End Trace.

(** X10. Whatever the configuration and whatever the backend replies,
    [sendIndexRequest] sends the same body, refresh flag and timeout in every
    request; it sends one request more than the number of replies that fail
    before the first that does not, and sets one timer per such failure; and
    it returns exactly when some reply did not fail. *)
Theorem sendIndexRequest_trace {Body : Type} (env : Env) (body : Body)
    (initialBackoff : option Js.num) (refresh : option bool)
    (replies : list BulkReply) :
  let run := sendIndexRequest env body initialBackoff refresh replies in
  requests run.1
  = replicate (S (leading_failures replies))
      (default false refresh, body,
       Js.or_str (ADDRESSR_INDEX_TIMEOUT env) "300s")
  ∧ length (delays run.1) = leading_failures replies
  ∧ (run.2 = Returned ↔ Exists (λ reply, failed reply = false) replies).
Proof. apply loop_trace. Qed.

Section Schedule.
Context {Body : Type}.
Variables (env : Env) (body : Body) (refresh : bool).
Variables (start increment cap : Z).
Hypothesis Hincrement :
  Js.parseInt_no_radix (Js.or_str (ADDRESSR_INDEX_BACKOFF_INCREMENT env) "30000")
  = Some increment.
Hypothesis Hcap :
  Js.parseInt_no_radix (Js.or_str (ADDRESSR_INDEX_BACKOFF_MAX env) "600000") = Some cap.
Hypothesis Hgrow : 0 ≤ increment.

Lemma loop_capped (replies : list BulkReply) : ∀ (j : nat) (count : Z),
  delays (sendIndexRequest_loop env body refresh replies
            (Some (Z.min cap (start + Z.of_nat (S j) * increment))) count).1
  = map (λ k, Some (Z.min cap (start + Z.of_nat (S j + k) * increment)))
        (seq 0 (leading_failures replies)).
Proof.
  induction replies as [|reply replies IH]; intros j count; [done|].
  cbn [sendIndexRequest_loop leading_failures].
  destruct (failed reply); [|done].
  rewrite Hincrement, Hcap. cbn [Js.num_add Js.num_min].
  replace (Z.min cap (Z.min cap (start + Z.of_nat (S j) * increment) + increment))
    with (Z.min cap (start + Z.of_nat (S (S j)) * increment)) by lia.
  specialize (IH (S j) (count + 1)).
  destruct (sendIndexRequest_loop env body refresh replies _ _)
    as [events status].
  cbn [fst] in *.
  change (delays (Bulk refresh body _ :: SetTimeout ?b :: events))
    with (b :: delays events).
  rewrite IH. cbn [seq map]. rewrite Nat.add_0_r. f_equal.
  rewrite <- seq_shift, map_map. apply map_ext. intros k.
  do 3 f_equal. lia.
Qed.

Lemma loop_schedule (replies : list BulkReply) (count : Z) :
  delays (sendIndexRequest_loop env body refresh replies (Some start) count).1
  = map (λ k, Some (if Nat.eqb k 0 then start
                    else Z.min cap (start + Z.of_nat k * increment)))
        (seq 0 (leading_failures replies)).
Proof.
  destruct replies as [|reply replies]; [done|].
  cbn [sendIndexRequest_loop leading_failures].
  destruct (failed reply); [|done].
  rewrite Hincrement, Hcap. cbn [Js.num_add Js.num_min].
  pose proof (loop_capped replies 0 (count + 1)) as Hrest.
  replace (start + Z.of_nat 1 * increment) with (start + increment) in Hrest
    by lia.
  destruct (sendIndexRequest_loop env body refresh replies _ _)
    as [events status].
  cbn [fst] in *.
  change (delays (Bulk refresh body _ :: SetTimeout ?b :: events))
    with (b :: delays events).
  rewrite Hrest. cbn [seq map Nat.eqb]. f_equal.
  rewrite <- seq_shift, map_map. apply map_ext. intros k. reflexivity.
Qed.

End Schedule.

(** X11. Under a configuration whose initial delay, increment and maximum
    parse as safe integers (below [2 ^ 53] in magnitude, where the doubles
    of the source are exact), with an increment that is not negative: the
    first delay is the initial backoff as it is, with no cap applied, and the
    delay before resubmission [k + 1], for [k] of 1 or more, is
    [min MAX (initial + k * INCREMENT)]. *)
Theorem sendIndexRequest_schedule {Body : Type} (env : Env) (body : Body)
    (initialBackoff : option Js.num) (refresh : option bool)
    (replies : list BulkReply) (start increment cap : Z) :
  default (Js.parseInt_no_radix (Js.or_str (ADDRESSR_INDEX_BACKOFF env) "30000"))
          initialBackoff = Some start →
  Js.parseInt_no_radix (Js.or_str (ADDRESSR_INDEX_BACKOFF_INCREMENT env) "30000")
  = Some increment →
  Js.parseInt_no_radix (Js.or_str (ADDRESSR_INDEX_BACKOFF_MAX env) "600000")
  = Some cap →
  Js.safe start → Js.safe increment → Js.safe cap →
  0 ≤ increment →
  delays (sendIndexRequest env body initialBackoff refresh replies).1
  = map (λ k, Some (if Nat.eqb k 0 then start
                    else Z.min cap (start + Z.of_nat k * increment)))
        (seq 0 (leading_failures replies))
  ∧ Forall (λ delay, ∃ ms, delay = Some ms ∧ Js.safe ms)
           (delays (sendIndexRequest env body initialBackoff refresh replies).1).
Proof.
  intros Hstart Hincrement Hcap Hsafe_start Hsafe_increment Hsafe_cap Hgrow.
  unfold sendIndexRequest. rewrite Hstart.
  rewrite (loop_schedule env body (default false refresh) start increment cap
             Hincrement Hcap Hgrow).
  split; [done|].
  apply Forall_forall. intros delay Hin.
  apply list_elem_of_In, in_map_iff in Hin as (k & <- & _).
  eexists. split; [reflexivity|].
  unfold Js.safe in *. destruct (Nat.eqb k 0); [done|]. nia.
Qed.

Lemma sendIndexRequest_schedule_witness :
  delays (sendIndexRequest (backoff_env "900000" "250000" "600000") "batch"
            None None [Rejects; Rejects; Resolves true false; Rejects]).1
  = [Some 900000; Some 600000; Some 600000; Some 600000]
  (* an increment in hexadecimal, with white space in front *)
  ∧ delays (sendIndexRequest (backoff_env "1000" " 0x7530" "600000") "batch"
              None None [Rejects; Rejects; Resolves true false; Rejects]).1
    = [Some 1000; Some 31000; Some 61000; Some 91000].
Proof.
  split.
  - exact (proj1 (sendIndexRequest_schedule
             (backoff_env "900000" "250000" "600000")
             "batch" None None [Rejects; Rejects; Resolves true false; Rejects]
             900000 250000 600000 eq_refl eq_refl eq_refl
             ltac:(split; reflexivity) ltac:(split; reflexivity)
             ltac:(split; reflexivity) ltac:(lia))).
  - exact (proj1 (sendIndexRequest_schedule
             (backoff_env "1000" " 0x7530" "600000")
             "batch" None None [Rejects; Rejects; Resolves true false; Rejects]
             1000 30000 600000 eq_refl eq_refl eq_refl
             ltac:(split; reflexivity) ltac:(split; reflexivity)
             ltac:(split; reflexivity) ltac:(lia))).
Defined.

End BulkIndexTraceSpec.

(** ** The memoised tables of the compiled lookups *)
Module CodeMapSpec.
Import PropertyCodeToName.

Lemma keyed_once {A B} (f : A → B) (xs : list A) :
  NoDup (map f xs) → ∀ x y, In x xs → In y xs → f x = f y → x = y.
Proof.
  induction xs as [|z zs IH]; intros Hnd x y Hx Hy Hf; [done|].
  cbn [map] in Hnd. apply NoDup_cons in Hnd as [Hz Hnd].
  destruct Hx as [->|Hx], Hy as [->|Hy]; try done.
  - destruct Hz. rewrite Hf. apply list_elem_of_In. by apply in_map.
  - destruct Hz. rewrite <- Hf. apply list_elem_of_In. by apply in_map.
  - by apply IH.
Qed.

(** X12. [buildCodeMap] has an entry for exactly the codes of the table,
    whatever the table; and when no code occurs twice in the table, looking
    up the code of any row gives back the name of that row. *)
Theorem buildCodeMap_round_trip (table : list AuthorityCodeEntry) :
  (∀ code, is_Some (Dist.buildCodeMap table !! code) ↔ In code (map CODE table))
  ∧ (NoDup (map CODE table) →
     ∀ entry, In entry table →
       Dist.buildCodeMap table !! CODE entry = Some (NAME entry)).
Proof.
  split.
  - intros code. rewrite PropertyCodeToNameSpec.buildCodeMap_lookup. split.
    + intros [name Hname].
      destruct (last_with table code) as [entry|] eqn:Hlast; [|done].
      apply PropertyCodeToNameSpec.last_with_defines in Hlast as [Hin <-].
      by apply in_map.
    + intros Hin. apply in_map_iff in Hin as (entry & <- & Hin).
      destruct (last_with table (CODE entry)) as [found|] eqn:Hlast; [by eexists|].
      rewrite PropertyCodeToNameSpec.last_with_none in Hlast.
      by destruct (Hlast entry).
  - intros Hnd entry Hin. rewrite PropertyCodeToNameSpec.buildCodeMap_lookup.
    destruct (last_with table (CODE entry)) as [found|] eqn:Hlast.
    + apply PropertyCodeToNameSpec.last_with_defines in Hlast as [Hfound Hcode].
      by rewrite (keyed_once CODE table Hnd found entry).
    + rewrite PropertyCodeToNameSpec.last_with_none in Hlast.
      by destruct (Hlast entry).
Qed.

Lemma buildCodeMap_round_trip_witness :
  Dist.buildCodeMap level_types !! "G" = Some "GROUND"
  ∧ ¬ is_Some (Dist.buildCodeMap level_types !! "M")
  (* a table with a duplicated code has an entry for that code all the same *)
  ∧ is_Some (Dist.buildCodeMap duplicated !! "L").
Proof.
  assert (Hnd : NoDup (map CODE level_types)).
  { cbn. repeat (apply NoDup_cons; split;
                 [rewrite ?elem_of_cons, elem_of_nil; intros H;
                  repeat (destruct H as [H|H]; [discriminate H|]); exact H|]).
    apply NoDup_nil_2. }
  destruct (buildCodeMap_round_trip level_types) as [Hdom Hget].
  split; [|split].
  - exact (Hget Hnd {| CODE := "G"; NAME := "GROUND" |}
             ltac:(cbn; right; left; reflexivity)).
  - rewrite Hdom. cbn. intros H.
    repeat (destruct H as [H|H]; [discriminate H|]). exact H.
  - apply (proj1 (buildCodeMap_round_trip duplicated)). cbn. by left.
Defined.

(** X13. The compiled helpers keep the table they were first given: once a
    helper has answered a lookup, its later answers are read from the table
    of that first context, whatever context the later calls pass, and the
    memoised maps are left as they are; after [clearAuthorityCodeMaps] the
    next lookup reads the table of the context it is given. *)
Theorem memo_kept_until_cleared {A : Type} (h : Helper A)
    (first later : PropertyCodeToNameContext) (code code' : string)
    (address address' : A) (st : Dist.Maps) :
  In h helpers →
  current h st = None →
  let st1 := (dist h code first address st).2 in
  (dist h code' later address' st1).1.1
  = NAME <$> last_with (table h first) code'
  ∧ (dist h code' later address' st1).2 = st1
  ∧ (dist h code' later address' (Dist.clearAuthorityCodeMaps st1)).1.1
    = NAME <$> last_with (table h later) code'.
Proof.
  intros Hin Hnone st1.
  pose proof (proj1 (Forall_forall _ _)
                (PropertyCodeToNameSpec.helpers_shaped (A := A)) h
                ltac:(by apply list_elem_of_In)) as [Hclear Hshape].
  assert (Hst1 : current h st1 = Some (Dist.buildCodeMap (table h first))).
  { subst st1.
    destruct (Hshape code first address) as (diag & _ & _ & Hdist).
    destruct (Hdist st) as (store & Hstore & ->).
    rewrite Hnone. cbn [Dist.lazily Dist.byMap].
    destruct (Dist.buildCodeMap (table h first) !! code); cbn [snd];
      apply Hstore. }
  destruct (Hshape code' later address') as (diag & _ & _ & Hdist).
  split; [|split].
  - destruct (Hdist st1) as (store & _ & ->). rewrite Hst1.
    cbn [Dist.lazily Dist.byMap].
    rewrite PropertyCodeToNameSpec.buildCodeMap_lookup.
    by destruct (last_with (table h first) code').
  - destruct (Hdist st1) as (store & _ & ->). rewrite Hst1.
    cbn [Dist.lazily Dist.byMap].
    by destruct (Dist.buildCodeMap (table h first) !! code').
  - destruct (Hdist (Dist.clearAuthorityCodeMaps st1)) as (store & _ & ->).
    change (Dist.clearAuthorityCodeMaps st1) with Dist.cleared.
    rewrite Hclear. cbn [Dist.lazily Dist.byMap].
    rewrite PropertyCodeToNameSpec.buildCodeMap_lookup.
    by destruct (last_with (table h later) code').
Qed.

Lemma memo_kept_until_cleared_witness :
  let st1 :=
    (Dist.levelTypeCodeToName "G" (uniform level_types) tt Dist.cleared).2 in
  (Dist.levelTypeCodeToName "L" (uniform duplicated) tt st1).1.1 = Some "LEVEL"
  ∧ (Dist.levelTypeCodeToName "L" (uniform duplicated) tt
       (Dist.clearAuthorityCodeMaps st1)).1.1 = Some "LOWER".
Proof.
  intros st1.
  destruct (memo_kept_until_cleared
              {| table := Authority_Code_LEVEL_TYPE_AUT_psv;
                 current := Dist.levelTypeMap;
                 ts := Ts.levelTypeCodeToName;
                 dist := Dist.levelTypeCodeToName |}
              (uniform level_types) (uniform duplicated) "G" "L" tt tt
              Dist.cleared ltac:(left; reflexivity) eq_refl)
    as (Hstale & _ & Hfresh).
  split; [exact Hstale | exact Hfresh].
Defined.

End CodeMapSpec.

(** ** The covered regions, piece by piece *)
Module CoveredStatesMoreSpec.
Import CoveredStates.

(** Cutting a string at the commas and joining the pieces with commas gives
    the string back. *)
Lemma join_split (s : string) : String.concat "," (Js.split "," s) = s.
Proof.
  induction s as [|c rest IH]; [done|].
  cbn [Js.split]. destruct (Ascii.eqb_spec c ",") as [->|Hne].
  - pose proof (JsFacts.split_nonempty "," rest) as Hnonempty.
    destruct (Js.split "," rest) as [|w ws]; [done|].
    cbn [String.concat] in *. by rewrite IH.
  - pose proof (JsFacts.split_nonempty "," rest) as Hnonempty.
    destruct (Js.split "," rest) as [|w ws]; [done|].
    destruct ws as [|w' ws]; [cbn in *; by rewrite IH|].
    change (String.concat "," (String c w :: w' :: ws))
      with (String c (w ++ "," ++ String.concat "," (w' :: ws))).
    change (String.concat "," (w :: w' :: ws))
      with (w ++ "," ++ String.concat "," (w' :: ws)) in IH.
    by rewrite IH.
Qed.

(** X14. [getCoveredStates] returns all the pieces of the configured value
    or none of them: every code it returns is one of the eight that
    [isSupportedState] accepts, and a result that is not empty is the
    configured value cut at its commas, piece for piece, so that joining it
    with commas gives the configured value back (nothing is trimmed,
    upper-cased, dropped or reordered). *)
Theorem getCoveredStates_all_or_nothing (COVERED_STATES : option string) :
  let states := getCoveredStates COVERED_STATES in
  Forall (λ state, isSupportedState state = true) states
  ∧ (states = []
     ∨ COVERED_STATES = Some (String.concat "," states)
       ∧ Forall (λ state, In state
                   ["ACT"; "NSW"; "NT"; "QLD"; "SA"; "TAS"; "VIC"; "WA"]) states).
Proof.
  intros states. subst states. unfold getCoveredStates.
  destruct COVERED_STATES as [v|]; cbn [Js.or_str]; [|by split; [|left]].
  destruct (String.eqb_spec v "") as [->|Hv]; [by split; [|left]|].
  destruct (String.eqb_spec v ""); [done|].
  destruct (Js.some _ _) eqn:Hsome; [by split; [|left]|].
  assert (Hall : Forall (λ state, isSupportedState state = true)
                        (Js.split "," v)).
  { apply Forall_forall. intros state Hin.
    unfold Js.some in Hsome.
    destruct (isSupportedState state) eqn:Hs; [done|].
    assert (existsb (λ state, negb (isSupportedState state)) (Js.split "," v)
            = true); [|congruence].
    apply existsb_exists. exists state. split; [by apply list_elem_of_In|].
    by rewrite Hs. }
  split; [done|]. right. split; [by rewrite join_split|].
  eapply Forall_impl; [exact Hall|]. intros state Hs.
  by apply JsFacts.includes_In.
Qed.

End CoveredStatesMoreSpec.

(** ** The JSON writer *)
Module WriterSpec.
Import Writer.

(** X15. [writeJson] always makes the same three calls, in this order: the
    status, the JSON content type, the body; the body sent is never a
    [ResponsePayload] wrapper but what the wrappers hold.  The status is the
    code of the innermost wrapper when the argument is wrapped, whatever
    [statusOverride] says; otherwise it is [statusOverride] when given,
    otherwise the body itself when the body is a number, otherwise 200. *)
Theorem writeJson_calls {T : Type} (bodyOrPayload : Body T)
    (statusOverride : option Z) :
  ∃ code,
    writeJson bodyOrPayload statusOverride
    = [ status code; setHeader "Content-Type" "application/json";
        json (unwrapped bodyOrPayload) ]
    ∧ is_payload (unwrapped bodyOrPayload) = false
    ∧ code = match innermost_code bodyOrPayload, statusOverride with
             | Some inner, _ => inner
             | None, Some override => override
             | None, None =>
                 match bodyOrPayload with Number n => n | _ => 200 end
             end.
Proof.
  revert statusOverride.
  induction bodyOrPayload as [n|body|code payload IH]; intros statusOverride.
  - eexists. split; [reflexivity|]. split; [done|].
    by destruct statusOverride.
  - eexists. split; [reflexivity|]. split; [done|].
    by destruct statusOverride.
  - destruct (IH (Some code)) as (sent & Hcalls & Hplain & Hcode).
    exists sent. cbn [writeJson unwrapped innermost_code].
    split; [done|]. split; [done|].
    rewrite Hcode. by destruct (innermost_code payload).
Qed.

(** A wrapped body with an override of 500: the code of the wrapper is
    sent. *)
Example writeJson_override_ignored :
  writeJson (respondWithCode 404 (Plain "not found")) (Some 500)
  = [ status 404; setHeader "Content-Type" "application/json";
      json (Plain "not found") ].
Proof. reflexivity. Qed.

End WriterSpec.

(** ** Search synonyms *)
Module SynonymsSpec.
Import PropertyCodeToName Synonyms.

Lemma spread_set_spec (xs : list string) : ∀ seen,
  NoDup (spread_set seen xs)
  ∧ (∀ x, In x (spread_set seen xs) ↔ In x xs ∧ ¬ In x seen)
  ∧ sublist (spread_set seen xs) xs.
Proof.
  induction xs as [|x xs IH]; intros seen; cbn [spread_set].
  - split; [apply NoDup_nil_2|]. split; [|done]. intros x. cbn. tauto.
  - destruct (Js.includes seen x) eqn:Hseen.
    + apply JsFacts.includes_In in Hseen.
      destruct (IH seen) as (Hnd & Hin & Hsub).
      split; [done|]. split; [|by apply sublist_cons].
      intros y. rewrite Hin. cbn. split; [tauto|].
      intros [[<-|Hy] Hnot]; tauto.
    + assert (Hnot : ¬ In x seen).
      { intros Hin. apply JsFacts.includes_In in Hin. congruence. }
      destruct (IH (x :: seen)) as (Hnd & Hin & Hsub).
      split; [|split; [|by apply sublist_skip]].
      * apply NoDup_cons. split; [|done].
        rewrite list_elem_of_In, Hin. cbn. tauto.
      * intros y. cbn [In]. rewrite Hin. cbn [In].
        destruct (String.eqb_spec x y) as [->|Hne]; [tauto|].
        split; [intros [?|[? ?]]; [done|tauto]|].
        intros [[?|?] ?]; [done|]. right. tauto.
Qed.

Lemma spread_set_id (xs : list string) : ∀ seen,
  NoDup xs → (∀ x, In x xs → ¬ In x seen) → spread_set seen xs = xs.
Proof.
  induction xs as [|x xs IH]; intros seen Hnd Hfresh; [done|].
  apply NoDup_cons in Hnd as [Hx Hnd]. cbn [spread_set].
  destruct (Js.includes seen x) eqn:Hseen.
  - apply JsFacts.includes_In in Hseen. destruct (Hfresh x); [by left|done].
  - f_equal. apply IH; [done|]. intros y Hy [<-|Hin].
    + apply Hx. by apply list_elem_of_In.
    + apply (Hfresh y); [by right|done].
Qed.

(** Only the membership of [seen] matters. *)
Lemma spread_set_seen (xs : list string) : ∀ seen seen',
  (∀ x, In x seen ↔ In x seen') → spread_set seen xs = spread_set seen' xs.
Proof.
  induction xs as [|x xs IH]; intros seen seen' Hsame; [done|].
  cbn [spread_set].
  assert (Hx : Js.includes seen x = Js.includes seen' x).
  { apply eq_true_iff_eq. by rewrite !JsFacts.includes_In. }
  rewrite Hx. destruct (Js.includes seen' x); [by apply IH|].
  f_equal. apply IH. intros y. cbn [In]. by rewrite Hsame.
Qed.

Lemma spread_set_app (xs ys : list string) : ∀ seen,
  spread_set seen (xs ++ ys)
  = (spread_set seen xs ++ spread_set (xs ++ seen) ys)%list.
Proof.
  induction xs as [|x xs IH]; intros seen; [done|].
  cbn [app spread_set].
  destruct (Js.includes seen x) eqn:Hseen.
  - rewrite IH. f_equal. apply spread_set_seen. intros y.
    apply JsFacts.includes_In in Hseen.
    rewrite !in_app_iff. cbn [In]. rewrite ?in_app_iff.
    split; [tauto|]. intros [<-|?]; tauto.
  - cbn [app]. f_equal. rewrite IH. f_equal. apply spread_set_seen.
    intros y. rewrite !in_app_iff. cbn [In]. rewrite ?in_app_iff. tauto.
Qed.

(** X16. [buildSynonyms] returns every synonym of the street-type,
    flat-type, level-type and street-suffix tables, and nothing else, each
    of them once, in the order of its first occurrence in the concatenation
    of the four lists: a synonym comes right after the synonyms that occur
    before its first occurrence. *)
Theorem buildSynonyms_unique
    (mapAuthCodeTableToSynonymList : list AuthorityCodeEntry → list string)
    (context : PropertyCodeToNameContext) :
  let all :=
    flat_map mapAuthCodeTableToSynonymList (synonym_tables context) in
  let synonyms := buildSynonyms mapAuthCodeTableToSynonymList context in
  NoDup synonyms
  ∧ (∀ synonym, In synonym synonyms ↔ In synonym all)
  ∧ sublist synonyms all
  ∧ (∀ before synonym after,
       all = (before ++ synonym :: after)%list → ¬ In synonym before →
       ∃ front back,
         synonyms = (front ++ synonym :: back)%list
         ∧ ∀ other, In other front ↔ In other before)
  ∧ (NoDup all → synonyms = all).
Proof.
  intros all synonyms.
  assert (Hall : synonyms = spread_set [] all).
  { subst synonyms all. unfold buildSynonyms, synonym_tables.
    cbn [flat_map]. by rewrite app_nil_r. }
  rewrite Hall. clear Hall synonyms.
  destruct (spread_set_spec all []) as (Hnd & Hin & Hsub).
  split; [done|]. split; [|split; [done|split]].
  - intros synonym. rewrite Hin. cbn. tauto.
  - intros before synonym after -> Hfirst.
    rewrite spread_set_app. cbn [spread_set].
    assert (Hnew : Js.includes (before ++ []) synonym = false).
    { apply not_true_is_false. rewrite JsFacts.includes_In, app_nil_r. done. }
    rewrite Hnew. eexists _, _. split; [reflexivity|].
    intros other. destruct (spread_set_spec before []) as (_ & Hfront & _).
    rewrite Hfront. cbn. tauto.
  - intros Hall. apply spread_set_id; [done|]. by intros x _ [].
Qed.

(** For instance, whichever way the duplicates lie, the first occurrences
    fix the order. *)
Example spread_set_order :
  spread_set [] ["AVENUE"; "STREET"; "AVENUE"; "ROAD"; "STREET"]
  = ["AVENUE"; "STREET"; "ROAD"].
Proof. reflexivity. Qed.

End SynonymsSpec.

(** ** JavaScript objects *)
Module JsonFacts.
Import Json.

Lemma find_filter {A} (p q : A → bool) (xs : list A) :
  (∀ x, p x = true → q x = true) →
  Js.find p (List.filter q xs) = Js.find p xs.
Proof.
  intros Hpq. induction xs as [|x xs IH]; [done|].
  cbn [List.filter Js.find]. destruct (p x) eqn:Hp.
  - rewrite (Hpq x Hp). cbn [Js.find]. by rewrite Hp.
  - destruct (q x); cbn [Js.find]; by rewrite ?Hp.
Qed.

Lemma find_filter_none {A} (p q : A → bool) (xs : list A) :
  (∀ x, p x = true → q x = false) →
  Js.find p (List.filter q xs) = None.
Proof.
  intros Hpq. induction xs as [|x xs IH]; [done|].
  cbn [List.filter]. destruct (q x) eqn:Hq; [|done].
  cbn [Js.find]. destruct (p x) eqn:Hp; [|done].
  rewrite (Hpq x Hp) in Hq. discriminate.
Qed.

Lemma prop_delete (k k' : string) (o : object) :
  prop k (delete k' o) = if String.eqb k k' then Undefined else prop k o.
Proof.
  unfold prop, delete. destruct (String.eqb_spec k k') as [->|Hne].
  - rewrite find_filter_none; [done|].
    intros [key v] Hkey. cbn in *. by rewrite Hkey.
  - rewrite find_filter; [done|].
    intros [key v] Hkey. cbn in *. apply String.eqb_eq in Hkey as ->.
    apply negb_true_iff. by apply String.eqb_neq.
Qed.

Lemma prop_set (k k' : string) (v : value) (o : object) :
  prop k (set k' v o) = if String.eqb k k' then v else prop k o.
Proof.
  unfold prop. induction o as [|[key w] o IH]; cbn [set Js.find fst snd].
  - rewrite (String.eqb_sym k' k). by destruct (String.eqb k k').
  - destruct (String.eqb_spec key k') as [->|Hne]; cbn [Js.find fst snd].
    + rewrite (String.eqb_sym k' k). by destruct (String.eqb k k').
    + destruct (String.eqb_spec key k) as [->|Hne']; [|exact IH].
      destruct (String.eqb_spec k k'); [congruence|done].
Qed.

End JsonFacts.

(** ** From the index to the response *)
Module ServedSpec.
Import Json Indexing Api.

Lemma prop_rest_of (k : string) (row : object) :
  prop k (rest_of row)
  = if String.eqb k "sla" || String.eqb k "ssla" then Undefined else prop k row.
Proof.
  unfold prop, rest_of.
  destruct (String.eqb_spec k "sla") as [->|Hsla]; cbn [orb].
  { rewrite JsonFacts.find_filter_none; [done|].
    intros [key v] Hkey. cbn in *. by rewrite Hkey. }
  destruct (String.eqb_spec k "ssla") as [->|Hssla].
  { rewrite JsonFacts.find_filter_none; [done|].
    intros [key v] Hkey. cbn in *. rewrite Hkey. apply andb_false_r. }
  rewrite JsonFacts.find_filter; [done|].
  intros [key v] Hkey. cbn in *. apply String.eqb_eq in Hkey as ->.
  apply andb_true_iff. split; apply negb_true_iff; by apply String.eqb_neq.
Qed.

Section Served.
Variable ES_INDEX_NAME : string.
Variable stringify : object → string.
Variable md5 : string → string.

Abbreviation self_link addressId :=
  {| rel := Some "self"; uri := "/addresses/" ++ addressId; title := None;
     type := None; var_base := None |}.

(** [getAddress] on a stored document that has the three properties
    [sla], [ssla] and [structured] first. *)
Lemma stored_document_served get addressId jsonX body sla ssla structured extra :
  get ES_INDEX_NAME ("/addresses/" ++ addressId) = GetResolves jsonX →
  member jsonX "body" = Some body →
  member body "_source"
  = Some (Obj (("sla", sla) :: ("ssla", ssla)
               :: ("structured", Obj structured) :: extra)) →
  ∃ json,
    getAddress ES_INDEX_NAME stringify md5 get addressId
    = AddressFound [self_link addressId] json (md5 (stringify json))
    ∧ prop "sla" json = sla
    ∧ prop "_id" json = Undefined
    ∧ ∀ k, k ≠ "sla" → k ≠ "_id" → prop k json = prop k structured.
Proof.
  intros Hget Hbody Hsource. unfold getAddress. rewrite Hget, Hbody.
  cbn [mbind option_bind]. rewrite Hsource.
  cbn [mbind option_bind member prop Js.find fst snd String.eqb Ascii.eqb
       Bool.eqb spread].
  eexists. split; [reflexivity|].
  rewrite !JsonFacts.prop_delete, !JsonFacts.prop_set. cbn.
  split; [done|]. split; [done|]. intros k Hsla Hid.
  rewrite JsonFacts.prop_delete, JsonFacts.prop_set.
  destruct (String.eqb_spec k "_id"); [done|].
  by destruct (String.eqb_spec k "sla").
Qed.

(** X17. What the loader indexes is what [getAddress] serves: the chunk
    handler of [loadGNAFAddress] files the document of an item under the id
    [/addresses/<pid>], which is the id [getAddress] asks the backend for;
    and from that document [getAddress] returns the single-line address and
    every other property of the item as they were, except [ssla] and [_id],
    which it never returns. *)
Theorem loaded_address_is_served (item : object) (pid : string)
    (indexed_as stored : value) get jsonX body :
  prop "pid" item = Str pid →
  entries_of_item ES_INDEX_NAME item = Some [indexed_as; stored] →
  get ES_INDEX_NAME ("/addresses/" ++ pid) = GetResolves jsonX →
  member jsonX "body" = Some body →
  member body "_source" = Some stored →
  indexed_as = directive ES_INDEX_NAME (Str ("/addresses/" ++ pid))
  ∧ ∃ json,
      getAddress ES_INDEX_NAME stringify md5 get pid
      = AddressFound [self_link pid] json (md5 (stringify json))
      ∧ prop "sla" json = prop "sla" item
      ∧ prop "ssla" json = Undefined
      ∧ prop "_id" json = Undefined
      ∧ ∀ k, k ≠ "sla" → k ≠ "ssla" → k ≠ "_id" → prop k json = prop k item.
Proof.
  intros Hpid Hentries Hget Hbody Hsource.
  unfold entries_of_item in Hentries. rewrite Hpid in Hentries.
  destruct (member (prop "structured" (rest_of item)) "confidence")
    as [confidence|]; [|discriminate].
  cbn [mbind option_bind template] in Hentries.
  injection Hentries as <- <-. split; [done|].
  destruct (stored_document_served get pid jsonX body _ _ _ _
              Hget Hbody Hsource) as (json & Hserved & Hsla & Hid & Hrest).
  exists json. split; [done|]. split; [done|].
  split; [|split; [done|]].
  - rewrite Hrest by done. by rewrite prop_rest_of.
  - intros k Hk1 Hk2 Hk3. rewrite Hrest by done. rewrite prop_rest_of.
    destruct (String.eqb_spec k "sla"); [done|].
    by destruct (String.eqb_spec k "ssla").
Qed.

(** X18. What the compiled [setAddresses] indexes is what [getAddress]
    serves: the document of a row whose [links.self.href] is
    [/addresses/<id>] is filed under the id [getAddress] asks the backend
    for, and from it [getAddress] returns the single-line address and every
    other property of the row as they were, except [ssla] and [_id], which
    it never returns. *)
Theorem set_address_is_served (row : object) (self : value) (id : string)
    (indexed_as stored : value) get jsonX body :
  member (prop "links" row) "self" = Some self →
  member self "href" = Some (Str ("/addresses/" ++ id)) →
  entries_of_address ES_INDEX_NAME row = Some [indexed_as; stored] →
  get ES_INDEX_NAME ("/addresses/" ++ id) = GetResolves jsonX →
  member jsonX "body" = Some body →
  member body "_source" = Some stored →
  indexed_as = directive ES_INDEX_NAME (Str ("/addresses/" ++ id))
  ∧ ∃ json,
      getAddress ES_INDEX_NAME stringify md5 get id
      = AddressFound [self_link id] json (md5 (stringify json))
      ∧ prop "sla" json = prop "sla" row
      ∧ prop "ssla" json = Undefined
      ∧ prop "_id" json = Undefined
      ∧ ∀ k, k ≠ "sla" → k ≠ "ssla" → k ≠ "_id" → prop k json = prop k row.
Proof.
  intros Hself Hhref Hentries Hget Hbody Hsource.
  unfold entries_of_address in Hentries. rewrite Hself in Hentries.
  cbn [mbind option_bind] in Hentries. rewrite Hhref in Hentries.
  cbn [mbind option_bind app] in Hentries.
  injection Hentries as <- <-. split; [done|].
  destruct (stored_document_served get id jsonX body _ _ _ _
              Hget Hbody Hsource) as (json & Hserved & Hsla & Hid & Hrest).
  exists json. split; [done|]. split; [done|].
  split; [|split; [done|]].
  - rewrite Hrest by done. by rewrite prop_rest_of.
  - intros k Hk1 Hk2 Hk3. rewrite Hrest by done. rewrite prop_rest_of.
    destruct (String.eqb_spec k "sla"); [done|].
    by destruct (String.eqb_spec k "ssla").
Qed.

(** X19. The [setAddresses] of [service/DefaultService.ts] files the fields
    of a row under the name [structurted]; [getAddress], which reads
    [structured], then serves the single-line address and nothing else. *)
Theorem legacy_address_is_served_bare (row : object) (self : value)
    (id : string) (indexed_as stored : value) get jsonX body :
  member (prop "links" row) "self" = Some self →
  member self "href" = Some (Str ("/addresses/" ++ id)) →
  legacy_entries_of_address ES_INDEX_NAME row = Some [indexed_as; stored] →
  get ES_INDEX_NAME ("/addresses/" ++ id) = GetResolves jsonX →
  member jsonX "body" = Some body →
  member body "_source" = Some stored →
  getAddress ES_INDEX_NAME stringify md5 get id
  = AddressFound [self_link id] [("sla", prop "sla" row)]
      (md5 (stringify [("sla", prop "sla" row)])).
Proof.
  intros Hself Hhref Hentries Hget Hbody Hsource.
  unfold legacy_entries_of_address in Hentries. rewrite Hself in Hentries.
  cbn [mbind option_bind] in Hentries. rewrite Hhref in Hentries.
  cbn [mbind option_bind app] in Hentries.
  injection Hentries as <- <-.
  unfold getAddress. rewrite Hget, Hbody. cbn [mbind option_bind].
  rewrite Hsource.
  destruct (nullish _ _); reflexivity.
Qed.

End Served.

Lemma loaded_address_is_served_witness :
  ∃ json,
    getAddress "addresskit" (λ _, "") id (holding sample_loaded) "GANSW716635811"
    = AddressFound
        [ {| rel := Some "self"; uri := "/addresses/GANSW716635811";
             title := None; type := None; var_base := None |} ] json ""
    ∧ prop "sla" json = Str "LEVEL 25, 300 BARANGAROO AV, BARANGAROO NSW 2000"
    ∧ prop "ssla" json = Undefined
    ∧ prop "pid" json = Str "GANSW716635811".
Proof.
  destruct (loaded_address_is_served "addresskit" (λ _, "") id sample_address
              "GANSW716635811" _ sample_loaded (holding sample_loaded) _ _
              eq_refl eq_refl eq_refl eq_refl eq_refl)
    as (_ & json & Hserved & Hsla & Hssla & _ & Hrest).
  exists json. split; [exact Hserved|]. split; [exact Hsla|].
  split; [exact Hssla|].
  exact (Hrest "pid" ltac:(discriminate) ltac:(discriminate) ltac:(discriminate)).
Defined.

Lemma set_address_is_served_witness :
  ∃ json,
    getAddress "addresskit" (λ _, "") id (holding sample_loaded) "GANSW716635811"
    = AddressFound
        [ {| rel := Some "self"; uri := "/addresses/GANSW716635811";
             title := None; type := None; var_base := None |} ] json ""
    ∧ prop "structured" json = Obj [("confidence", Num 2)].
Proof.
  destruct (set_address_is_served "addresskit" (λ _, "") id sample_address
              _ "GANSW716635811" _ sample_loaded (holding sample_loaded) _ _
              eq_refl eq_refl eq_refl eq_refl eq_refl eq_refl)
    as (_ & json & Hserved & _ & _ & _ & Hrest).
  exists json. split; [exact Hserved|].
  exact (Hrest "structured" ltac:(discriminate) ltac:(discriminate)
               ltac:(discriminate)).
Defined.

Lemma legacy_address_is_served_bare_witness :
  getAddress "addresskit" (λ _, "") id (holding sample_legacy) "GANSW716635811"
  = AddressFound
      [ {| rel := Some "self"; uri := "/addresses/GANSW716635811";
           title := None; type := None; var_base := None |} ]
      [("sla", Str "LEVEL 25, 300 BARANGAROO AV, BARANGAROO NSW 2000")] "".
Proof.
  exact (legacy_address_is_served_bare "addresskit" (λ _, "") id sample_address
           _ "GANSW716635811" _ sample_legacy (holding sample_legacy) _ _
           eq_refl eq_refl eq_refl eq_refl eq_refl eq_refl).
Defined.

End ServedSpec.

(** ** Building the bulk body *)
Module IndexingSpec.
Import Json Indexing.

Lemma mapM_app {A B} (f : A → option B) (xs ys : list A) :
  mapM f (xs ++ ys)
  = (pushed ← mapM f xs; later ← mapM f ys; Some (pushed ++ later)%list).
Proof.
  induction xs as [|x xs IH]; cbn.
  - by destruct (mapM f ys).
  - destruct (f x); cbn; [|done]. rewrite IH.
    destruct (mapM f xs); cbn; [|done]. by destruct (mapM f ys).
Qed.

Lemma numbered_app {Row} (xs ys : list Row) : ∀ start,
  numbered (xs ++ ys) start
  = (numbered xs start ++ numbered ys (start + Z.of_nat (length xs)))%list.
Proof.
  induction xs as [|x xs IH]; intros start; cbn [app numbered length].
  - by rewrite Z.add_0_r.
  - rewrite IH. do 3 f_equal. lia.
Qed.

Section Loader.
Context {Row Context_ : Type}.
Variable ES_INDEX_NAME : string.
Variable mapAddressDetails : Row → Context_ → Z → option Z → object.
Variables (context : Context_) (expectedCount : option Z).

(** The entries of a row at a position. *)
Abbreviation entries :=
  (λ at_ : Row * Z,
     entries_of_item ES_INDEX_NAME
       (mapAddressDetails at_.1 context at_.2 expectedCount)).

Lemma chunk_body_spec (data : list Row) : ∀ actualCount,
  chunk_body ES_INDEX_NAME mapAddressDetails context expectedCount data
             actualCount
  = (pushed ← mapM entries (numbered data actualCount);
     Some (concat pushed, actualCount + Z.of_nat (length data))).
Proof.
  induction data as [|row data IH]; intros actualCount.
  - cbn. by rewrite Z.add_0_r.
  - cbn [chunk_body numbered mapM length fst snd].
    destruct (entries_of_item _ _) as [pushed|]; cbn [mbind option_bind];
      [|done].
    rewrite IH.
    destruct (mapM _ _) as [later|]; cbn [mbind option_bind mret option_ret];
      [|done].
    cbn [concat]. do 2 f_equal. lia.
Qed.

Lemma chunks_loaded_spec (refresh : bool) (chunks : list (list Row)) :
  ∀ actualCount,
  match mapM entries (numbered (concat chunks) actualCount) with
  | Some pushed =>
      ∃ events,
        chunks_loaded ES_INDEX_NAME mapAddressDetails context expectedCount
                      refresh chunks actualCount
        = Some (events, actualCount + Z.of_nat (length (concat chunks)))
        ∧ indexed events = concat pushed
        ∧ Forall (λ e, ∃ body, e = Indexed body refresh ∧ body ≠ []) events
  | None =>
      chunks_loaded ES_INDEX_NAME mapAddressDetails context expectedCount
                    refresh chunks actualCount = None
  end.
Proof.
  induction chunks as [|data chunks IH]; intros actualCount.
  - cbn. exists []. by rewrite Z.add_0_r.
  - cbn [concat chunks_loaded]. rewrite numbered_app, mapM_app, chunk_body_spec.
    destruct (mapM entries (numbered data actualCount)) as [pushed|];
      cbn [mbind option_bind]; [|done].
    specialize (IH (actualCount + Z.of_nat (length data))).
    destruct (mapM entries (numbered (concat chunks) _)) as [later|];
      cbn [mbind option_bind].
    + destruct IH as (events & -> & Hindexed & Hall).
      cbn [mbind option_bind]. eexists. split.
      { f_equal. f_equal. rewrite length_app. lia. }
      rewrite concat_app.
      destruct (Z.ltb_spec 0 (Z.of_nat (length (concat pushed)))) as [Hsome|Hnone].
      * cbn [indexed flat_map]. fold (indexed events). rewrite Hindexed.
        split; [done|]. constructor; [|done]. eexists. split; [done|].
        intros Hnil. rewrite Hnil in Hsome. cbn in Hsome. lia.
      * destruct (concat pushed); [|cbn in Hnone; lia]. by split.
    + by rewrite IH.
Qed.

End Loader.

(** X20. [loadGNAFAddress] indexes the rows of the file in order, whatever
    the chunks they arrive in: the bodies of its bulk requests, one after
    the other, are the directive and the document of each row, the row at
    position [k] (from 0, counted across chunks) being mapped with
    [actualCount = k]; it sends no request for a chunk without rows; and it
    ends by logging the number of rows, as an error when an expected count
    was given and differs.  When the handler throws on some row, because
    the mapped item has no [structured] property, the run does not
    complete. *)
Theorem loadGNAFAddress_in_order {Row Context_ : Type} (ES_INDEX_NAME : string)
    (mapAddressDetails : Row → Context_ → Z → option Z → object)
    (expectedCount : option Z) (context : Context_) (refresh : option bool)
    (chunks : list (list Row)) :
  let rows := numbered (concat chunks) 0 in
  let actualCount := Z.of_nat (length (concat chunks)) in
  let run :=
    loadGNAFAddress ES_INDEX_NAME mapAddressDetails expectedCount context
                    refresh chunks in
  match mapM (λ at_ : Row * Z,
                entries_of_item ES_INDEX_NAME
                  (mapAddressDetails at_.1 context at_.2 expectedCount)) rows
  with
  | Some pushed =>
      ∃ events,
        run = Some (events ++
                    [match expectedCount with
                     | Some expected =>
                         if bool_decide (actualCount = expected)
                         then Loaded actualCount
                         else ErrorLogged expected actualCount
                     | None => Loaded actualCount
                     end])%list
        ∧ indexed events = concat pushed
        ∧ Forall (λ e, ∃ body, e = Indexed body (default false refresh)
                               ∧ body ≠ []) events
  | None => run = None
  end.
Proof.
  intros rows actualCount run. subst rows run. unfold loadGNAFAddress.
  pose proof (chunks_loaded_spec ES_INDEX_NAME mapAddressDetails context
                expectedCount (default false refresh) chunks 0) as Hspec.
  destruct (mapM _ _) as [pushed|].
  - destruct Hspec as (events & -> & Hindexed & Hall).
    cbn [mbind option_bind]. exists events. split; [|done].
    rewrite Z.add_0_l. fold actualCount. do 3 f_equal.
    destruct expectedCount as [expected|]; [|done].
    destruct (Z.eqb_spec actualCount expected) as [Heq|Hne]; cbn [negb].
    + by rewrite bool_decide_eq_true_2.
    + by rewrite bool_decide_eq_false_2.
  - by rewrite Hspec.
Qed.

Lemma entries_of_address_two ES_INDEX_NAME row pushed :
  entries_of_address ES_INDEX_NAME row = Some pushed → length pushed = 2%nat.
Proof.
  unfold entries_of_address.
  destruct (member (prop "links" row) "self") as [self|]; [|done].
  cbn [mbind option_bind]. destruct (member self "href"); [|done].
  cbn [mbind option_bind]. by intros [= <-].
Qed.

Lemma body_of_spec ES_INDEX_NAME (addr : list object) :
  match body_of (entries_of_address ES_INDEX_NAME) addr with
  | Some indexingBody =>
      length indexingBody = (2 * length addr)%nat
      ∧ Forall (λ row, is_Some (entries_of_address ES_INDEX_NAME row)) addr
  | None =>
      ¬ Forall (λ row, is_Some (entries_of_address ES_INDEX_NAME row)) addr
  end.
Proof.
  induction addr as [|row addr IH]; cbn [body_of]; [by split|].
  destruct (entries_of_address ES_INDEX_NAME row) as [pushed|] eqn:Hrow;
    cbn [mbind option_bind].
  - apply entries_of_address_two in Hrow as Hlen.
    destruct (body_of _ addr) as [later|]; cbn [mbind option_bind].
    + destruct IH as [Hl Hall]. split.
      * rewrite length_app, Hlen, Hl. cbn [length]. lia.
      * constructor; [by rewrite Hrow|done].
    + intros Hall. apply IH. by inversion Hall.
  - intros Hall. inversion Hall as [|? ? [? Hsome] ?]; subst. congruence.
Qed.

(** X21. [setAddresses] clears the index before anything else.  It then
    sends at most one bulk request, which holds two entries for each
    address, and sends none when there is no address.  When some address has
    no [links.self], the call throws after the index has been cleared and
    nothing is sent. *)
Theorem setAddresses_effects (ES_INDEX_NAME : string) (clears : bool)
    (addr : list object) :
  let run := setAddresses ES_INDEX_NAME clears addr in
  head run.1 = Some ClearAddresses
  ∧ (run.2 = true
     ↔ clears = true
       ∧ Forall (λ row, is_Some (entries_of_address ES_INDEX_NAME row)) addr)
  ∧ (run.2 = false → run.1 = [ClearAddresses])
  ∧ (addr = [] → run.1 = [ClearAddresses])
  ∧ (run.2 = true → addr ≠ [] →
     ∃ indexingBody,
       run.1 = [ClearAddresses; SendIndexRequest indexingBody]
       ∧ length indexingBody = (2 * length addr)%nat
       ∧ body_of (entries_of_address ES_INDEX_NAME) addr = Some indexingBody).
Proof.
  intros run. subst run. unfold setAddresses, setAddresses_with.
  destruct clears; [|cbn; repeat split; try done; by intros [? _]].
  pose proof (body_of_spec ES_INDEX_NAME addr) as Hspec.
  destruct (body_of (entries_of_address ES_INDEX_NAME) addr)
    as [indexingBody|].
  - destruct Hspec as [Hlen Hall].
    destruct (Z.ltb_spec 0 (Z.of_nat (length indexingBody))) as [Hsome|Hnone];
      cbn [fst snd head].
    + repeat split; try done.
      * intros ->. cbn in Hlen. lia.
      * intros _ _. by exists indexingBody.
    + repeat split; try done.
      intros _ Hne. destruct addr; [done|]. cbn [length] in Hlen. lia.
  - cbn [fst snd head]. repeat split; try done. by intros [_ Hall].
Qed.


End IndexingSpec.

(** ** The links of the responses *)
Module ApiSpec.
Import Api.

Section Links.
Variable encodeUriFragmentIdentifier : list string → string.
Variable conf : Pagination.Conf.
Variable encode : string → string.
Variable search : Pagination.SearchBody → Searched.
Variables (url : string) (op : Operation) (q : option string).

Abbreviation page p :=
  (getAddresses encodeUriFragmentIdentifier conf encode search url op q (Some p)).

(** The query string of a page other than the first is not empty. *)
Lemma query_not_empty (n : Z) :
  String.eqb
    (URLSearchParams_toString encode
       (match q with Some q => [("q", q)] | None => [] end
        ++ [("p", Js.show n)])) "" = false.
Proof. by destruct q. Qed.

Lemma page_links (p : Z) hits rawTotal controller :
  search (Pagination.searchForAddress conf (default "" q) p None)
  = SearchResolves hits rawTotal →
  x_swagger_router_controller op = Some controller →
  ∃ described json linkTemplate,
    page p
    = AddressesFound
        (described
         :: plain_link "self"
              (url
               ++ (if String.eqb
                        (URLSearchParams_toString encode
                           (match q with Some q => [("q", q)] | None => [] end
                            ++ (if negb (p =? 1) then [("p", Js.show p)]
                                else []))) ""
                   then "" else "?")
               ++ URLSearchParams_toString encode
                    (match q with Some q => [("q", q)] | None => [] end
                     ++ (if negb (p =? 1) then [("p", Js.show p)] else [])))
         :: plain_link "first"
              (url ++ (match q with None => "" | Some _ => "?" end)
                   ++ URLSearchParams_toString encode
                        (match q with Some q => [("q", q)] | None => [] end))
         :: (if 1 <? p then
               [ plain_link "prev"
                   (url
                    ++ (if bool_decide (q = None) && (p =? 2) then "" else "?")
                    ++ URLSearchParams_toString encode
                         (match q with Some q => [("q", q)] | None => [] end
                          ++ (if 2 <? p then [("p", Js.show (p - 1))]
                              else []))) ]
             else [])
         ++ (if Pagination.PAGE_SIZE conf * p
                <? match rawTotal with
                   | TotalNumber total => total
                   | TotalObject value => value
                   end
             then [ plain_link "next"
                      (url ++ "?"
                       ++ URLSearchParams_toString encode
                            (match q with Some q => [("q", q)] | None => [] end
                             ++ [("p", Js.show (p + 1))])) ]
             else []))
        json linkTemplate
    ∧ rel described = Some "describedby".
Proof.
  intros Hsearch Hcontroller. unfold getAddresses.
  change (default 1 (Some p)) with p. cbv zeta.
  rewrite Hsearch, Hcontroller. by do 3 eexists.
Qed.

Lemma uri_of_page described (s f pu nu : string) (has_prev has_next : bool)
    json linkTemplate :
  rel described = Some "describedby" →
  let response :=
    AddressesFound
      (described :: plain_link "self" s :: plain_link "first" f
       :: (if has_prev then [plain_link "prev" pu] else [])
       ++ (if has_next then [plain_link "next" nu] else []))
      json linkTemplate in
  uri_of "self" response = Some s
  ∧ uri_of "first" response = Some f
  ∧ uri_of "prev" response = (if has_prev then Some pu else None)
  ∧ uri_of "next" response = (if has_next then Some nu else None).
Proof.
  intros Hrel. unfold uri_of, with_rel. cbn [links_of Js.find].
  rewrite Hrel. by destruct has_prev, has_next.
Qed.

(** X22. The pagination links of [getAddresses] form a chain.  On every
    page the [first] link is the address of page 1; page 1 has no [prev]
    link; from page 1 on, the [prev] link of the page after [p] is the
    address of page [p], and the [next] link of page [p], which is present
    exactly when the backend reports more than [PAGE_SIZE * p] hits, is the
    address of the page after [p]. *)
Theorem pagination_links_chain (p : Z) (controller : string) :
  1 ≤ p →
  (∀ body, ∃ hits rawTotal, search body = SearchResolves hits rawTotal) →
  x_swagger_router_controller op = Some controller →
  let found := search (Pagination.searchForAddress conf (default "" q) p None) in
  is_Some (uri_of "self" (page p))
  ∧ uri_of "first" (page p) = uri_of "self" (page 1)
  ∧ uri_of "prev" (page 1) = None
  ∧ uri_of "prev" (page (p + 1)) = uri_of "self" (page p)
  ∧ uri_of "next" (page p)
    = (if Pagination.PAGE_SIZE conf * p <? totalHits found
       then uri_of "self" (page (p + 1)) else None).
Proof.
  intros Hp Hsearch Hcontroller found.
  destruct (Hsearch (Pagination.searchForAddress conf (default "" q) p None))
    as (hits & rawTotal & Hfound).
  destruct (Hsearch (Pagination.searchForAddress conf (default "" q) 1 None))
    as (hits1 & rawTotal1 & Hfound1).
  destruct (Hsearch (Pagination.searchForAddress conf (default "" q) (p + 1) None))
    as (hits' & rawTotal' & Hfound').
  destruct (page_links p hits rawTotal controller Hfound Hcontroller)
    as (d & json & tpl & -> & Hd).
  destruct (page_links 1 hits1 rawTotal1 controller Hfound1 Hcontroller)
    as (d1 & json1 & tpl1 & -> & Hd1).
  destruct (page_links (p + 1) hits' rawTotal' controller Hfound' Hcontroller)
    as (d' & json' & tpl' & -> & Hd').
  rewrite !(λ s f pu nu a b j t,
              proj1 (uri_of_page d s f pu nu a b j t Hd)),
          !(λ s f pu nu a b j t,
              proj1 (proj2 (uri_of_page d s f pu nu a b j t Hd))),
          !(λ s f pu nu a b j t,
              proj2 (proj2 (proj2 (uri_of_page d s f pu nu a b j t Hd)))),
          !(λ s f pu nu a b j t,
              proj1 (uri_of_page d1 s f pu nu a b j t Hd1)),
          !(λ s f pu nu a b j t,
              proj1 (proj2 (proj2 (uri_of_page d1 s f pu nu a b j t Hd1)))),
          !(λ s f pu nu a b j t,
              proj1 (uri_of_page d' s f pu nu a b j t Hd')),
          !(λ s f pu nu a b j t,
              proj1 (proj2 (proj2 (uri_of_page d' s f pu nu a b j t Hd')))).
  subst found. rewrite Hfound. cbn [totalHits].
  replace (match rawTotal with
           | TotalNumber total => total
           | TotalObject value => value
           end)
    with (totalHits (SearchResolves hits rawTotal)) by by destruct rawTotal.
  cbn [Z.eqb Z.ltb Z.compare Pos.compare Pos.compare_cont negb app Pos.eqb].
  destruct (Z.eqb_spec (p + 1) 1) as [?|_]; [lia|]. cbn [negb].
  destruct (Z.ltb_spec 1 (p + 1)) as [_|?]; [|lia].
  rewrite (query_not_empty (p + 1)).
  split; [by eexists|]. split.
  { rewrite app_nil_r. by destruct q. }
  split; [done|]. split.
  - replace (p + 1 - 1) with p by lia.
    destruct (Z.eqb_spec p 1) as [->|Hne]; cbn [negb].
    + cbn [Z.add Z.eqb Z.ltb Z.compare Pos.add Pos.eqb Pos.compare
           Pos.compare_cont andb]. rewrite app_nil_r.
      destruct q as [text|]; [done|].
      rewrite bool_decide_eq_true_2 by done. reflexivity.
    + destruct (Z.eqb_spec (p + 1) 2) as [?|_]; [lia|].
      destruct (Z.ltb_spec 2 (p + 1)) as [_|?]; [|lia].
      rewrite andb_false_r, (query_not_empty p). reflexivity.
  - by destruct (_ <? _).
Qed.

End Links.

Lemma root_links (paths : list (string * Operation)) : ∀ link : list Ref,
  fold_left (λ link '(p, op),
               if has_required_parameter op then link
               else (link ++ [ {| rel := x_root_rel op; uri := p;
                                  title := summary op; type := None;
                                  var_base := None |} ])%list)
            paths link
  = (link ++ flat_map (λ entry : string * Operation,
                         if has_required_parameter entry.2 then []
                         else [ {| rel := x_root_rel entry.2; uri := entry.1;
                                   title := summary entry.2; type := None;
                                   var_base := None |} ])
                      paths)%list.
Proof.
  induction paths as [|[path operation] paths IH]; intros link;
    cbn [fold_left flat_map fst snd].
  - by rewrite app_nil_r.
  - rewrite IH. destruct (has_required_parameter operation); [done|].
    by rewrite <- app_assoc.
Qed.

Lemma root_templates encodeUriFragmentIdentifier
    (paths : list (string * Operation)) : ∀ linkTemplate : list Ref,
  fold_left (λ linkTemplate '(url, op),
               setLinkOptions encodeUriFragmentIdentifier op url linkTemplate)
            paths linkTemplate
  = (linkTemplate
     ++ flat_map (λ entry : string * Operation,
                    setLinkOptions encodeUriFragmentIdentifier entry.2 entry.1 [])
                 paths)%list.
Proof.
  induction paths as [|[path operation] paths IH]; intros linkTemplate;
    cbn [fold_left flat_map fst snd].
  - by rewrite app_nil_r.
  - rewrite IH. unfold setLinkOptions.
    destruct (parameters operation); [by rewrite <- app_assoc|done].
Qed.

(** X23. The [Link] header of the API root lists, in the order of the
    Swagger document, the paths that have a GET operation with an
    [x-root-rel] and no required parameter, followed by the two
    documentation links; an operation with a required parameter is never
    advertised there.  The link template header has one entry for each path
    with a GET operation that has an [x-root-rel] and parameters, required
    or not, whose address is the path followed by the names of its query
    parameters. *)
Theorem getApiRoot_links (encodeUriFragmentIdentifier : list string → string)
    (swaggerDoc_paths : list (string * option Operation)) :
  let root := getApiRoot encodeUriFragmentIdentifier swaggerDoc_paths in
  map uri root.1
  = (map fst (List.filter advertised swaggerDoc_paths)
     ++ ["/docs/"; "/api-docs"])%list
  ∧ map uri root.2 = omap template_of swaggerDoc_paths.
Proof.
  cbv zeta. unfold getApiRoot. cbn [fst snd].
  rewrite root_links, root_templates. cbn [app]. rewrite map_app. cbn [map uri].
  split; [f_equal|].
  - induction swaggerDoc_paths as [|[path [operation|]] paths IH];
      cbn [omap list_omap flat_map List.filter advertised fst snd]; try done.
    destruct (bool_decide (is_Some (x_root_rel operation))) eqn:Hrel;
      cbn [andb flat_map fst snd]; [|done].
    destruct (has_required_parameter operation); cbn [negb app map uri fst];
      by rewrite IH.
  - induction swaggerDoc_paths as [|[path [operation|]] paths IH];
      cbn [omap list_omap flat_map template_of fst snd mbind option_bind];
      try done.
    destruct (x_root_rel operation) as [relation|]; cbn [mbind option_bind].
    + rewrite bool_decide_eq_true_2 by by eexists.
      cbn [flat_map fst snd]. unfold setLinkOptions at 1.
      destruct (parameters operation) as [ps|]; cbn [mbind option_bind];
        rewrite map_app, IH; reflexivity.
    + rewrite bool_decide_eq_false_2 by by intros [? ?]. exact IH.
Qed.

(** The two operations of the service: the search is advertised, the
    lookup by id, which needs its [addressId], is not; both have a
    template. *)
Example getApiRoot_addresskit :
  let root := getApiRoot (λ _, "")
                [ ("/addresses", Some addresses_operation);
                  ("/addresses/{addressId}", Some address_operation) ] in
  map uri root.1 = ["/addresses"; "/docs/"; "/api-docs"]
  ∧ map uri root.2 = ["/addresses{?q,p}"; "/addresses/{addressId}{?}"].
Proof. split; reflexivity. Qed.

Lemma pagination_links_chain_witness :
  let page p :=
    getAddresses (λ _, "") Pagination.sample_conf id twenty_hits "/addresses"
                 addresses_operation (Some "george st") (Some p) in
  uri_of "first" (page 2) = Some "/addresses?q=george st"
  ∧ uri_of "prev" (page 3) = uri_of "self" (page 2)
  ∧ uri_of "next" (page 2) = Some "/addresses?q=george st&p=3"
  ∧ uri_of "next" (page 3) = None.
Proof.
  intros page.
  destruct (pagination_links_chain (λ _, "") Pagination.sample_conf id
              twenty_hits "/addresses" addresses_operation (Some "george st")
              2 "Addresses" ltac:(lia) ltac:(by eexists _, _) eq_refl)
    as (_ & Hfirst & _ & Hprev & Hnext).
  split; [exact Hfirst|]. split; [exact Hprev|]. split; [exact Hnext|].
  reflexivity.
Defined.

End ApiSpec.

(** ** The package cache, call after call *)
Module PackageCacheMoreSpec.
Import PackageCache.

(** X24. What [fetchGNAFPackageData] writes to the cache it reads back: a
    call that gets a response from the network stores it, and any later call
    made up to one day after the time of writing returns that response's
    body and headers (with the marker [x-cache: HIT]) without asking the
    network, whatever the network would do.  A call that gets no response
    from the network leaves the cache as it was. *)
Theorem fetched_package_is_cached {E : Type}
    (parseDate : option string → option Z) (cached : option CacheEntry)
    (now written later written' : Z) (net net' : Fetched E)
    (response : Response) :
  requested (fetchGNAFPackageData parseDate cached now net written) = true →
  net = FetchOk response →
  later - written ≤ ONE_DAY_MS →
  let first := fetchGNAFPackageData parseDate cached now net written in
  let entry := {| body := resp_body response; headers := resp_headers response;
                  cachedAt := Some written |} in
  store first = Some entry
  ∧ fetchGNAFPackageData parseDate (store first) later net' written'
    = {| outcome := ReturnCached (hit entry); store := Some entry;
         requested := false |}
  ∧ ∀ error : E, store (fetchGNAFPackageData parseDate cached now
                          (FetchError error) written) = cached.
Proof.
  intros Hasked -> Hsoon first entry.
  assert (Hstore : store first = Some entry).
  { subst first. unfold fetchGNAFPackageData in *.
    destruct cached as [old|]; [|done].
    destruct (age_le _ _); [discriminate Hasked|done]. }
  split; [done|]. split.
  - rewrite Hstore. unfold fetchGNAFPackageData, age_of, created.
    cbn [set_header cachedAt entry fmap option_fmap option_map age_le].
    by destruct (Z.leb_spec (later - written) ONE_DAY_MS); [|lia].
  - intros error. unfold fetchGNAFPackageData.
    destruct cached as [old|]; [|done].
    destruct (age_le _ _); [done|]. by destruct (age_lt _ _).
Qed.

Lemma fetched_package_is_cached_witness :
  fetchGNAFPackageData no_date
    (store (fetchGNAFPackageData (E := string) no_date None 0
              (FetchOk sample_response) 5))
    (ONE_DAY_MS + 5) (FetchError "ECONNRESET") (ONE_DAY_MS + 6)
  = {| outcome :=
         ReturnCached (hit {| body := "{new}"; headers := {[ "etag" := "def" ]};
                              cachedAt := Some 5 |});
       store := Some {| body := "{new}"; headers := {[ "etag" := "def" ]};
                        cachedAt := Some 5 |};
       requested := false |}.
Proof.
  exact (proj1 (proj2
    (fetched_package_is_cached (E := string) no_date None 0 5 (ONE_DAY_MS + 5)
       (ONE_DAY_MS + 6) (FetchOk sample_response) (FetchError "ECONNRESET")
       sample_response eq_refl eq_refl ltac:(vm_compute; discriminate)))).
Defined.

End PackageCacheMoreSpec.

(** ** The two versions of the search request *)
Module LegacySearchSpec.
Import Pagination.

(** X25. The [searchForAddress] of [service/DefaultService.ts] sends page
    and size as they come, with the offset [(p - 1) * pageSize]: for a page
    and a size within the limits it sends what the compiled version sends,
    and for any page below 1 it asks for a negative offset, which the
    compiled version never does. *)
Theorem legacy_searchForAddress_unclamped (conf : Conf) (q : string) (p : Z)
    (pageSize : option Z) :
  1 ≤ MAX_PAGE_NUMBER conf → 1 ≤ MAX_PAGE_SIZE conf →
  let s := default (PAGE_SIZE conf) pageSize in
  let sent := legacy_searchForAddress conf q p pageSize in
  from sent = (p - 1) * s
  ∧ size sent = s
  ∧ (1 ≤ p ≤ MAX_PAGE_NUMBER conf → 1 ≤ s ≤ MAX_PAGE_SIZE conf →
     sent = searchForAddress conf q p pageSize)
  ∧ (p < 1 → 0 < s → from sent < 0 ≤ from (searchForAddress conf q p pageSize)).
Proof.
  intros Hpages Hsizes s sent. subst sent.
  unfold legacy_searchForAddress, searchForAddress, validatePaginationParams.
  fold s. cbn [from size].
  split; [by destruct (Z.eqb_spec (p - 1) 0) as [->|]|].
  split; [done|]. split.
  - intros Hp Hs.
    replace (Z.max 1 (Z.min p (MAX_PAGE_NUMBER conf))) with p by lia.
    replace (Z.max 1 (Z.min s (MAX_PAGE_SIZE conf))) with s by lia.
    by destruct (Z.eqb_spec (p - 1) 0) as [->|].
  - intros Hp Hs. destruct (Z.eqb_spec (p - 1) 0); [lia|]. nia.
Qed.

Lemma legacy_searchForAddress_unclamped_witness :
  from (legacy_searchForAddress sample_conf "george st" (-2) None) = -24
  ∧ from (searchForAddress sample_conf "george st" (-2) None) = 0.
Proof.
  destruct (legacy_searchForAddress_unclamped sample_conf "george st" (-2) None
              ltac:(cbn; lia) ltac:(cbn; lia)) as (Hfrom & _).
  split; [exact Hfrom | reflexivity].
Defined.

End LegacySearchSpec.

(** ** Fetching the archive *)
Module ArchiveSpec.
Import Archive.

(** X27. [fetchGNAFArchive] publishes the archive whole or not at all.  When
    the archive is already at its destination, the call returns its path
    without a request and without touching the files.  Otherwise it
    downloads the first active zip resource of the package to the
    [incomplete] directory, with the size of the resource as expected size,
    and the destination holds a file afterwards only if the call returns,
    the file then being the one the download finished with; when the
    download fails or the rename fails, what was downloaded stays in the
    [incomplete] directory. *)
Theorem archive_published_whole (GNAF_DIR : string) (basename : string → string)
    (calculateBackoff : Z → Z → Z → Z → Z) (resources : list Resource)
    (dataResource : Resource) (rename_ok : bool) (files : Files)
    (scripts : list (list StreamDown.Exchange)) :
  Js.find (λ r, String.eqb (state r) "active"
                && String.eqb (mimetype r) "application/zip") resources
  = Some dataResource →
  let destination := GNAF_DIR ++ "/" ++ basename (url dataResource) in
  let run :=
    StreamDown.streamDown calculateBackoff (download_options dataResource)
                          (incomplete files) scripts in
  let '(fetched, files', events) :=
    fetchGNAFArchive GNAF_DIR basename calculateBackoff resources true
                     rename_ok files scripts in
  (is_Some (complete files) →
     fetched = Returns destination ∧ files' = files ∧ events = [])
  ∧ (complete files = None →
     events = StreamDown.trace run
     ∧ (returned fetched = true
        → fetched = Returns destination
          ∧ StreamDown.result run = Some StreamDown.Succeeded
          ∧ complete files' = StreamDown.final_disk run
          ∧ incomplete files' = None)
     ∧ (returned fetched = false
        → complete files' = None
          ∧ incomplete files' = StreamDown.final_disk run)).
Proof.
  intros Hfound destination run. unfold fetchGNAFArchive. rewrite Hfound.
  cbn [negb]. destruct (complete files) as [archive|] eqn:Hcomplete.
  { cbv beta iota. split; [done|]. intros [= ]. }
  fold run.
  destruct (StreamDown.result run) as [[|error]|]; [destruct rename_ok|..];
    cbv beta iota; (split; [by intros [? [= ]]|]); intros _;
    cbn [returned complete incomplete]; done.
Qed.

Lemma archive_published_whole_witness :
  fetchGNAFArchive "/data/gnaf" (λ _, "g-naf.zip") StreamDown.steady_backoff
    sample_resources true true
    {| complete := Some 1000; incomplete := None |} []
  = (Returns "/data/gnaf/g-naf.zip",
     {| complete := Some 1000; incomplete := None |}, []).
Proof.
  pose proof (archive_published_whole "/data/gnaf" (λ _, "g-naf.zip")
                StreamDown.steady_backoff sample_resources
                {| state := "active"; mimetype := "application/zip";
                   url := "https://data.gov.au/g-naf.zip"; size := Some 1000 |}
                true {| complete := Some 1000; incomplete := None |} []
                eq_refl) as H.
  cbv zeta in H.
  destruct (fetchGNAFArchive _ _ _ _ _ _ _ _) as [[fetched files'] events].
  destruct H as [H _]. destruct (H ltac:(by eexists)) as (-> & -> & ->).
  reflexivity.
Defined.

(** A run against a server that delivers the archive: the file is moved to
    the destination. *)
Example archive_downloaded :
  fetchGNAFArchive "/data/gnaf" (λ _, "g-naf.zip") StreamDown.steady_backoff
    sample_resources true true
    {| complete := None; incomplete := Some 400 |}
    [ [StreamDown.Respond 206 "Partial Content" None (Some "600")
         [StreamDown.Data 600; StreamDown.EndOfStream; StreamDown.Close;
          StreamDown.Flushed]] ]
  = (Returns "/data/gnaf/g-naf.zip",
     {| complete := Some 1000; incomplete := None |},
     [ StreamDown.Attempted 0 400
         [ {| StreamDown.file_flags := "a";
              StreamDown.req_url := "https://data.gov.au/g-naf.zip";
              StreamDown.req_Range := Some "bytes=400-" |} ] ]).
Proof. vm_compute. reflexivity. Qed.

End ArchiveSpec.
